(** * A skip list with duplicates: the container of [src/lib/skip.cpp]

    The C++ class [skip::SkipList<T>] keeps its nodes behind
    [shared_ptr]s.  The development below models the nodes as cells of a
    store (a growing vector, the address of a node being its index), the
    pointers as optional addresses, and every method as a function over
    that store, instantiated at [T = int].  Exceptions and the undefined
    behaviours the code could run into (null dereference, access to an
    empty optional) are explicit results, so that their absence is a
    theorem and not an assumption.

    Conventions of the model:
    - an [int] is a [Z]; the counters of the code ([level], [height], the
      indices of [iota]) count nodes of the store and stay far from the
      bounds of [int], and values are only compared;
    - [make_shared] takes the next address of the store, and a node no
      pointer leads to any more stays in the store: no address is used
      twice;
    - [rand] is not modelled: [add] takes the level [chose_level] returned,
      which can be any natural number ([chose_level_nat]);
    - a loop runs on fuel, one more than the store has nodes; running out
      of it is the result [Diverges], which the theorems exclude. *)

From Stdlib Require Import ZArith Lia.
From stdpp Require Import gmultiset sorting.
From stdpp Require Import list.

Local Open Scope Z_scope.

(** ** Results of a call *)

(** What a call can end with, besides a value.  [AssertionFail] is the
    exception of [check], [NoSuchValue] the one of [remove], [OutOfRange]
    the one of [std::map::at].  [NullPointer] and [EmptyOptional] stand for
    the two undefined behaviours of the code, [Dangling] for an address
    outside the store, [Diverges] for a loop that ran out of fuel. *)
Inductive exn :=
  | AssertionFail
  | NoSuchValue
  | OutOfRange
  | NullPointer
  | EmptyOptional
  | Dangling
  | Diverges.

Inductive result (A : Type) :=
  | Ok (a : A)
  | Throw (e : exn).
Arguments Ok {A} a.
Arguments Throw {A} e.

#[global] Instance result_ret : MRet result := λ A a, Ok a.
#[global] Instance result_bind : MBind result := λ A B f m,
  match m with
  | Ok a => f a
  | Throw e => Throw e
  end.

#[global] Instance exn_eq_dec : EqDecision exn.
Proof. solve_decision. Defined.

(** ** Nodes and the store *)

(** A [shared_ptr<Node<T>>]: [None] is [nullptr]. *)
Definition ptr := option nat.

Record Node := mkNode {
  value : option Z;
  down : ptr;
  right : ptr
}.

Record SkipList := mkSkipList {
  heap : list Node;
  head_ : ptr
}.

(** [make_shared<NT>(value, down, right)]: the new node gets the next free
    address. *)
Definition make_shared (n : Node) (h : list Node) : ptr * list Node :=
  (Some (length h), h ++ [n]).

(** [p->...]: reading through a pointer. *)
Definition deref (h : list Node) (p : ptr) : result Node :=
  match p with
  | None => Throw NullPointer
  | Some a =>
      match h !! a with
      | Some n => Ok n
      | None => Throw Dangling
      end
  end.

(** [*o] on an optional. *)
Definition get (o : option Z) : result Z :=
  match o with
  | Some x => Ok x
  | None => Throw EmptyOptional
  end.

(** [p->right = q]. *)
Definition set_right (h : list Node) (p q : ptr) : result (list Node) :=
  n ← deref h p;
  match p with
  | Some a => Ok (<[a := mkNode (value n) (down n) q]> h)
  | None => Throw NullPointer
  end.

Definition check (condition : bool) : result unit :=
  if condition then Ok () else Throw AssertionFail.

(** Every loop of the code walks over nodes of the store; a walk that
    comes back to no node twice takes at most as many steps as the store
    has nodes. *)
Definition fuel_of (h : list Node) : nat := S (length h).

(** ** [std::map<int, tuple<ptr, ptr>>] *)

(** The map is kept as a list of bindings in ascending key order, which is
    the order a range-for visits them in. *)
Definition tracked_map := list (Z * (ptr * ptr)).

Fixpoint map_set (k : Z) (v : ptr * ptr) (m : tracked_map) : tracked_map :=
  match m with
  | [] => [(k, v)]
  | (k', v') :: m' =>
      if k <? k' then (k, v) :: m
      else if k =? k' then (k, v) :: m'
      else (k', v') :: map_set k v m'
  end.

Fixpoint map_at (k : Z) (m : tracked_map) : result (ptr * ptr) :=
  match m with
  | [] => Throw OutOfRange
  | (k', v') :: m' => if k =? k' then Ok v' else map_at k m'
  end.

(** ** The methods *)

(** The empty container: [head_] is one sentinel. *)
Definition empty : SkipList :=
  mkSkipList [mkNode None None None] (Some 0%nat).

(** [chose_level], over the draws [rand(0, factor)] returned: the number
    of draws equal to 0 before the first other one.  [None] when the draws
    given end before that. *)
Definition factor : Z := 4.

Fixpoint chose_level (draws : list Z) (level : Z) : option Z :=
  match draws with
  | [] => None
  | d :: rest => if d =? 0 then chose_level rest (level + 1) else Some level
  end.

Fixpoint height_loop (fuel : nat) (h : list Node) (height : Z) (cur : ptr)
  : result Z :=
  match fuel with
  | O => Throw Diverges
  | S fuel' =>
      n ← deref h cur;
      match down n with
      | Some _ => height_loop fuel' h (height + 1) (down n)
      | None => Ok height
      end
  end.

Definition height (s : SkipList) : result Z :=
  height_loop (fuel_of (heap s)) (heap s) 1 (head_ s).

(** The inner loop of [traverse]. *)
Fixpoint seek (fuel : nat) (h : list Node) (v : Z) (pre cur : ptr)
  : result (ptr * ptr) :=
  match fuel with
  | O => Throw Diverges
  | S fuel' =>
      match cur with
      | None => Ok (pre, cur)
      | Some _ =>
          n ← deref h cur;
          x ← get (value n);
          if x <? v then seek fuel' h v cur (right n) else Ok (pre, cur)
      end
  end.

(** The outer loop of [traverse]; it returns the three variables the code
    has when the loop ends. *)
Fixpoint descend (fuel : nat) (h : list Node) (v : Z) (level : Z)
    (tracked : tracked_map) (pre : ptr) : result (ptr * Z * tracked_map) :=
  match fuel with
  | O => Throw Diverges
  | S fuel' =>
      match pre with
      | None => Ok (pre, level, tracked)
      | Some _ =>
          n ← deref h pre;
          '(pre', cur) ← seek (fuel_of h) h v pre (right n);
          n' ← deref h pre';
          descend fuel' h v (level - 1) (map_set level (pre', cur) tracked)
            (down n')
      end
  end.

Definition traverse_loop (v : Z) (s : SkipList)
  : result (ptr * Z * tracked_map) :=
  ht ← height s;
  descend (fuel_of (heap s)) (heap s) v (ht - 1) [] (head_ s).

Definition traverse (v : Z) (s : SkipList) : result tracked_map :=
  '(pre, level, tracked) ← traverse_loop v s;
  check (bool_decide (pre = None));;
  check (level =? -1);;
  Ok tracked.

Definition find (v : Z) (s : SkipList) : result bool :=
  tracked ← traverse v s;
  '(_, cur) ← map_at 0 tracked;
  match cur with
  | None => Ok false
  | Some _ =>
      n ← deref (heap s) cur;
      x ← get (value n);
      Ok (x =? v)
  end.

(** [cur == nullptr || *cur->value != value], the test [remove] makes
    twice. *)
Definition no_match (h : list Node) (v : Z) (cur : ptr) : result bool :=
  match cur with
  | None => Ok true
  | Some _ =>
      n ← deref h cur;
      x ← get (value n);
      Ok (negb (x =? v))
  end.

Fixpoint iter_down (fuel : nat) (h : list Node) (row : ptr) : result ptr :=
  match fuel with
  | O => Throw Diverges
  | S fuel' =>
      n ← deref h row;
      match down n with
      | Some _ => iter_down fuel' h (down n)
      | None => Ok row
      end
  end.

Fixpoint iter_right (fuel : nat) (h : list Node) (cur : ptr)
  : result (list Z) :=
  match fuel with
  | O => Throw Diverges
  | S fuel' =>
      match cur with
      | None => Ok []
      | Some _ =>
          n ← deref h cur;
          x ← get (value n);
          rest ← iter_right fuel' h (right n);
          Ok (x :: rest)
      end
  end.

(** [iter]: the values the generator yields, in order. *)
Definition iter (s : SkipList) : result (list Z) :=
  row ← iter_down (fuel_of (heap s)) (heap s) (head_ s);
  n ← deref (heap s) row;
  iter_right (fuel_of (heap s)) (heap s) (right n).

(** *** Methods that change the container

    They return the result of the call together with the container as the
    call leaves it, also when it throws. *)
Definition action (A : Type) := SkipList → result A * SkipList.

#[global] Instance action_ret : MRet action := λ A a s, (Ok a, s).
#[global] Instance action_bind : MBind action := λ A B f m s,
  match m s with
  | (Ok a, s') => f a s'
  | (Throw e, s') => (Throw e, s')
  end.

(** A call that only reads. *)
Definition reads {A} (f : SkipList → result A) : action A := λ s, (f s, s).
Definition pure {A} (r : result A) : action A := λ s, (r, s).
Definition put_heap (h : list Node) : action unit :=
  λ s, (Ok (), mkSkipList h (head_ s)).
Definition put_head (p : ptr) : action unit :=
  λ s, (Ok (), mkSkipList (heap s) p).

(** [make_shared] on the store of the container. *)
Definition alloc (n : Node) : action ptr := λ s,
  let '(p, h) := make_shared n (heap s) in
  (Ok p, mkSkipList h (head_ s)).

(** [head_ = make_shared<NT>(nullopt, head_, nullptr)] *)
Definition push_sentinel : action unit :=
  top ← reads (λ s, Ok (head_ s));
  p ← alloc (mkNode None top None);
  put_head p.

Fixpoint for_each {A} (xs : list A) (body : A → action unit) : action unit :=
  match xs with
  | [] => mret ()
  | x :: rest => body x;; for_each rest body
  end.

(** [std::ranges::views::iota(lo, hi)] *)
Definition iota (lo hi : Z) : list Z := seqZ lo (hi - lo).

Definition ensure_height (expected : Z) : action unit :=
  pure (check (0 <? expected));;
  current ← reads height;
  if expected <=? current then mret ()
  else for_each (iota current expected) (λ _, push_sentinel).

(** The loop of [add]; [dn] is the variable [down]. *)
Fixpoint add_loop (idxs : list Z) (tracked : tracked_map) (v : Z) (dn : ptr)
  : action unit :=
  match idxs with
  | [] => mret ()
  | idx :: rest =>
      '(pre, nex) ← pure (map_at idx tracked);
      node ← alloc (mkNode (Some v) dn nex);
      h ← reads (λ s, set_right (heap s) pre node);
      put_heap h;;
      add_loop rest tracked v node
  end.

(** [add(value)], given the level [chose_level] returned. *)
Definition add (level : Z) (v : Z) : action unit :=
  let half := level + 1 in
  ensure_height half;;
  tracked ← reads (traverse v);
  add_loop (iota 0 half) tracked v None.

(** The loop of [clean_head]. *)
Fixpoint clean_head_loop (fuel : nat) : action unit :=
  match fuel with
  | O => pure (Throw Diverges)
  | S fuel' =>
      n ← reads (λ s, deref (heap s) (head_ s));
      match right n, down n with
      | None, Some _ => put_head (down n);; clean_head_loop fuel'
      | _, _ => mret ()
      end
  end.

Definition clean_head : action unit :=
  λ s, clean_head_loop (fuel_of (heap s)) s.

(** The body of the loop of [remove] over the bindings of [tracked]. *)
Definition unlink (v : Z) (record : Z * (ptr * ptr)) : action unit :=
  let '(_, (pre, cur)) := record in
  skip ← reads (λ s, no_match (heap s) v cur);
  if (skip : bool) then mret ()
  else
    c ← reads (λ s, deref (heap s) cur);
    h ← reads (λ s, set_right (heap s) pre (right c));
    put_heap h.

Definition remove (v : Z) : action unit :=
  tracked ← reads (traverse v);
  '(_, cur) ← pure (map_at 0 tracked);
  absent ← reads (λ s, no_match (heap s) v cur);
  (if (absent : bool) then pure (Throw NoSuchValue) else mret ());;
  for_each tracked (unlink v);;
  clean_head.

(** The constructor from a range: the items come with the level
    [chose_level] returns in the [add] of each. *)
Definition construct (items : list (nat * Z)) : result unit * SkipList :=
  for_each items (λ '(level, item), add (Z.of_nat level) item) empty.

(** ** Sequences of calls *)

(** A call of [add] comes with the level [chose_level] returned for it. *)
Inductive call :=
  | Add (level : nat) (v : Z)
  | Remove (v : Z).

Definition exec (c : call) : action unit :=
  match c with
  | Add level v => add (Z.of_nat level) v
  | Remove v => remove v
  end.

(** The calls are made one after the other, whatever each one ends with;
    the results are kept in order. *)
Fixpoint run (cs : list call) (s : SkipList) : list (result unit) * SkipList :=
  match cs with
  | [] => ([], s)
  | c :: cs' =>
      let '(r, s1) := exec c s in
      let '(rs, s2) := run cs' s1 in
      (r :: rs, s2)
  end.

(** The container a sequence of calls leaves, starting from the empty
    one. *)
Definition after (cs : list call) : SkipList := (run cs empty).2.

Fixpoint added (cs : list call) : list Z :=
  match cs with
  | [] => []
  | Add _ v :: cs' => v :: added cs'
  | Remove _ :: cs' => added cs'
  end.

(** The values of the [remove] calls that returned normally. *)
Fixpoint removed (cs : list call) (rs : list (result unit)) : list Z :=
  match cs, rs with
  | Remove v :: cs', Ok _ :: rs' => v :: removed cs' rs'
  | _ :: cs', _ :: rs' => removed cs' rs'
  | _, _ => []
  end.

(** ** The layout of a well-formed container *)

(** A node that carries a value, without its [right] link, which the
    order of the nodes of a level gives. *)
Record cell := mkCell {
  c_addr : nat;
  c_val : Z;
  c_down : ptr
}.

(** A level: its sentinel, the [down] link of the sentinel, and the nodes
    after it. *)
Record row := mkRow {
  r_hd : nat;
  r_dn : ptr;
  r_cells : list cell
}.

Definition entry := (nat * (option Z * ptr))%type.

Definition cell_entry (c : cell) : entry :=
  (c_addr c, (Some (c_val c), c_down c)).

Definition entries (r : row) : list entry :=
  (r_hd r, (None, r_dn r)) :: (cell_entry <$> r_cells r).

Definition first_or (es : list entry) (e : ptr) : ptr :=
  match es with
  | [] => e
  | x :: _ => Some x.1
  end.

(** The store holds the nodes [es], linked by [right] in this order, the
    last one to [e]. *)
Fixpoint seg (h : list Node) (es : list entry) (e : ptr) : Prop :=
  match es with
  | [] => True
  | x :: es' =>
      h !! x.1 = Some (mkNode x.2.1 x.2.2 (first_or es' e)) ∧ seg h es' e
  end.

Definition row_at (h : list Node) (r : row) : Prop :=
  seg h (entries r) None.

Definition row_addrs (r : row) : list nat := (entries r).*1.

Definition addrs (rs : list row) : list nat := rs ≫= row_addrs.

Definition vals (r : row) : list Z := c_val <$> r_cells r.

Definition cell_addrs (r : row) : list nat := c_addr <$> r_cells r.

(** The nodes below [v], and the others. *)
Definition lows (v : Z) (cs : list cell) : list cell :=
  filter (λ c, c_val c < v) cs.

Definition highs (v : Z) (cs : list cell) : list cell :=
  filter (λ c, v ≤ c_val c) cs.

Definition first (cs : list cell) : ptr := c_addr <$> head cs.

(** The address of the last node of the sentinel [hd] followed by [cs],
    and the [down] link of that node. *)
Definition last_addr (hd : nat) (cs : list cell) : nat :=
  default hd (c_addr <$> last cs).

Definition last_down (dn : ptr) (cs : list cell) : ptr :=
  from_option c_down dn (last cs).

(** The last node of a level that is below [v]. *)
Definition pre_addr (v : Z) (r : row) : nat :=
  last_addr (r_hd r) (lows v (r_cells r)).

(** Whether the first node not below [v] holds [v]. *)
Definition holds (v : Z) (cs : list cell) : bool :=
  match highs v cs with
  | c :: _ => c_val c =? v
  | [] => false
  end.

(** What [traverse] records for the levels [rs], the lowest being level
    [i]. *)
Fixpoint tracked_of (v : Z) (i : Z) (rs : list row) : tracked_map :=
  match rs with
  | [] => []
  | r :: rs' =>
      (i, (Some (pre_addr v r), first (highs v (r_cells r))))
        :: tracked_of v (i + 1) rs'
  end.

(** What a pointer of a level above stands for, and what a node of the
    level below offers. *)
Definition down_image (c : cell) : ptr * Z := (c_down c, c_val c).
Definition self_image (c : cell) : ptr * Z := (Some (c_addr c), c_val c).

Record wf_order (rs : list row) : Prop := {
  wf_nonempty : rs ≠ [];
  wf_sorted : ∀ r, r ∈ rs → StronglySorted Z.le (vals r);
  wf_bottom : ∀ r, rs !! 0%nat = Some r →
    r_dn r = None ∧ Forall (λ c, c_down c = None) (r_cells r);
  wf_above : ∀ i lo up, rs !! i = Some lo → rs !! S i = Some up →
    r_dn up = Some (r_hd lo) ∧
    sublist (down_image <$> r_cells up) (self_image <$> r_cells lo)
}.

(** The container [s] has the levels [rs], from level 0 upwards. *)
Record repr (s : SkipList) (rs : list row) : Prop := {
  repr_rows : Forall (row_at (heap s)) rs;
  repr_nodup : NoDup (addrs rs);
  repr_order : wf_order rs;
  repr_head : head_ s = r_hd <$> last rs
}.

(** The levels after [add] put a node for [v] at address [a], with [down]
    link [dn], at the lowest level, and so on for [k] levels. *)
Definition ins (v : Z) (a : nat) (dn : ptr) (r : row) : row :=
  mkRow (r_hd r) (r_dn r)
    (lows v (r_cells r) ++ mkCell a v dn :: highs v (r_cells r)).

Fixpoint ins_rows (v : Z) (a : nat) (dn : ptr) (k : nat) (rs : list row)
  : list row :=
  match k, rs with
  | S k', r :: rs' => ins v a dn r :: ins_rows v (S a) (Some a) k' rs'
  | _, _ => rs
  end.

(** The sentinels [ensure_height] pushes on top of a column whose top is
    [top], from address [a] on. *)
Fixpoint sentinels (a : nat) (top : ptr) (k : nat) : list row :=
  match k with
  | O => []
  | S k' => mkRow a top [] :: sentinels (S a) (Some a) k'
  end.

(** A level after [remove] unlinked its first node equal to [v], if it
    has one. *)
Definition del_first (v : Z) (cs : list cell) : list cell :=
  match cs with
  | c :: cs' => if c_val c =? v then cs' else cs
  | [] => []
  end.

Definition del (v : Z) (r : row) : row :=
  mkRow (r_hd r) (r_dn r) (lows v (r_cells r) ++ del_first v (highs v (r_cells r))).

(** The levels [clean_head] leaves, given from the top downwards. *)
Fixpoint trim_top (rs : list row) : list row :=
  match rs with
  | r :: (_ :: _) as rs' =>
      match r_cells r with
      | [] => trim_top rs'
      | _ => rs
      end
  | _ => rs
  end.

Definition trim (rs : list row) : list row :=
  reverse (trim_top (reverse rs)).

(** The container [s] is well formed and its lowest level holds the values
    [l], in this order. *)
Definition stores (s : SkipList) (l : list Z) : Prop :=
  ∃ rs r0, repr s rs ∧ rs !! 0%nat = Some r0 ∧ vals r0 = l.

(** Constructing from a range as the specification words it: on an empty
    container, one [add] per element, in order. *)
Definition adds_in_order (items : list (nat * Z)) : SkipList :=
  foldl (λ s '(level, item), (add (Z.of_nat level) item s).2) empty items.

(** ** What a walk from [head_] sees *)

(** The sentinels, from [head_] downwards. *)
Fixpoint column (fuel : nat) (h : list Node) (p : ptr) : result (list nat) :=
  match fuel with
  | O => Throw Diverges
  | S fuel' =>
      match p with
      | None => Ok []
      | Some a =>
          n ← deref h p;
          rest ← column fuel' h (down n);
          Ok (a :: rest)
      end
  end.

(** The nodes from [p] on, following [right]. *)
Fixpoint chain (fuel : nat) (h : list Node) (p : ptr) : result (list nat) :=
  match fuel with
  | O => Throw Diverges
  | S fuel' =>
      match p with
      | None => Ok []
      | Some a =>
          n ← deref h p;
          rest ← chain fuel' h (right n);
          Ok (a :: rest)
      end
  end.

Fixpoint collect {A B} (f : A → result B) (xs : list A) : result (list B) :=
  match xs with
  | [] => Ok []
  | x :: rest => y ← f x; ys ← collect f rest; Ok (y :: ys)
  end.

(** The nodes after the sentinel at [a]. *)
Definition level_of (h : list Node) (a : nat) : result (list nat) :=
  n ← deref h (Some a);
  chain (fuel_of h) h (right n).

(** The nodes of every level, level 0 first. *)
Definition levels (s : SkipList) : result (list (list nat)) :=
  col ← column (fuel_of (heap s)) (heap s) (head_ s);
  collect (level_of (heap s)) (reverse col).

(** The nodes linked into some level. *)
Definition linked (s : SkipList) : list nat :=
  match levels s with
  | Ok ls => mjoin ls
  | Throw _ => []
  end.

(** The value a node holds. *)
Definition value_at (h : list Node) (a : nat) : option Z :=
  n ← h !! a; value n.

(** The nodes a walk from [head_] can come to. *)
Inductive reach (s : SkipList) : nat → Prop :=
  | reach_head a : head_ s = Some a → reach s a
  | reach_down a n b :
      reach s a → heap s !! a = Some n → down n = Some b → reach s b
  | reach_right a n b :
      reach s a → heap s !! a = Some n → right n = Some b → reach s b.

(** From [p], the sentinels [path] each have no [right] neighbour and a
    level below, and lead down to [q]. *)
Fixpoint popped (h : list Node) (p : ptr) (path : list nat) (q : ptr) : Prop :=
  match path with
  | [] => p = q
  | a :: path' =>
      p = Some a ∧
      ∃ n, h !! a = Some n ∧ right n = None ∧ is_Some (down n) ∧
           popped h (down n) path' q
  end.

(** ** Positions of nodes within a level, and insertions *)




(** The nodes linked in [s'] that were not linked in [s]. *)
Definition created (s s' : SkipList) : list nat :=
  filter (λ a, a ∉ linked s) (linked s').

(** The nodes [nodes] are all linked in [s], or none of them is. *)
Definition intact (nodes : list nat) (s : SkipList) : Prop :=
  (∀ a, a ∈ nodes → a ∈ linked s) ∨ (∀ a, a ∈ nodes → a ∉ linked s).

(** The nodes the call [Add level v] created after the calls [cs1] are
    still all linked, or all unlinked, after the further calls [cs2]. *)
Definition chain_whole (cs1 : list call) (level : nat) (v : Z)
    (cs2 : list call) : Prop :=
  intact (created (after cs1) (after (cs1 ++ [Add level v])))
         (after (cs1 ++ Add level v :: cs2)).

(** A level without its first node that holds [v]. *)
Fixpoint unlink_first (h : list Node) (v : Z) (l : list nat) : list nat :=
  match l with
  | [] => []
  | a :: l' =>
      if decide (value_at h a = Some v) then l' else a :: unlink_first h v l'
  end.

(** The levels without the empty ones on top, the lowest one apart; the
    levels are given from the top downwards. *)
Fixpoint strip_top (ls : list (list nat)) : list (list nat) :=
  match ls with
  | [] :: (_ :: _) as ls' => strip_top ls'
  | _ => ls
  end.

Definition strip (ls : list (list nat)) : list (list nat) :=
  reverse (strip_top (reverse ls)).

(** ** A sorted list as reference *)

(** [v] put before the first value that is not below it. *)
Fixpoint insert_sorted (v : Z) (l : list Z) : list Z :=
  match l with
  | [] => [v]
  | x :: l' => if x <? v then x :: insert_sorted v l' else v :: l
  end.

(** [l] without its first [v], if it has one. *)
Fixpoint remove_first (v : Z) (l : list Z) : option (list Z) :=
  match l with
  | [] => None
  | x :: l' => if x =? v then Some l' else (x ::.) <$> remove_first v l'
  end.

(** The results of the calls [cs] and the values left, on a sorted list
    that holds [l]. *)
Fixpoint reference (cs : list call) (l : list Z)
  : list (result unit) * list Z :=
  match cs with
  | [] => ([], l)
  | Add _ v :: cs' =>
      let '(rs, l') := reference cs' (insert_sorted v l) in (Ok () :: rs, l')
  | Remove v :: cs' =>
      match remove_first v l with
      | Some l1 => let '(rs, l') := reference cs' l1 in (Ok () :: rs, l')
      | None =>
          let '(rs, l') := reference cs' l in (Throw NoSuchValue :: rs, l')
      end
  end.

(** The calls with the levels the insertions drew set to 0. *)
Definition forget_levels (cs : list call) : list call :=
  (λ c, match c with
        | Add _ v => Add 0 v
        | Remove v => Remove v
        end) <$> cs.

(** ** What a call leaves of the store *)

(** Every cell of the store of [s] is a cell of the store of [s'], with
    the value and the [down] link it had.  This is a relation on the
    stores of the model, where a node no pointer leads to stays. *)
Definition keeps (s s' : SkipList) : Prop :=
  (length (heap s) ≤ length (heap s'))%nat ∧
  ∀ a n, heap s !! a = Some n →
    ∃ n', heap s' !! a = Some n' ∧ value n' = value n ∧ down n' = down n.

(** The [down] link of a node. *)
Definition down_at (h : list Node) (a : nat) : option ptr :=
  down <$> h !! a.

(** What a node of a level offers to the level above, and what a node
    asks of the level below, read from the store. *)
Definition offers (h : list Node) (a : nat) : option ptr * option Z :=
  (Some (Some a), value_at h a).

Definition asks (h : list Node) (a : nat) : option ptr * option Z :=
  (down_at h a, value_at h a).

(** The top level holds a node, or it is the only level. *)
Definition tight (rs : list row) : Prop :=
  length rs = 1%nat ∨ ∃ top, last rs = Some top ∧ r_cells top ≠ [].

(** ** The nodes of a container *)

(** The nodes the container links: the sentinels of the head column and
    the nodes of every level.  These are the nodes the program keeps
    alive. *)
Definition nodes (s : SkipList) : list nat :=
  match column (fuel_of (heap s)) (heap s) (head_ s), levels s with
  | Ok col, Ok ls => col ++ mjoin ls
  | _, _ => []
  end.

(** ** The levels [chose_level] can return *)

Lemma chose_level_from draws k level :
  chose_level draws k = Some level → ∃ n : nat, level = k + Z.of_nat n.
Proof.
  revert k. induction draws as [|d draws IH]; intros k; simpl; [done|].
  destruct (d =? 0).
  - intros (n & ->)%IH. exists (S n). lia.
  - intros [= <-]. exists 0%nat. lia.
Qed.

Lemma chose_level_zeros (n : nat) k :
  chose_level (replicate n 0 ++ [1]) k = Some (k + Z.of_nat n).
Proof.
  revert k. induction n as [|n IH]; intros k; simpl.
  - f_equal. lia.
  - rewrite IH. f_equal. lia.
Qed.

(** Every level is drawn by some draws in [[0, factor)], and only levels
    that are natural numbers are. *)
Lemma chose_level_nat (level : Z) :
  (∃ draws, Forall (λ d, 0 ≤ d < factor) draws ∧
            chose_level draws 0 = Some level)
  ↔ ∃ n : nat, level = Z.of_nat n.
Proof.
  split.
  - intros (draws & _ & (n & ->)%chose_level_from). by exists n.
  - intros (n & ->). exists (replicate n 0 ++ [1]). split.
    + apply Forall_app. split; [|by repeat constructor].
      apply Forall_replicate. unfold factor. lia.
    + by rewrite chose_level_zeros.
Qed.

(** ** Segments of the store *)

Lemma first_or_app (l1 l2 : list entry) e :
  first_or (l1 ++ l2) e = first_or l1 (first_or l2 e).
Proof. by destruct l1. Qed.

Lemma seg_app h (l1 l2 : list entry) e :
  seg h (l1 ++ l2) e ↔ seg h l1 (first_or l2 e) ∧ seg h l2 e.
Proof.
  induction l1 as [|x l1 IH]; simpl.
  - tauto.
  - rewrite IH, first_or_app. tauto.
Qed.

Lemma seg_frame h h' (es : list entry) e :
  (∀ a, a ∈ es.*1 → h' !! a = h !! a) → seg h es e → seg h' es e.
Proof.
  induction es as [|x es IH]; simpl; [done|].
  intros Hsame [Hx Hes]. split.
  - rewrite Hsame; [done|]. apply list_elem_of_here.
  - apply IH; [|done]. intros a Ha. apply Hsame. by apply list_elem_of_further.
Qed.

Lemma seg_bound h (es : list entry) e a :
  seg h es e → a ∈ es.*1 → (a < length h)%nat.
Proof.
  induction es as [|x es IH]; simpl.
  - intros _ Ha. by apply elem_of_nil in Ha.
  - intros [Hx Hes] Ha. apply elem_of_cons in Ha as [->|Ha].
    + by eapply lookup_lt_Some.
    + by apply IH.
Qed.

Lemma seg_alloc h n (es : list entry) e :
  seg h es e → seg (h ++ [n]) es e.
Proof.
  intros Hseg. eapply seg_frame; [|done].
  intros a Ha. apply lookup_app_l. by eapply seg_bound.
Qed.

Lemma seg_insert_other h a n (es : list entry) e :
  a ∉ es.*1 → seg h es e → seg (<[a := n]> h) es e.
Proof.
  intros Ha. apply seg_frame. intros b Hb.
  apply list_lookup_insert_ne. intros ->. done.
Qed.

(** Redirecting the [right] link of the last node of a segment. *)
Lemma seg_set_last h (es : list entry) x e e' :
  NoDup (es ++ [x]).*1 →
  seg h (es ++ [x]) e →
  seg (<[x.1 := mkNode x.2.1 x.2.2 e']> h) (es ++ [x]) e'.
Proof.
  rewrite fmap_app, NoDup_app. simpl.
  intros (_ & Hdisj & _) [Hes [Hx _]]%seg_app.
  apply seg_app. simpl in *. split; [|split; [|done]].
  - apply seg_insert_other; [|done].
    intros Hin. apply (Hdisj _ Hin). apply list_elem_of_here.
  - apply list_lookup_insert_eq. by eapply lookup_lt_Some.
Qed.

(** ** The monads *)

Lemma bind_Ok {A B} (a : A) (f : A → result B) : Ok a ≫= f = f a.
Proof. done. Qed.

Lemma bind_Throw {A B} e (f : A → result B) : Throw e ≫= f = Throw e.
Proof. done. Qed.

Lemma deref_Some h a n : h !! a = Some n → deref h (Some a) = Ok n.
Proof. intros H. unfold deref. by rewrite H. Qed.

(** ** Rows *)

Lemma NoDup_bounded_length (l : list nat) (n : nat) :
  NoDup l → (∀ a, a ∈ l → (a < n)%nat) → (length l ≤ n)%nat.
Proof.
  intros Hnd Hlt.
  assert (l ⊆+ seq 0 n) as Hsub.
  { apply NoDup_submseteq; [done|]. intros a Ha. apply elem_of_seq.
    specialize (Hlt a Ha). lia. }
  apply submseteq_length in Hsub. by rewrite length_seq in Hsub.
Qed.

Lemma first_or_cells (cs : list cell) :
  first_or (cell_entry <$> cs) None = first cs.
Proof. by destruct cs. Qed.

Lemma row_at_unfold h r :
  row_at h r ↔
    h !! r_hd r = Some (mkNode None (r_dn r) (first (r_cells r))) ∧
    seg h (cell_entry <$> r_cells r) None.
Proof. unfold row_at, entries. simpl. by rewrite first_or_cells. Qed.

Lemma node_at_last h r cs1 cs2 :
  row_at h r → r_cells r = cs1 ++ cs2 →
  h !! last_addr (r_hd r) cs1
    = Some (mkNode (c_val <$> last cs1) (last_down (r_dn r) cs1) (first cs2)) ∧
  seg h (cell_entry <$> cs2) None.
Proof.
  intros [Hhd Hcs]%row_at_unfold Heq. rewrite Heq in Hhd, Hcs.
  rewrite fmap_app in Hcs. apply seg_app in Hcs as [H1 H2].
  rewrite first_or_cells in H1.
  destruct (decide (cs1 = [])) as [->|Hne].
  - split; [|done]. done.
  - apply last_is_Some in Hne as [c Hc].
    pose proof Hc as [l ->]%last_Some.
    unfold last_addr, last_down. rewrite Hc. simpl.
    rewrite fmap_app in H1. apply seg_app in H1 as [_ [H1 _]]. simpl in H1.
    split; [|done]. done.
Qed.

Lemma cell_lookup h r cs1 c cs2 :
  row_at h r → r_cells r = cs1 ++ c :: cs2 →
  h !! c_addr c = Some (mkNode (Some (c_val c)) (c_down c) (first cs2)).
Proof.
  intros Hrow Hcs.
  destruct (node_at_last h r (cs1 ++ [c]) cs2 Hrow) as [Hn _].
  { by rewrite <-app_assoc. }
  unfold last_addr, last_down in Hn. by rewrite last_snoc in Hn.
Qed.

(** ** Sorted levels split at a value *)

Lemma lows_all v (cs : list cell) : Forall (λ c, c_val c < v) (lows v cs).
Proof. apply Forall_forall. intros c Hc. by apply list_elem_of_filter in Hc as [? _]. Qed.

Lemma highs_all v (cs : list cell) : Forall (λ c, v ≤ c_val c) (highs v cs).
Proof. apply Forall_forall. intros c Hc. by apply list_elem_of_filter in Hc as [? _]. Qed.

Lemma lows_app v (cs1 cs2 : list cell) : lows v (cs1 ++ cs2) = lows v cs1 ++ lows v cs2.
Proof. apply filter_app. Qed.

Lemma highs_app v (cs1 cs2 : list cell) : highs v (cs1 ++ cs2) = highs v cs1 ++ highs v cs2.
Proof. apply filter_app. Qed.

Lemma lows_id v (cs : list cell) : Forall (λ c, c_val c < v) cs → lows v cs = cs.
Proof.
  unfold lows. induction 1 as [|c cs Hc _ IH]; [done|].
  by rewrite filter_cons_True, IH.
Qed.

Lemma lows_nil v (cs : list cell) : Forall (λ c, v ≤ c_val c) cs → lows v cs = [].
Proof.
  unfold lows. induction 1 as [|c cs Hc _ IH]; [done|].
  rewrite filter_cons_False; [done|lia].
Qed.

Lemma highs_id v (cs : list cell) : Forall (λ c, v ≤ c_val c) cs → highs v cs = cs.
Proof.
  unfold highs. induction 1 as [|c cs Hc _ IH]; [done|].
  by rewrite filter_cons_True, IH.
Qed.

Lemma highs_nil v (cs : list cell) : Forall (λ c, c_val c < v) cs → highs v cs = [].
Proof.
  unfold highs. induction 1 as [|c cs Hc _ IH]; [done|].
  rewrite filter_cons_False; [done|lia].
Qed.

Lemma lows_highs_sorted v (cs : list cell) :
  StronglySorted Z.le (c_val <$> cs) → cs = lows v cs ++ highs v cs.
Proof.
  induction cs as [|c cs IH]; [done|].
  rewrite fmap_cons. intros [Hcs Hall]%StronglySorted_inv.
  rewrite Forall_fmap in Hall.
  destruct (decide (c_val c < v)) as [Hlt|Hge].
  - unfold lows, highs. rewrite filter_cons_True by done.
    rewrite filter_cons_False by lia. simpl. f_equal. by apply IH.
  - assert (Forall (λ c, v ≤ c_val c) (c :: cs)) as Hhi.
    { constructor; [lia|]. eapply Forall_impl; [done|]. simpl. intros; lia. }
    by rewrite (lows_nil _ _ Hhi), (highs_id _ _ Hhi).
Qed.

(** ** The inner loop of [traverse] *)

Lemma first_cons c (cs : list cell) : first (c :: cs) = Some (c_addr c).
Proof. done. Qed.

Lemma seg_cells_cons h c (cs : list cell) e :
  seg h (cell_entry <$> (c :: cs)) e ↔
    h !! c_addr c = Some (mkNode (Some (c_val c)) (c_down c)
                            (first_or (cell_entry <$> cs) e)) ∧
    seg h (cell_entry <$> cs) e.
Proof. done. Qed.

Lemma seek_spec h v (cs1 cs2 : list cell) pre fuel :
  seg h (cell_entry <$> (cs1 ++ cs2)) None →
  Forall (λ c, c_val c < v) cs1 →
  Forall (λ c, v ≤ c_val c) cs2 →
  (length cs1 < fuel)%nat →
  seek fuel h v (Some pre) (first (cs1 ++ cs2))
    = Ok (Some (last_addr pre cs1), first cs2).
Proof.
  revert pre fuel. induction cs1 as [|c cs1 IH]; intros pre fuel Hseg H1 H2 Hfuel.
  - destruct fuel as [|fuel]; [simpl in Hfuel; lia|].
    destruct cs2 as [|c cs2]; [done|].
    rewrite app_nil_l in *.
    destruct (proj1 (seg_cells_cons _ _ _ _) Hseg) as [Hc _].
    apply Forall_cons in H2 as [Hv _].
    rewrite first_cons. simpl. rewrite Hc. simpl.
    by rewrite (proj2 (Z.ltb_ge _ _) Hv).
  - destruct fuel as [|fuel]; [simpl in Hfuel; lia|].
    rewrite <-app_comm_cons in *.
    destruct (proj1 (seg_cells_cons _ _ _ _) Hseg) as [Hc Hseg'].
    apply Forall_cons in H1 as [Hv H1].
    rewrite first_cons. simpl seek. rewrite Hc. simpl.
    rewrite (proj2 (Z.ltb_lt _ _) Hv).
    rewrite first_or_cells.
    rewrite IH by (done || simpl in Hfuel; lia). do 3 f_equal.
    unfold last_addr. rewrite last_cons. by destruct (last cs1).
Qed.

(** ** The column of sentinels *)

Section column.
Context (h : list Node) (rs : list row).
Hypothesis Hrows : Forall (row_at h) rs.
Hypothesis Hwf : wf_order rs.

Lemma row_lookup i r : rs !! i = Some r → row_at h r.
Proof. intros Hr. eapply Forall_lookup_1 in Hrows; done. Qed.

Lemma sentinel_lookup i r :
  rs !! i = Some r →
  h !! r_hd r = Some (mkNode None (r_dn r) (first (r_cells r))).
Proof. intros Hr%row_lookup. by apply row_at_unfold in Hr as [? _]. Qed.

Lemma sentinel_down i r :
  rs !! i = Some r →
  r_dn r = match i with O => None | S j => r_hd <$> rs !! j end.
Proof.
  intros Hr. destruct i as [|j].
  - by apply (wf_bottom _ Hwf).
  - destruct (rs !! j) as [lo|] eqn:Hlo.
    + by apply (wf_above _ Hwf j lo r).
    + apply lookup_ge_None in Hlo. apply lookup_lt_Some in Hr. lia.
Qed.

Lemma height_loop_spec i r k fuel :
  rs !! i = Some r → (i < fuel)%nat →
  height_loop fuel h k (Some (r_hd r)) = Ok (k + Z.of_nat i).
Proof.
  revert r k fuel. induction i as [|j IH]; intros r k fuel Hr Hfuel;
    (destruct fuel as [|fuel]; [lia|]); simpl;
    rewrite (sentinel_lookup _ _ Hr); simpl;
    rewrite (sentinel_down _ _ Hr).
  - f_equal. lia.
  - destruct (rs !! j) as [lo|] eqn:Hlo.
    + simpl. rewrite (IH lo) by (done || lia). f_equal. lia.
    + apply lookup_ge_None in Hlo. apply lookup_lt_Some in Hr. lia.
Qed.

Lemma iter_down_spec i r fuel :
  rs !! i = Some r → (i < fuel)%nat →
  iter_down fuel h (Some (r_hd r)) = Ok (r_hd <$> rs !! 0%nat).
Proof.
  revert r fuel. induction i as [|j IH]; intros r fuel Hr Hfuel;
    (destruct fuel as [|fuel]; [lia|]); simpl;
    rewrite (sentinel_lookup _ _ Hr); simpl;
    rewrite (sentinel_down _ _ Hr).
  - by rewrite Hr.
  - destruct (rs !! j) as [lo|] eqn:Hlo.
    + simpl. by rewrite (IH lo) by (done || lia).
    + apply lookup_ge_None in Hlo. apply lookup_lt_Some in Hr. lia.
Qed.
End column.

Lemma iter_right_spec h (cs : list cell) fuel :
  seg h (cell_entry <$> cs) None → (length cs < fuel)%nat →
  iter_right fuel h (first cs) = Ok (c_val <$> cs).
Proof.
  revert fuel. induction cs as [|c cs IH]; intros fuel Hseg Hfuel;
    (destruct fuel as [|fuel]; [simpl in Hfuel; lia|]); simpl; [done|].
  destruct Hseg as [Hc Hseg]. simpl in *. rewrite Hc. simpl.
  rewrite first_or_cells, IH by (done || lia). done.
Qed.

(** ** Addresses *)

Lemma row_addrs_unfold r : row_addrs r = r_hd r :: (c_addr <$> r_cells r).
Proof.
  unfold row_addrs, entries. rewrite fmap_cons, <-list_fmap_compose. done.
Qed.

Lemma addrs_lookup (rs : list row) i r a :
  rs !! i = Some r → a ∈ row_addrs r → a ∈ addrs rs.
Proof.
  intros Hr Ha. unfold addrs. apply list_elem_of_bind. exists r.
  split; [done|]. by eapply list_elem_of_lookup_2.
Qed.

Lemma row_NoDup (rs : list row) i r :
  NoDup (addrs rs) → rs !! i = Some r → NoDup (row_addrs r).
Proof.
  intros Hnd Hr. apply list_elem_of_split_length in Hr as (l1 & l2 & -> & _).
  unfold addrs in Hnd. rewrite bind_app, bind_cons in Hnd.
  apply NoDup_app in Hnd as (_ & _ & Hnd).
  by apply NoDup_app in Hnd as (Hnd & _).
Qed.

Lemma row_at_bound h r a : row_at h r → a ∈ row_addrs r → (a < length h)%nat.
Proof. intros Hr Ha. by eapply seg_bound. Qed.

Lemma row_cells_length h r :
  row_at h r → NoDup (row_addrs r) → (S (length (r_cells r)) ≤ length h)%nat.
Proof.
  intros Hr Hnd.
  assert (length (row_addrs r) ≤ length h)%nat as Hlen.
  { apply NoDup_bounded_length; [done|]. intros a. by apply row_at_bound. }
  rewrite row_addrs_unfold in Hlen. simpl in Hlen.
  by rewrite length_fmap in Hlen.
Qed.

Lemma rows_length h (rs : list row) :
  Forall (row_at h) rs → NoDup (addrs rs) → (length rs ≤ length h)%nat.
Proof.
  intros Hrows Hnd.
  assert (NoDup (r_hd <$> rs)) as Hhd.
  { eapply sublist_NoDup; [exact Hnd|].
    unfold addrs. clear. induction rs as [|r rs IH]; [done|].
    rewrite fmap_cons, bind_cons, row_addrs_unfold. simpl.
    apply sublist_skip. by apply sublist_inserts_l. }
  rewrite <-(length_fmap r_hd).
  apply NoDup_bounded_length; [done|].
  intros a (r & -> & Hr)%list_elem_of_fmap.
  apply list_elem_of_lookup in Hr as [i Hr].
  eapply row_at_bound; [by eapply Forall_lookup_1|].
  rewrite row_addrs_unfold. apply list_elem_of_here.
Qed.

(** ** The outer loop of [traverse] *)

Lemma map_set_tracked_of v i x (rs : list row) :
  map_set i x (tracked_of v (i + 1) rs) = (i, x) :: tracked_of v (i + 1) rs.
Proof.
  destruct rs as [|r rs]; [done|]. simpl.
  by rewrite (proj2 (Z.ltb_lt i (i + 1))) by lia.
Qed.

Lemma sorted_prefix_below v (l1 l2 : list cell) c :
  StronglySorted Z.le (c_val <$> (l1 ++ c :: l2)) → c_val c < v →
  Forall (λ c, c_val c < v) (l1 ++ [c]).
Proof.
  intros Hs Hv. apply Forall_app. split; [|by repeat constructor].
  apply Forall_forall. intros c' Hc'.
  rewrite fmap_app, fmap_cons in Hs.
  enough (c_val c' ≤ c_val c) by lia.
  eapply (StronglySorted_app_1_elem_of _ _ _ _ _ Hs).
  - by apply list_elem_of_fmap_2.
  - apply list_elem_of_here.
Qed.

Section descend.
Context (h : list Node) (rs : list row) (v : Z).
Hypothesis Hrows : Forall (row_at h) rs.
Hypothesis Hnd : NoDup (addrs rs).
Hypothesis Hwf : wf_order rs.

(** One level: from a node of the level that is below [v] (or from the
    sentinel), the inner loop stops at the last such node. *)
Lemma level_spec i r cs1 cs2 :
  rs !! i = Some r →
  r_cells r = cs1 ++ cs2 →
  Forall (λ c, c_val c < v) cs1 →
  ∃ n n',
    deref h (Some (last_addr (r_hd r) cs1)) = Ok n ∧
    seek (fuel_of h) h v (Some (last_addr (r_hd r) cs1)) (right n)
      = Ok (Some (pre_addr v r), first (highs v (r_cells r))) ∧
    deref h (Some (pre_addr v r)) = Ok n' ∧
    down n' = last_down (r_dn r) (lows v (r_cells r)).
Proof.
  intros Hr Hcs H1.
  pose proof (row_lookup _ _ Hrows _ _ Hr) as Hrow.
  destruct (node_at_last _ _ _ _ Hrow Hcs) as (Hn & Hseg).
  pose proof (wf_sorted _ Hwf r (list_elem_of_lookup_2 _ _ _ Hr)) as Hsort.
  unfold vals in Hsort. rewrite Hcs in Hsort.
  assert (StronglySorted Z.le (c_val <$> cs2)) as Hsort2.
  { rewrite fmap_app in Hsort. by apply StronglySorted_app_1_r in Hsort. }
  assert (lows v (r_cells r) = cs1 ++ lows v cs2) as Hlows.
  { by rewrite Hcs, lows_app, (lows_id _ _ H1). }
  assert (highs v (r_cells r) = highs v cs2) as Hhighs.
  { by rewrite Hcs, highs_app, (highs_nil _ _ H1). }
  destruct (node_at_last _ _ _ _ Hrow
              (lows_highs_sorted v _ (wf_sorted _ Hwf r
                 (list_elem_of_lookup_2 _ _ _ Hr)))) as (Hn' & _).
  eexists _, _. split; [by apply deref_Some|]. split; [|split].
  - cbn [right].
    pose proof (seek_spec h v (lows v cs2) (highs v cs2)
                  (last_addr (r_hd r) cs1) (fuel_of h)) as Hseek.
    rewrite <-(lows_highs_sorted v cs2 Hsort2) in Hseek.
    rewrite Hseek.
    + rewrite Hhighs. do 3 f_equal.
      unfold pre_addr, last_addr. rewrite Hlows, last_app.
      by destruct (last (lows v cs2)).
    + done.
    + apply lows_all.
    + apply highs_all.
    + pose proof (row_cells_length _ _ Hrow (row_NoDup _ _ _ Hnd Hr)) as Hlen.
      rewrite Hcs, length_app in Hlen.
      pose proof (length_filter (λ c, c_val c < v) cs2) as Hf.
      unfold fuel_of, lows. lia.
  - by apply deref_Some.
  - done.
Qed.

(** Where the descent continues. *)
Lemma level_down i r :
  rs !! i = Some r →
  match i with
  | O => last_down (r_dn r) (lows v (r_cells r)) = None
  | S j => ∃ lo cs1 cs2,
      rs !! j = Some lo ∧ r_cells lo = cs1 ++ cs2 ∧
      Forall (λ c, c_val c < v) cs1 ∧
      last_down (r_dn r) (lows v (r_cells r))
        = Some (last_addr (r_hd lo) cs1)
  end.
Proof.
  intros Hr. unfold last_down.
  destruct (last (lows v (r_cells r))) as [c|] eqn:Hlast; simpl.
  - assert (c ∈ lows v (r_cells r)) as Hc.
    { apply last_Some in Hlast as [l ->]. apply elem_of_app.
      right. apply list_elem_of_here. }
    apply list_elem_of_filter in Hc as [Hv Hc].
    destruct i as [|j].
    + destruct (wf_bottom _ Hwf r Hr) as [_ Hall].
      by eapply Forall_forall in Hall.
    + destruct (rs !! j) as [lo|] eqn:Hlo.
      2:{ apply lookup_ge_None in Hlo. apply lookup_lt_Some in Hr. lia. }
      destruct (wf_above _ Hwf j lo r Hlo Hr) as [_ Hsub].
      assert (down_image c ∈ self_image <$> r_cells lo) as Hin.
      { eapply elem_of_sublist; [|done]. by apply list_elem_of_fmap_2. }
      apply list_elem_of_fmap in Hin as (c' & Himg & Hc').
      unfold down_image, self_image in Himg.
      injection Himg as Hdn Hval.
      apply list_elem_of_split in Hc' as (l1 & l2 & Hsplit).
      exists lo, (l1 ++ [c']), l2. split; [done|]. split; [|split].
      * by rewrite <-app_assoc.
      * eapply sorted_prefix_below; [|lia].
        rewrite <-Hsplit.
        apply (wf_sorted _ Hwf lo). by eapply list_elem_of_lookup_2.
      * rewrite Hdn. unfold last_addr. by rewrite last_snoc.
  - destruct i as [|j].
    + by apply (wf_bottom _ Hwf r Hr).
    + destruct (rs !! j) as [lo|] eqn:Hlo.
      2:{ apply lookup_ge_None in Hlo. apply lookup_lt_Some in Hr. lia. }
      destruct (wf_above _ Hwf j lo r Hlo Hr) as [Hdn _].
      exists lo, [], (r_cells lo). by repeat split.
Qed.

Lemma tracked_of_drop i r :
  rs !! i = Some r →
  (Z.of_nat i, (Some (pre_addr v r), first (highs v (r_cells r))))
    :: tracked_of v (Z.of_nat i + 1) (drop (S i) rs)
  = tracked_of v (Z.of_nat i) (drop i rs).
Proof. intros Hr. by rewrite (drop_S _ _ _ Hr). Qed.

Lemma descend_unfold fuel level tracked p :
  descend (S fuel) h v level tracked (Some p) =
    n ← deref h (Some p);
    '(pre', cur) ← seek (fuel_of h) h v (Some p) (right n);
    n' ← deref h pre';
    descend fuel h v (level - 1) (map_set level (pre', cur) tracked)
      (down n').
Proof. done. Qed.

Lemma descend_spec i r cs1 cs2 fuel :
  rs !! i = Some r →
  r_cells r = cs1 ++ cs2 →
  Forall (λ c, c_val c < v) cs1 →
  (S i < fuel)%nat →
  descend fuel h v (Z.of_nat i)
      (tracked_of v (Z.of_nat i + 1) (drop (S i) rs))
      (Some (last_addr (r_hd r) cs1))
    = Ok (None, -1, tracked_of v 0 rs).
Proof.
  revert r cs1 cs2 fuel.
  induction i as [|j IH]; intros r cs1 cs2 fuel Hr Hcs H1 Hfuel;
    (destruct fuel as [|fuel]; [lia|]);
    [set (i := O) in * | set (i := S j) in *];
    destruct (level_spec _ _ _ _ Hr Hcs H1) as (n & n' & Hn & Hseek & Hn' & Hdn);
    pose proof (level_down _ _ Hr) as Hnext;
    rewrite descend_unfold, Hn, bind_Ok, Hseek, bind_Ok; cbv beta iota;
    rewrite Hn', bind_Ok, Hdn;
    rewrite map_set_tracked_of;
    match goal with
    | |- descend _ _ _ _ ?T _ = _ =>
        replace T with (tracked_of v (Z.of_nat i) (drop i rs))
          by (by rewrite (drop_S _ _ _ Hr))
    end.
  - rewrite Hnext. destruct fuel as [|fuel]; [lia|]. simpl.
    by rewrite drop_0.
  - destruct Hnext as (lo & l1 & l2 & Hlo & Hsplit & Hl1 & ->).
    replace (Z.of_nat (S j) - 1) with (Z.of_nat j) by lia.
    rewrite <-(IH lo l1 l2 fuel) by (done || lia).
    f_equal; subst i; [lia|f_equal; lia].
Qed.
End descend.

(** ** The calls that only read *)

Lemma holds_spec v (cs : list cell) :
  StronglySorted Z.le (c_val <$> cs) →
  holds v cs = true ↔ v ∈ c_val <$> cs.
Proof.
  intros Hs. unfold holds. split.
  - destruct (highs v cs) as [|c hs] eqn:Hh; [done|].
    intros Hv%Z.eqb_eq. rewrite <-Hv. apply list_elem_of_fmap_2.
    assert (c ∈ highs v cs) as Hc by (rewrite Hh; apply list_elem_of_here).
    by apply list_elem_of_filter in Hc as [_ ?].
  - intros (c & -> & Hc)%list_elem_of_fmap.
    assert (c ∈ highs (c_val c) cs) as Hin.
    { apply list_elem_of_filter. split; [lia|done]. }
    pose proof (highs_all (c_val c) cs) as Hall.
    rewrite (lows_highs_sorted (c_val c) cs Hs), fmap_app in Hs.
    apply StronglySorted_app_1_r in Hs.
    destruct (highs (c_val c) cs) as [|c0 hs]; [by apply elem_of_nil in Hin|].
    apply Forall_cons in Hall as [Hle _]. apply Z.eqb_eq.
    apply elem_of_cons in Hin as [->|Hin]; [done|].
    rewrite fmap_cons in Hs. apply StronglySorted_inv in Hs as [_ Hs].
    rewrite Forall_fmap in Hs. eapply Forall_forall in Hs; [|done].
    simpl in Hs. lia.
Qed.

Lemma map_at_tracked_of v k (rs : list row) i r :
  rs !! i = Some r →
  map_at (k + Z.of_nat i) (tracked_of v k rs)
    = Ok (Some (pre_addr v r), first (highs v (r_cells r))).
Proof.
  revert k i. induction rs as [|r0 rs IH]; intros k i Hr; [done|].
  destruct i as [|i].
  - injection Hr as ->. simpl. by rewrite Z.add_0_r, Z.eqb_refl.
  - change ((r0 :: rs) !! S i) with (rs !! i) in Hr.
    cbn [tracked_of map_at].
    rewrite (proj2 (Z.eqb_neq _ _)) by lia.
    replace (k + Z.of_nat (S i)) with ((k + 1) + Z.of_nat i) by lia.
    by apply IH.
Qed.

Section reads.
Context (s : SkipList) (rs : list row).
Hypothesis Hrepr : repr s rs.

Lemma repr_top :
  ∃ top, rs !! pred (length rs) = Some top ∧ head_ s = Some (r_hd top).
Proof.
  destruct Hrepr as [_ _ Hwf Hhead].
  destruct (last rs) as [top|] eqn:Htop.
  - exists top. split; [|done]. by rewrite <-last_lookup.
  - apply last_None in Htop. by destruct (wf_nonempty _ Hwf).
Qed.

Lemma repr_bottom : ∃ r, rs !! 0%nat = Some r.
Proof.
  destruct rs as [|r ?] eqn:E; [|by exists r].
  by destruct (wf_nonempty _ (repr_order _ _ Hrepr)).
Qed.

Lemma repr_length : (0 < length rs ≤ length (heap s))%nat.
Proof.
  split.
  - destruct repr_bottom as [r Hr]. by eapply lookup_lt_Some.
  - apply rows_length; apply Hrepr.
Qed.

Lemma height_spec : height s = Ok (Z.of_nat (length rs)).
Proof.
  destruct repr_top as (top & Htop & Hhead). pose proof repr_length.
  unfold height. rewrite Hhead.
  rewrite (height_loop_spec (heap s) rs (repr_rows _ _ Hrepr)
             (repr_order _ _ Hrepr) (pred (length rs)) top 1 _ Htop).
  - f_equal. lia.
  - unfold fuel_of. lia.
Qed.

Lemma traverse_loop_spec v :
  traverse_loop v s = Ok (None, -1, tracked_of v 0 rs).
Proof.
  destruct repr_top as (top & Htop & Hhead). pose proof repr_length as Hlen.
  unfold traverse_loop. rewrite height_spec, bind_Ok, Hhead.
  pose proof (descend_spec (heap s) rs v (repr_rows _ _ Hrepr)
    (repr_nodup _ _ Hrepr) (repr_order _ _ Hrepr)
    (pred (length rs)) top [] (r_cells top) (fuel_of (heap s)) Htop eq_refl)
    as Hd.
  replace (S (pred (length rs))) with (length rs) in Hd by lia.
  rewrite drop_all in Hd.
  replace (Z.of_nat (length rs) - 1) with (Z.of_nat (pred (length rs))) by lia.
  apply Hd; [done|]. unfold fuel_of. lia.
Qed.

Lemma traverse_spec v : traverse v s = Ok (tracked_of v 0 rs).
Proof. unfold traverse. by rewrite traverse_loop_spec. Qed.

Lemma iter_spec :
  ∃ r, rs !! 0%nat = Some r ∧ iter s = Ok (vals r).
Proof.
  destruct repr_top as (top & Htop & Hhead). pose proof repr_length as Hlen.
  destruct repr_bottom as [r Hr]. exists r. split; [done|].
  unfold iter. rewrite Hhead.
  rewrite (iter_down_spec (heap s) rs (repr_rows _ _ Hrepr)
             (repr_order _ _ Hrepr) (pred (length rs)) top _ Htop).
  2:{ unfold fuel_of. lia. }
  rewrite Hr, bind_Ok. cbn [fmap option_fmap option_map].
  pose proof (row_lookup _ _ (repr_rows _ _ Hrepr) _ _ Hr) as Hrow.
  pose proof Hrow as [Hhd Hseg]%row_at_unfold.
  rewrite (deref_Some _ _ _ Hhd), bind_Ok. cbn [right].
  apply iter_right_spec; [done|].
  pose proof (row_cells_length _ _ Hrow
                (row_NoDup _ _ _ (repr_nodup _ _ Hrepr) Hr)).
  unfold fuel_of. lia.
Qed.

Lemma no_match_spec v i r :
  rs !! i = Some r →
  no_match (heap s) v (first (highs v (r_cells r)))
    = Ok (negb (holds v (r_cells r))).
Proof.
  intros Hr. unfold holds.
  pose proof (row_lookup _ _ (repr_rows _ _ Hrepr) _ _ Hr) as Hrow.
  pose proof (wf_sorted _ (repr_order _ _ Hrepr) r
                (list_elem_of_lookup_2 _ _ _ Hr)) as Hsort.
  pose proof (lows_highs_sorted v _ Hsort) as Hsplit.
  destruct (highs v (r_cells r)) as [|c hs]; [done|].
  rewrite first_cons. unfold no_match.
  by rewrite (deref_Some _ _ _ (cell_lookup _ _ _ _ _ Hrow Hsplit)).
Qed.

Lemma find_spec v :
  ∃ r, rs !! 0%nat = Some r ∧ find v s = Ok (holds v (r_cells r)).
Proof.
  destruct repr_bottom as [r Hr]. exists r. split; [done|].
  unfold find. rewrite traverse_spec, bind_Ok.
  pose proof (map_at_tracked_of v 0 rs 0 r Hr) as Hat.
  change (0 + Z.of_nat 0) with 0 in Hat. rewrite Hat, bind_Ok.
  cbv beta iota.
  pose proof (no_match_spec v _ _ Hr) as Hno. unfold no_match, holds in *.
  destruct (highs v (r_cells r)) as [|c hs]; [done|].
  rewrite first_cons in *.
  destruct (deref (heap s) (Some (c_addr c))) as [n|]; [|done].
  rewrite bind_Ok in *. destruct (get (value n)) as [x|]; [|done].
  rewrite bind_Ok in *. injection Hno as Hno. f_equal.
  by destruct (x =? v), (c_val c =? v).
Qed.
End reads.

(** ** Lists: filters and sublists *)

Lemma filter_sublist_mono {A} (P : A → Prop) `{!∀ x, Decision (P x)} (l k : list A) :
  sublist l k → sublist (filter P l) (filter P k).
Proof.
  induction 1 as [|x l k _ IH|x l k _ IH]; [done| |]; rewrite ?filter_cons.
  - destruct (decide (P x)); [by apply sublist_skip|done].
  - destruct (decide (P x)); [by apply sublist_cons|done].
Qed.

Lemma filter_fmap {A B} (f : A → B) (P : B → Prop) `{!∀ y, Decision (P y)}
    (l : list A) :
  filter P (f <$> l) = f <$> filter (λ x, P (f x)) l.
Proof.
  induction l as [|x l IH]; [done|].
  rewrite fmap_cons, !filter_cons. destruct (decide (P (f x))); [|done].
  by rewrite fmap_cons, IH.
Qed.

Lemma StronglySorted_sublist {A} (R : relation A) (l k : list A) :
  sublist l k → StronglySorted R k → StronglySorted R l.
Proof.
  induction 1 as [|x l k Hsub IH|x l k Hsub IH]; [done| |];
    intros [Hk Hall]%StronglySorted_inv.
  - constructor; [by apply IH|].
    apply Forall_forall. intros y Hy. eapply Forall_forall in Hall; [done|].
    by eapply elem_of_sublist.
  - by apply IH.
Qed.

(** ** Links between two levels across a split *)

Lemma down_lows v (up lo : list cell) :
  sublist (down_image <$> up) (self_image <$> lo) →
  sublist (down_image <$> lows v up) (self_image <$> lows v lo).
Proof.
  intros Hsub.
  apply (filter_sublist_mono (λ p : ptr * Z, p.2 < v)) in Hsub.
  by rewrite !filter_fmap in Hsub.
Qed.

Lemma down_highs v (up lo : list cell) :
  sublist (down_image <$> up) (self_image <$> lo) →
  sublist (down_image <$> highs v up) (self_image <$> highs v lo).
Proof.
  intros Hsub.
  apply (filter_sublist_mono (λ p : ptr * Z, v ≤ p.2)) in Hsub.
  by rewrite !filter_fmap in Hsub.
Qed.

(** ** The levels after an insertion *)

Lemma ins_sorted v a dn r :
  StronglySorted Z.le (vals r) → StronglySorted Z.le (vals (ins v a dn r)).
Proof.
  intros Hs. unfold vals, ins. simpl.
  pose proof Hs as Hs'. unfold vals in Hs'.
  rewrite (lows_highs_sorted v _ Hs), fmap_app in Hs'.
  rewrite fmap_app, fmap_cons. simpl.
  apply StronglySorted_app_2.
  - intros x1 x2 (c & -> & Hc)%list_elem_of_fmap Hx2.
    pose proof (lows_all v (r_cells r)) as Hlo.
    eapply Forall_forall in Hlo; [|done]. simpl in Hlo.
    apply elem_of_cons in Hx2 as [->|(c2 & -> & Hc2)%list_elem_of_fmap]; [lia|].
    pose proof (highs_all v (r_cells r)) as Hhi.
    eapply Forall_forall in Hhi; [|done]. simpl in Hhi. lia.
  - by apply StronglySorted_app_1_l in Hs'.
  - constructor; [by apply StronglySorted_app_1_r in Hs'|].
    rewrite Forall_fmap. apply highs_all.
Qed.

Lemma ins_rows_length v a dn k (rs : list row) :
  length (ins_rows v a dn k rs) = length rs.
Proof.
  revert a dn rs. induction k as [|k IH]; intros a dn [|r rs]; simpl; auto.
Qed.

Lemma ins_rows_lookup v a dn k (rs : list row) i :
  ins_rows v a dn k rs !! i =
    if decide (i < k)%nat
    then ins v (a + i)%nat (match i with O => dn | S j => Some (a + j)%nat end)
           <$> rs !! i
    else rs !! i.
Proof.
  revert a dn rs i. induction k as [|k IH]; intros a dn rs i.
  - destruct (decide (i < 0)%nat); [lia|]. by destruct rs.
  - destruct rs as [|r rs].
    { by destruct (decide _). }
    destruct i as [|i].
    + rewrite decide_True by lia. simpl. by rewrite Nat.add_0_r.
    + change (ins_rows v a dn (S k) (r :: rs) !! S i)
        with (ins_rows v (S a) (Some a) k rs !! i).
      change ((r :: rs) !! S i) with (rs !! i).
      rewrite IH. destruct (decide (i < k)%nat).
      * rewrite decide_True by lia.
        replace (S a + i)%nat with (a + S i)%nat by lia.
        destruct i; [by rewrite Nat.add_0_r|].
        by replace (S a + i)%nat with (a + S i)%nat by lia.
      * by rewrite decide_False by lia.
Qed.

Lemma ins_rows_wf v a k (rs : list row) :
  wf_order rs → wf_order (ins_rows v a None k rs).
Proof.
  intros [Hne Hsort Hbot Habove]. split.
  - intros Heq. apply (f_equal length) in Heq.
    rewrite ins_rows_length in Heq. by destruct rs.
  - intros r (i & Hr)%list_elem_of_lookup. rewrite ins_rows_lookup in Hr.
    destruct (decide (i < k)%nat).
    + destruct (rs !! i) as [r0|] eqn:Hr0; [|done]. injection Hr as <-.
      apply ins_sorted, Hsort. by eapply list_elem_of_lookup_2.
    + apply Hsort. by eapply list_elem_of_lookup_2.
  - intros r Hr. rewrite ins_rows_lookup in Hr.
    destruct (decide (0 < k)%nat); [|by apply Hbot].
    destruct (rs !! 0%nat) as [r0|] eqn:Hr0; [|done]. injection Hr as <-.
    destruct (Hbot r0 eq_refl) as [Hdn Hall]. split; [done|]. simpl.
    rewrite Forall_forall in Hall.
    apply Forall_app. split; [|constructor; [done|]]; apply Forall_forall;
      intros c [_ Hc]%list_elem_of_filter; by apply Hall.
  - intros i lo up Hlo Hup. rewrite ins_rows_lookup in Hlo, Hup.
    destruct (rs !! i) as [lo0|] eqn:Hlo0.
    2:{ by destruct (decide (i < k)%nat). }
    destruct (rs !! S i) as [up0|] eqn:Hup0.
    2:{ by destruct (decide (S i < k)%nat). }
    destruct (Habove i lo0 up0 Hlo0 Hup0) as [Hdn Hsub].
    pose proof (lows_highs_sorted v _
      (Hsort lo0 (list_elem_of_lookup_2 _ _ _ Hlo0))) as Hsplit.
    destruct (decide (S i < k)%nat).
    + rewrite decide_True in Hlo by lia.
      injection Hlo as <-. injection Hup as <-. split; [done|]. simpl.
      rewrite !fmap_app, !fmap_cons. apply sublist_app; [by apply down_lows|].
      unfold down_image at 1, self_image at 2. simpl.
      apply sublist_skip. by apply down_highs.
    + injection Hup as <-. destruct (decide (i < k)%nat).
      * injection Hlo as <-. split; [done|]. simpl.
        etrans; [exact Hsub|]. rewrite Hsplit at 1.
        rewrite !fmap_app, fmap_cons.
        apply sublist_app; [done|]. by apply sublist_cons.
      * injection Hlo as <-. done.
Qed.

(** ** The levels after a removal *)

Lemma del_first_sublist v (cs : list cell) : sublist (del_first v cs) cs.
Proof.
  destruct cs as [|c cs]; [done|]. simpl.
  destruct (c_val c =? v); [by apply sublist_cons|done].
Qed.

Lemma del_cells_sublist v r : sublist (r_cells (del v r)) (lows v (r_cells r) ++ highs v (r_cells r)).
Proof. simpl. apply sublist_app; [done|apply del_first_sublist]. Qed.

Lemma del_sorted v r :
  StronglySorted Z.le (vals r) → StronglySorted Z.le (vals (del v r)).
Proof.
  intros Hs. unfold vals. eapply StronglySorted_sublist; [|exact Hs].
  apply fmap_sublist. unfold vals in Hs.
  etrans; [apply del_cells_sublist|]. by rewrite <-lows_highs_sorted.
Qed.

Lemma del_first_down v (up lo : list cell) :
  Forall (λ c, v ≤ c_val c) lo →
  StronglySorted Z.le (c_val <$> lo) →
  sublist (down_image <$> up) (self_image <$> lo) →
  sublist (down_image <$> del_first v up) (self_image <$> del_first v lo).
Proof.
  intros Hge Hs Hsub.
  destruct up as [|c up].
  { apply sublist_nil_l. }
  destruct lo as [|c0 lo].
  { by apply sublist_nil_r in Hsub. }
  rewrite !fmap_cons in Hsub. unfold del_first.
  destruct (c_val c =? v) eqn:Hc.
  - apply Z.eqb_eq in Hc.
    assert (c_val c0 = v) as Hc0.
    { apply Forall_cons in Hge as [Hle _].
      assert (down_image c ∈ self_image c0 :: (self_image <$> lo)) as Hin.
      { eapply elem_of_sublist; [|exact Hsub]. apply list_elem_of_here. }
      apply elem_of_cons in Hin as [Heq|(c' & Heq & Hc')%list_elem_of_fmap].
      - unfold down_image, self_image in Heq. injection Heq as _ Heq. lia.
      - unfold down_image, self_image in Heq. injection Heq as _ Heq.
        rewrite fmap_cons in Hs. apply StronglySorted_inv in Hs as [_ Hall].
        rewrite Forall_fmap in Hall. eapply Forall_forall in Hall; [|done].
        simpl in Hall. lia. }
    apply Z.eqb_eq in Hc0. rewrite Hc0.
    apply sublist_cons_r in Hsub as [Hsub|(l' & Heq & Hsub)].
    + apply sublist_cons_l in Hsub as (k1 & k2 & -> & Hsub).
      by apply sublist_inserts_l, sublist_cons.
    + by injection Heq as _ _ <-.
  - apply Z.eqb_neq in Hc.
    destruct (c_val c0 =? v) eqn:Hc0; [|by rewrite !fmap_cons].
    apply Z.eqb_eq in Hc0. rewrite fmap_cons.
    apply sublist_cons_r in Hsub as [Hsub|(l' & Heq & Hsub)]; [done|].
    unfold down_image, self_image in Heq. injection Heq as _ Heq _. lia.
Qed.

Lemma del_rows_wf v (rs : list row) :
  wf_order rs → wf_order (del v <$> rs).
Proof.
  intros [Hne Hsort Hbot Habove]. split.
  - by destruct rs.
  - intros r (r0 & -> & Hr0)%list_elem_of_fmap. by apply del_sorted, Hsort.
  - intros r Hr. rewrite list_lookup_fmap in Hr.
    destruct (rs !! 0%nat) as [r0|] eqn:Hr0; [|done]. injection Hr as <-.
    destruct (Hbot r0 eq_refl) as [Hdn Hall]. split; [done|].
    pose proof (lows_highs_sorted v _
      (Hsort r0 (list_elem_of_lookup_2 _ _ _ Hr0))) as Hsplit.
    rewrite Hsplit in Hall. rewrite Forall_forall in Hall.
    apply Forall_forall. intros c Hc. apply Hall.
    eapply elem_of_sublist; [done|]. apply del_cells_sublist.
  - intros i lo up Hlo Hup. rewrite list_lookup_fmap in Hlo, Hup.
    destruct (rs !! i) as [lo0|] eqn:Hlo0; [|done].
    destruct (rs !! S i) as [up0|] eqn:Hup0; [|done].
    injection Hlo as <-. injection Hup as <-.
    destruct (Habove i lo0 up0 Hlo0 Hup0) as [Hdn Hsub]. split; [done|].
    simpl. rewrite !fmap_app. apply sublist_app; [by apply down_lows|].
    apply del_first_down; [apply highs_all| |by apply down_highs].
    pose proof (Hsort lo0 (list_elem_of_lookup_2 _ _ _ Hlo0)) as Hs.
    pose proof Hs as Hs'. unfold vals in Hs'.
    rewrite (lows_highs_sorted v _ Hs), fmap_app in Hs'.
    by apply StronglySorted_app_1_r in Hs'.
Qed.

(** ** Prefixes of a column, and one more sentinel on top *)

Lemma wf_order_take k (rs : list row) :
  (0 < k)%nat → wf_order rs → wf_order (take k rs).
Proof.
  intros Hk [Hne Hsort Hbot Habove]. split.
  - destruct rs; [done|]. by destruct k; [lia|].
  - intros r Hr. apply Hsort.
    eapply elem_of_sublist; [exact Hr|apply (sublist_take rs k)].
  - intros r Hr. apply Hbot. by apply lookup_take_Some in Hr as [? _].
  - intros i lo up Hlo Hup.
    apply lookup_take_Some in Hlo as [Hlo _].
    apply lookup_take_Some in Hup as [Hup _]. by apply (Habove i).
Qed.

Lemma wf_order_push a top (rs : list row) :
  wf_order rs → r_hd <$> last rs = Some top →
  wf_order (rs ++ [mkRow a (Some top) []]).
Proof.
  intros [Hne Hsort Hbot Habove] Htop. split.
  - by destruct rs.
  - intros r [Hr|Hr%list_elem_of_singleton]%elem_of_app;
      [by apply Hsort|subst r; constructor].
  - intros r Hr. apply Hbot. destruct rs; [done|]. done.
  - intros i lo up Hlo Hup.
    destruct (decide (S i < length rs)%nat).
    + rewrite lookup_app_l in Hlo, Hup by lia. by apply (Habove i).
    + assert (S i = length rs) as Hi.
      { apply lookup_lt_Some in Hup. rewrite length_app in Hup. simpl in Hup. lia. }
      rewrite lookup_app_l in Hlo by lia.
      rewrite lookup_app_r in Hup by lia.
      replace (S i - length rs)%nat with 0%nat in Hup by lia.
      injection Hup as <-. simpl.
      rewrite last_lookup in Htop. replace (pred (length rs)) with i in Htop by lia.
      rewrite Hlo in Htop. injection Htop as ->. split; [done|apply sublist_nil_l].
Qed.

(** ** Addresses of a column *)

Lemma addrs_app (R1 R2 : list row) : addrs (R1 ++ R2) = addrs R1 ++ addrs R2.
Proof. apply bind_app. Qed.

Lemma addrs_cons r (R : list row) : addrs (r :: R) = row_addrs r ++ addrs R.
Proof. done. Qed.

Lemma addrs_bound h (rs : list row) a :
  Forall (row_at h) rs → a ∈ addrs rs → (a < length h)%nat.
Proof.
  intros Hrows (r & Ha & Hr)%list_elem_of_bind.
  eapply row_at_bound; [|done]. by eapply Forall_forall in Hrows.
Qed.

Lemma rows_alloc h n (rs : list row) :
  Forall (row_at h) rs → Forall (row_at (h ++ [n])) rs.
Proof. intros H. eapply Forall_impl; [done|]. intros r. apply seg_alloc. Qed.

Lemma rows_insert_other h a n (rs : list row) :
  a ∉ addrs rs → Forall (row_at h) rs → Forall (row_at (<[a := n]> h)) rs.
Proof.
  intros Ha Hrows. apply Forall_forall. intros r Hr.
  apply seg_insert_other.
  - intros Hin. apply Ha. apply list_elem_of_bind. by exists r.
  - by eapply Forall_forall in Hrows.
Qed.

(** ** [ensure_height] *)

Lemma repr_push s (rs : list row) :
  repr s rs →
  repr (mkSkipList (heap s ++ [mkNode None (head_ s) None])
          (Some (length (heap s))))
       (rs ++ [mkRow (length (heap s)) (head_ s) []]).
Proof.
  intros Hrepr. destruct (repr_top _ _ Hrepr) as (top & Htop & Hhead).
  destruct Hrepr as [Hrows Hnd Hwf Hh]. split; simpl.
  - apply Forall_app. split; [by apply rows_alloc|].
    constructor; [|done]. apply row_at_unfold. simpl. split; [|done].
    by apply list_lookup_middle.
  - rewrite addrs_app. apply NoDup_app. split; [done|]. split.
    + intros a Ha Hin. apply (addrs_bound _ _ _ Hrows) in Ha.
      unfold addrs in Hin. simpl in Hin.
      apply list_elem_of_singleton in Hin. lia.
    + unfold addrs. simpl. apply NoDup_singleton.
  - rewrite Hhead. apply wf_order_push; [done|]. by rewrite <-Hh.
  - by rewrite last_snoc.
Qed.

Lemma push_loop_spec {A} (xs : list A) s (rs : list row) :
  repr s rs →
  ∃ s', for_each xs (λ _, push_sentinel) s = (Ok (), s') ∧
    repr s' (rs ++ sentinels (length (heap s)) (head_ s) (length xs)) ∧
    length (heap s') = (length (heap s) + length xs)%nat.
Proof.
  revert s rs. induction xs as [|x xs IH]; intros s rs Hrepr.
  - exists s. simpl. rewrite app_nil_r, Nat.add_0_r. done.
  - destruct (IH _ _ (repr_push _ _ Hrepr)) as (s' & Hrun & Hrepr' & Hlen).
    cbn [heap head_] in Hrepr', Hlen.
    rewrite length_app, Nat.add_1_r in Hrepr', Hlen.
    exists s'. split; [exact Hrun|]. split.
    + rewrite <-app_assoc in Hrepr'. exact Hrepr'.
    + rewrite Hlen. simpl. lia.
Qed.

Lemma ensure_height_spec expected s (rs : list row) :
  repr s rs → 0 < expected →
  ∃ s', ensure_height expected s = (Ok (), s') ∧
    repr s' (rs ++ sentinels (length (heap s)) (head_ s)
                     (Z.to_nat (expected - Z.of_nat (length rs)))) ∧
    length (heap s') =
      (length (heap s) + Z.to_nat (expected - Z.of_nat (length rs)))%nat.
Proof.
  intros Hrepr Hpos. unfold ensure_height.
  unfold mbind, action_bind, pure, reads.
  rewrite (proj2 (Z.ltb_lt _ _) Hpos). simpl.
  rewrite (height_spec _ _ Hrepr).
  destruct (Z.leb_spec expected (Z.of_nat (length rs))) as [Hle|Hgt].
  - exists s. replace (Z.to_nat _) with 0%nat by lia. simpl.
    rewrite app_nil_r, Nat.add_0_r. done.
  - destruct (push_loop_spec (iota (Z.of_nat (length rs)) expected) _ _ Hrepr)
      as (s' & Hrun & Hrepr' & Hlen).
    unfold iota in *. rewrite length_seqZ in *. by exists s'.
Qed.

(** ** One level of [add] *)

Lemma entries_split v r :
  StronglySorted Z.le (vals r) →
  ∃ es x,
    (r_hd r, (None, r_dn r)) :: (cell_entry <$> lows v (r_cells r)) = es ++ [x] ∧
    x.1 = pre_addr v r ∧
    entries r = (es ++ [x]) ++ (cell_entry <$> highs v (r_cells r)).
Proof.
  intros Hs. pose proof (lows_highs_sorted v _ Hs) as Hsplit.
  unfold entries, pre_addr, last_addr.
  remember (lows v (r_cells r)) as L eqn:HL.
  remember (highs v (r_cells r)) as H eqn:HH.
  rewrite Hsplit, fmap_app, app_comm_cons. clear.
  destruct L as [|c cs _] using rev_ind.
  - exists [], (r_hd r, (None, r_dn r)). done.
  - exists ((r_hd r, (None, r_dn r)) :: (cell_entry <$> cs)), (cell_entry c).
    rewrite fmap_app, last_snoc. done.
Qed.

Lemma row_addrs_split v r :
  StronglySorted Z.le (vals r) →
  row_addrs r
    = (r_hd r :: (c_addr <$> lows v (r_cells r)))
        ++ (c_addr <$> highs v (r_cells r)).
Proof.
  intros Hs. rewrite row_addrs_unfold.
  pose proof (lows_highs_sorted v _ Hs) as Hsplit.
  remember (lows v (r_cells r)) as L eqn:HL.
  remember (highs v (r_cells r)) as H eqn:HH.
  by rewrite Hsplit, fmap_app.
Qed.

Lemma ins_addrs v a dn r :
  StronglySorted Z.le (vals r) →
  row_addrs (ins v a dn r) ≡ₚ a :: row_addrs r.
Proof.
  intros Hs. rewrite (row_addrs_split v r Hs), row_addrs_unfold. simpl.
  rewrite fmap_app, fmap_cons. simpl.
  rewrite <-Permutation_middle. by rewrite (Permutation_swap a).
Qed.

Lemma ins_step h (R1 R2 : list row) r v dn :
  Forall (row_at h) (R1 ++ r :: R2) →
  NoDup (addrs (R1 ++ r :: R2)) →
  StronglySorted Z.le (vals r) →
  ∃ n, h !! pre_addr v r = Some n ∧
    let a := length h in
    let h2 := <[pre_addr v r := mkNode (value n) (down n) (Some a)]>
                (h ++ [mkNode (Some v) dn (first (highs v (r_cells r)))]) in
    Forall (row_at h2) (R1 ++ ins v a dn r :: R2) ∧
    NoDup (addrs (R1 ++ ins v a dn r :: R2)).
Proof.
  intros Hrows Hnd Hs.
  pose proof Hrows as (Hrows1 & (Hrow & Hrows2)%Forall_cons)%Forall_app.
  rewrite addrs_app, addrs_cons in Hnd.
  pose proof Hnd as (Hnd1 & Hdisj1 & (Hndr & Hdisj2 & Hnd2)%NoDup_app)%NoDup_app.
  destruct (entries_split v r Hs) as (es & x & Hes & Hx & Hent).
  pose proof Hrow as Hseg. unfold row_at in Hseg. rewrite Hent in Hseg.
  apply seg_app in Hseg as [HsegA HsegH].
  pose proof HsegA as [_ [Hn _]]%seg_app. simpl in Hn.
  rewrite Hx in Hn. eexists. split; [exact Hn|]. simpl.
  set (a := length h).
  set (new := mkNode (Some v) dn (first (highs v (r_cells r)))).
  assert (pre_addr v r ∈ row_addrs r) as Hpre_in.
  { unfold row_addrs. rewrite Hent, fmap_app, fmap_app. rewrite <-Hx.
    apply elem_of_app. left. apply elem_of_app. right. apply list_elem_of_here. }
  assert (pre_addr v r < a)%nat as Hpre_lt by by eapply row_at_bound.
  assert (NoDup ((es ++ [x]) ++ (cell_entry <$> highs v (r_cells r))).*1) as HndE.
  { rewrite <-Hent. exact Hndr. }
  rewrite fmap_app in HndE. apply NoDup_app in HndE as (HndA & HdisjA & HndH).
  split.
  - apply Forall_app. split; [|constructor].
    + apply rows_insert_other; [|by apply rows_alloc].
      intros Hin. apply (Hdisj1 _ Hin). apply elem_of_app. by left.
    + unfold row_at.
      assert (entries (ins v a dn r)
              = (es ++ [x]) ++ [(a, (Some v, dn))]
                  ++ (cell_entry <$> highs v (r_cells r))) as ->.
      { rewrite <-Hes. unfold entries, ins. cbn [r_hd r_dn r_cells].
        rewrite fmap_app, fmap_cons. done. }
      apply seg_app. split; [|apply seg_app; split].
      * simpl first_or. rewrite <-Hx.
        eapply seg_set_last; [done|]. apply seg_alloc. exact HsegA.
      * simpl. split; [|done]. rewrite first_or_cells.
        rewrite list_lookup_insert_ne by lia.
        by apply list_lookup_middle.
      * apply seg_insert_other; [|by apply seg_alloc].
        intros Hin. apply (HdisjA (pre_addr v r)); [|done].
        rewrite <-Hx, fmap_app. apply elem_of_app. right. apply list_elem_of_here.
    + apply rows_insert_other; [|by apply rows_alloc].
      intros Hin. by apply (Hdisj2 _ Hpre_in).
  - rewrite addrs_app, addrs_cons, (ins_addrs _ _ _ _ Hs).
    assert (a ∉ addrs (R1 ++ r :: R2)) as Hfresh.
    { intros Hin. apply (addrs_bound _ _ _ Hrows) in Hin. lia. }
    rewrite addrs_app, addrs_cons in Hfresh.
    rewrite <-app_comm_cons, <-Permutation_middle.
    constructor; [done|exact Hnd].
Qed.

(** ** The loop of [add] *)

Lemma add_loop_cons idx rest T v dn s pre nex n :
  map_at idx T = Ok (Some pre, nex) →
  heap s !! pre = Some n →
  add_loop (idx :: rest) T v dn s =
    add_loop rest T v (Some (length (heap s)))
      (mkSkipList
         (<[pre := mkNode (value n) (down n) (Some (length (heap s)))]>
            (heap s ++ [mkNode (Some v) dn nex]))
         (head_ s)).
Proof.
  intros Hat Hn. cbn [add_loop].
  unfold mbind at 1, action_bind at 1, pure at 1. rewrite Hat.
  unfold mbind at 1, action_bind at 1, alloc at 1. cbn [make_shared heap head_].
  unfold mbind at 1, action_bind at 1, reads at 1. cbn [heap head_].
  unfold set_right.
  rewrite (deref_Some _ _ n) by (by apply lookup_app_l_Some).
  rewrite bind_Ok. done.
Qed.

Lemma add_loop_spec v T n :
  ∀ (R1 R2 : list row) s dn,
    Forall (row_at (heap s)) (R1 ++ R2) →
    NoDup (addrs (R1 ++ R2)) →
    Forall (λ r, StronglySorted Z.le (vals r)) R2 →
    (n ≤ length R2)%nat →
    (∀ i r, R2 !! i = Some r →
       map_at (Z.of_nat (length R1 + i)) T
         = Ok (Some (pre_addr v r), first (highs v (r_cells r)))) →
    ∃ s',
      add_loop (seqZ (Z.of_nat (length R1)) (Z.of_nat n)) T v dn s = (Ok (), s') ∧
      head_ s' = head_ s ∧
      Forall (row_at (heap s')) (R1 ++ ins_rows v (length (heap s)) dn n R2) ∧
      NoDup (addrs (R1 ++ ins_rows v (length (heap s)) dn n R2)).
Proof.
  induction n as [|n IH]; intros R1 R2 s dn Hrows Hnd Hsort Hn Hat.
  - exists s. by destruct R2.
  - destruct R2 as [|r R2]; [simpl in Hn; lia|].
    apply Forall_cons in Hsort as [Hs Hsort].
    destruct (ins_step _ _ _ _ v dn Hrows Hnd Hs) as (nd & Hnd_at & Hrows' & Hnd').
    rewrite seqZ_cons by lia.
    pose proof (Hat 0%nat r eq_refl) as Hat0. rewrite Nat.add_0_r in Hat0.
    rewrite (add_loop_cons _ _ _ _ _ _ _ _ nd Hat0 Hnd_at).
    set (s1 := mkSkipList _ _).
    destruct (IH (R1 ++ [ins v (length (heap s)) dn r]) R2 s1
                (Some (length (heap s)))) as (s' & Hrun & Hhead & Hrows2 & Hnd2).
    + by rewrite <-app_assoc.
    + by rewrite <-app_assoc.
    + done.
    + simpl in Hn. lia.
    + intros i r' Hr'. rewrite length_app. simpl.
      replace (length R1 + 1 + i)%nat with (length R1 + S i)%nat by lia.
      by apply Hat.
    + exists s'. rewrite length_app in Hrun. simpl in Hrun.
      replace (Z.succ (Z.of_nat (length R1))) with (Z.of_nat (length R1 + 1))
        by lia.
      replace (Z.pred (Z.of_nat (S n))) with (Z.of_nat n) by lia.
      split; [done|]. split; [done|].
      assert (length (heap s1) = S (length (heap s))) as Hlen.
      { unfold s1. simpl. rewrite length_insert, length_app. simpl. lia. }
      rewrite Hlen, <-app_assoc in Hrows2, Hnd2. done.
Qed.

(** ** [add] *)

Lemma sentinels_length a top k : length (sentinels a top k) = k.
Proof. revert a top. induction k as [|k IH]; intros a top; simpl; auto. Qed.

Lemma add_spec level v s (rs : list row) :
  repr s rs → 0 ≤ level →
  ∃ s' rs',
    add level v s = (Ok (), s') ∧ repr s' rs' ∧
    rs' = ins_rows v
            (length (heap s) + Z.to_nat (level + 1 - Z.of_nat (length rs)))%nat
            None (Z.to_nat (level + 1))
            (rs ++ sentinels (length (heap s)) (head_ s)
                     (Z.to_nat (level + 1 - Z.of_nat (length rs)))).
Proof.
  intros Hrepr Hlevel.
  destruct (ensure_height_spec (level + 1) s rs Hrepr) as (s1 & Hens & Hrepr1 & Hlen1);
    [lia|].
  set (rs1 := rs ++ _) in *.
  assert (Z.to_nat (level + 1) ≤ length rs1)%nat as Hfit.
  { unfold rs1. rewrite length_app, sentinels_length. lia. }
  destruct (add_loop_spec v (tracked_of v 0 rs1) (Z.to_nat (level + 1))
              [] rs1 s1 None) as (s' & Hrun & Hhead & Hrows & Hnd).
  - apply Hrepr1.
  - apply Hrepr1.
  - apply Forall_forall. apply (wf_sorted _ (repr_order _ _ Hrepr1)).
  - done.
  - intros i r Hr. simpl. by apply (map_at_tracked_of v 0 rs1).
  - simpl in Hrun, Hrows, Hnd. rewrite Z2Nat.id in Hrun by lia.
    exists s', (ins_rows v (length (heap s1)) None (Z.to_nat (level + 1)) rs1).
    split; [|split].
    + unfold add. unfold mbind at 1, action_bind at 1. rewrite Hens.
      unfold mbind at 1, action_bind at 1, reads at 1.
      rewrite (traverse_spec _ _ Hrepr1). unfold iota.
      by rewrite Z.sub_0_r.
    + split; [done|done| |].
      * apply ins_rows_wf, Hrepr1.
      * rewrite Hhead, (repr_head _ _ Hrepr1).
        rewrite !last_lookup, ins_rows_length.
        rewrite ins_rows_lookup. destruct (decide _); [|done].
        by destruct (rs1 !! _).
    + by rewrite Hlen1.
Qed.

(** ** One level of [remove] *)

Lemma no_match_row h v r :
  row_at h r → StronglySorted Z.le (vals r) →
  no_match h v (first (highs v (r_cells r))) = Ok (negb (holds v (r_cells r))).
Proof.
  intros Hrow Hs. unfold holds.
  pose proof (lows_highs_sorted v _ Hs) as Hsplit.
  destruct (highs v (r_cells r)) as [|c hs]; [done|].
  rewrite first_cons. unfold no_match.
  by rewrite (deref_Some _ _ _ (cell_lookup _ _ _ _ _ Hrow Hsplit)).
Qed.

Lemma del_id v r :
  StronglySorted Z.le (vals r) → holds v (r_cells r) = false → del v r = r.
Proof.
  intros Hs Hno. unfold del, holds, del_first in *.
  pose proof (lows_highs_sorted v _ Hs) as Hsplit.
  destruct r as [hd dn cs]. simpl in *. f_equal.
  destruct (highs v cs) as [|c hs]; [done|]. by rewrite Hno.
Qed.

Lemma del_holds v r c hs :
  highs v (r_cells r) = c :: hs → holds v (r_cells r) = true →
  del v r = mkRow (r_hd r) (r_dn r) (lows v (r_cells r) ++ hs).
Proof.
  intros Hh Hyes. unfold del, holds, del_first in *. rewrite Hh in *.
  by rewrite Hyes.
Qed.

Lemma del_step h (R1 R2 : list row) r v c hs :
  Forall (row_at h) (R1 ++ r :: R2) →
  NoDup (addrs (R1 ++ r :: R2)) →
  StronglySorted Z.le (vals r) →
  highs v (r_cells r) = c :: hs →
  ∃ n, h !! pre_addr v r = Some n ∧
    h !! c_addr c = Some (mkNode (Some (c_val c)) (c_down c) (first hs)) ∧
    let r' := mkRow (r_hd r) (r_dn r) (lows v (r_cells r) ++ hs) in
    let h2 := <[pre_addr v r := mkNode (value n) (down n) (first hs)]> h in
    Forall (row_at h2) (R1 ++ r' :: R2) ∧ NoDup (addrs (R1 ++ r' :: R2)).
Proof.
  intros Hrows Hnd Hs Hh.
  pose proof Hrows as (Hrows1 & (Hrow & Hrows2)%Forall_cons)%Forall_app.
  rewrite addrs_app, addrs_cons in Hnd.
  pose proof Hnd as (Hnd1 & Hdisj1 & (Hndr & Hdisj2 & Hnd2)%NoDup_app)%NoDup_app.
  destruct (entries_split v r Hs) as (es & x & Hes & Hx & Hent).
  pose proof (lows_highs_sorted v _ Hs) as Hsplit. rewrite Hh in Hsplit, Hent.
  pose proof Hrow as Hseg. unfold row_at in Hseg. rewrite Hent in Hseg.
  apply seg_app in Hseg as [HsegA HsegH].
  pose proof HsegA as [_ [Hn _]]%seg_app. simpl in Hn.
  rewrite Hx in Hn. eexists. split; [exact Hn|].
  split; [by eapply cell_lookup|]. cbv zeta. cbn [value down].
  assert (pre_addr v r ∈ row_addrs r) as Hpre_in.
  { unfold row_addrs. rewrite Hent, fmap_app, fmap_app. rewrite <-Hx.
    apply elem_of_app. left. apply elem_of_app. right. apply list_elem_of_here. }
  assert (NoDup ((es ++ [x]) ++ (cell_entry <$> c :: hs)).*1) as HndE.
  { rewrite <-Hent. exact Hndr. }
  rewrite fmap_app in HndE. apply NoDup_app in HndE as (HndA & HdisjA & HndH).
  split.
  - apply Forall_app. split; [|constructor].
    + apply rows_insert_other; [|done].
      intros Hin. apply (Hdisj1 _ Hin). apply elem_of_app. by left.
    + unfold row_at.
      assert (entries (mkRow (r_hd r) (r_dn r) (lows v (r_cells r) ++ hs))
              = (es ++ [x]) ++ (cell_entry <$> hs)) as ->.
      { rewrite <-Hes. unfold entries. cbn [r_hd r_dn r_cells].
        rewrite fmap_app. done. }
      apply seg_app. rewrite first_or_cells. split.
      * rewrite <-Hx. eapply seg_set_last; [done|]. exact HsegA.
      * apply seg_insert_other.
        -- intros Hin. apply (HdisjA (pre_addr v r)).
           ++ rewrite <-Hx, fmap_app. apply elem_of_app. right.
              apply list_elem_of_here.
           ++ rewrite fmap_cons. by apply list_elem_of_further.
        -- rewrite fmap_cons in HsegH. by destruct HsegH.
    + apply rows_insert_other; [|done].
      intros Hin. by apply (Hdisj2 _ Hpre_in).
  - rewrite addrs_app, addrs_cons.
    eapply sublist_NoDup; [exact Hnd|].
    apply sublist_app; [done|]. apply sublist_app; [|reflexivity].
    rewrite !row_addrs_unfold. cbn [r_hd r_cells]. apply sublist_skip.
    set (L := lows v (r_cells r)) in *.
    rewrite Hsplit. apply fmap_sublist.
    apply sublist_app; [done|]. by apply sublist_cons.
Qed.

(** ** The loop of [remove] *)

Lemma unlink_spec v k s (R1 R2 : list row) r :
  Forall (row_at (heap s)) (R1 ++ r :: R2) →
  NoDup (addrs (R1 ++ r :: R2)) →
  StronglySorted Z.le (vals r) →
  ∃ s',
    unlink v (k, (Some (pre_addr v r), first (highs v (r_cells r)))) s
      = (Ok (), s') ∧
    head_ s' = head_ s ∧
    Forall (row_at (heap s')) (R1 ++ del v r :: R2) ∧
    NoDup (addrs (R1 ++ del v r :: R2)).
Proof.
  intros Hrows Hnd Hs.
  pose proof Hrows as (_ & (Hrow & _)%Forall_cons)%Forall_app.
  unfold unlink. unfold mbind at 1, action_bind at 1, reads at 1.
  rewrite (no_match_row _ _ _ Hrow Hs).
  destruct (holds v (r_cells r)) eqn:Hholds; cbn [negb].
  - destruct (highs v (r_cells r)) as [|c hs] eqn:Hh.
    { unfold holds in Hholds. by rewrite Hh in Hholds. }
    destruct (del_step _ _ _ _ v c hs Hrows Hnd Hs Hh)
      as (n & Hn & Hc & Hrows' & Hnd').
    rewrite (del_holds v r c hs Hh Hholds).
    exists (mkSkipList
      (<[pre_addr v r := mkNode (value n) (down n) (first hs)]> (heap s))
      (head_ s)).
    split; [|split; [|split; [exact Hrows'|exact Hnd']]].
    + unfold mbind at 1, action_bind at 1, reads at 1. rewrite first_cons.
      rewrite (deref_Some _ _ _ Hc).
      unfold mbind at 1, action_bind at 1, reads at 1.
      unfold set_right. rewrite (deref_Some _ _ _ Hn), bind_Ok.
      cbn [right]. done.
    + done.
  - exists s. rewrite (del_id _ _ Hs Hholds). done.
Qed.

Lemma unlink_loop_spec v :
  ∀ (R2 R1 : list row) s k,
    Forall (row_at (heap s)) (R1 ++ R2) →
    NoDup (addrs (R1 ++ R2)) →
    Forall (λ r, StronglySorted Z.le (vals r)) R2 →
    ∃ s',
      for_each (tracked_of v k R2) (unlink v) s = (Ok (), s') ∧
      head_ s' = head_ s ∧
      Forall (row_at (heap s')) (R1 ++ (del v <$> R2)) ∧
      NoDup (addrs (R1 ++ (del v <$> R2))).
Proof.
  induction R2 as [|r R2 IH]; intros R1 s k Hrows Hnd Hsort.
  - by exists s.
  - apply Forall_cons in Hsort as [Hs Hsort].
    destruct (unlink_spec v k s R1 R2 r Hrows Hnd Hs)
      as (s1 & Hun & Hhead1 & Hrows1 & Hnd1).
    destruct (IH (R1 ++ [del v r]) s1 (k + 1)) as (s' & Hrun & Hhead & Hrows' & Hnd').
    + by rewrite <-app_assoc.
    + by rewrite <-app_assoc.
    + done.
    + exists s'. rewrite <-app_assoc in Hrows', Hnd'.
      split; [|split; [congruence|done]].
      cbn [tracked_of for_each]. unfold mbind at 1, action_bind at 1.
      by rewrite Hun.
Qed.

(** ** [clean_head] *)

Lemma trim_snoc (rs : list row) r :
  trim (rs ++ [r]) =
    match rs, r_cells r with
    | _ :: _, [] => trim rs
    | _, _ => rs ++ [r]
    end.
Proof.
  unfold trim. rewrite reverse_snoc. simpl.
  destruct rs as [|r0 rs _] using rev_ind; [done|].
  rewrite reverse_snoc.
  destruct (r_cells r).
  - by destruct (rs ++ [r0]) eqn:E; [destruct rs|].
  - rewrite <-reverse_snoc, <-reverse_snoc, reverse_involutive.
    by destruct (rs ++ [r0]) eqn:E; [destruct rs|].
Qed.

Lemma trim_take (rs : list row) :
  rs ≠ [] → ∃ k, (0 < k)%nat ∧ trim rs = take k rs.
Proof.
  induction rs as [|r rs IH] using rev_ind; [done|]. intros _.
  rewrite trim_snoc.
  destruct rs as [|r0 rs'] eqn:E.
  - exists 1%nat. split; [lia|]. by destruct (r_cells r).
  - rewrite <-E in *. destruct (r_cells r).
    + destruct IH as (k & Hk & Htrim); [by rewrite E|].
      exists (min k (length rs)). split.
      * rewrite E. simpl. lia.
      * rewrite Htrim, take_app_le by lia.
        destruct (decide (k ≤ length rs)%nat).
        -- by rewrite Nat.min_l by lia.
        -- rewrite Nat.min_r by lia. by rewrite !take_ge by lia.
    + exists (length (rs ++ [r0; r])). split.
      * rewrite length_app. simpl. lia.
      * rewrite take_ge; [done|]. rewrite !length_app. simpl. lia.
Qed.

Lemma clean_head_loop_spec (rs : list row) :
  ∀ s fuel,
    rs ≠ [] →
    Forall (row_at (heap s)) rs →
    wf_order rs →
    head_ s = r_hd <$> last rs →
    (length rs ≤ fuel)%nat →
    clean_head_loop fuel s
      = (Ok (), mkSkipList (heap s) (r_hd <$> last (trim rs))).
Proof.
  induction rs as [|r rs IH] using rev_ind; [done|].
  intros s fuel _ Hrows Hwf Hhead Hfuel.
  rewrite length_app in Hfuel. simpl in Hfuel.
  destruct fuel as [|fuel]; [lia|].
  rewrite last_snoc in Hhead. simpl in Hhead.
  assert ((rs ++ [r]) !! length rs = Some r) as Hr by by apply list_lookup_middle.
  pose proof (sentinel_lookup _ _ Hrows _ _ Hr) as Hn.
  pose proof (sentinel_down _ Hwf _ _ Hr) as Hdn.
  cbn [clean_head_loop]. unfold mbind at 1, action_bind at 1, reads at 1.
  rewrite Hhead, (deref_Some _ _ _ Hn). cbn [right down].
  rewrite trim_snoc.
  destruct rs as [|r0 rs'] eqn:E.
  - simpl in Hdn. rewrite Hdn.
    destruct s as [h hd]. simpl in *. rewrite Hhead.
    by destruct (first (r_cells r)), (r_cells r).
  - rewrite <-E in *.
    assert (rs ≠ []) as Hne by by rewrite E.
    assert (length rs = S (length rs')) as Hlen by by rewrite E.
    rewrite Hlen in Hdn. rewrite Hlen in Hr.
    assert (r_dn r = r_hd <$> last rs) as Hdn'.
    { rewrite Hdn, last_lookup, Hlen. simpl.
      rewrite lookup_app_l by lia. done. }
    destruct (r_cells r) as [|c cs] eqn:Hcells.
    + simpl. rewrite Hdn'.
      destruct (last rs) as [top|] eqn:Htop.
      2:{ by apply last_None in Htop. }
      simpl. unfold mbind at 1, action_bind at 1, put_head at 1.
      rewrite (IH _ fuel Hne); simpl; try done; try lia.
      * by apply Forall_app in Hrows as [? _].
      * replace rs with (take (length rs) (rs ++ [r])) by by rewrite take_app_length.
        apply wf_order_take; [lia|done].
    + simpl. destruct s as [h hd]. simpl in *. rewrite Hhead.
      by rewrite E, last_snoc.
Qed.

(** ** [remove] *)

Lemma repr_trim h p (rs : list row) :
  Forall (row_at h) rs → NoDup (addrs rs) → wf_order rs →
  p = r_hd <$> last (trim rs) →
  repr (mkSkipList h p) (trim rs).
Proof.
  intros Hrows Hnd Hwf ->.
  destruct (trim_take rs (wf_nonempty _ Hwf)) as (k & Hk & ->).
  split; simpl.
  - by apply Forall_take.
  - eapply sublist_NoDup; [exact Hnd|].
    unfold addrs. apply bind_sublist. apply sublist_take.
  - by apply wf_order_take.
  - done.
Qed.

Lemma remove_unfold v s (rs : list row) r0 :
  repr s rs → rs !! 0%nat = Some r0 →
  remove v s =
    if holds v (r_cells r0)
    then (for_each (tracked_of v 0 rs) (unlink v);; clean_head) s
    else (Throw NoSuchValue, s).
Proof.
  intros Hrepr Hr0.
  pose proof (map_at_tracked_of v 0 rs 0 r0 Hr0) as Hat.
  change (0 + Z.of_nat 0) with 0 in Hat.
  unfold remove. unfold mbind at 1, action_bind at 1, reads at 1.
  rewrite (traverse_spec _ _ Hrepr).
  unfold mbind at 1, action_bind at 1, pure at 1. rewrite Hat.
  unfold mbind at 1, action_bind at 1, reads at 1.
  rewrite (no_match_spec _ _ Hrepr v _ _ Hr0).
  by destruct (holds v (r_cells r0)).
Qed.

Lemma remove_spec v s (rs : list row) :
  repr s rs →
  ∃ r0, rs !! 0%nat = Some r0 ∧
    if holds v (r_cells r0)
    then ∃ s', remove v s = (Ok (), s') ∧ repr s' (trim (del v <$> rs))
    else remove v s = (Throw NoSuchValue, s).
Proof.
  intros Hrepr. destruct (repr_bottom _ _ Hrepr) as [r0 Hr0].
  exists r0. split; [done|].
  rewrite (remove_unfold v s rs r0 Hrepr Hr0).
  destruct (holds v (r_cells r0)) eqn:Hholds; [|done].
  destruct (unlink_loop_spec v rs [] s 0) as (s1 & Hrun & Hhead & Hrows & Hnd).
  { apply Hrepr. } { apply Hrepr. }
  { apply Forall_forall. apply (wf_sorted _ (repr_order _ _ Hrepr)). }
  simpl in Hrows, Hnd.
  unfold mbind at 1, action_bind at 1. rewrite Hrun.
  pose proof (del_rows_wf v rs (repr_order _ _ Hrepr)) as Hwf.
  unfold clean_head.
  rewrite (clean_head_loop_spec (del v <$> rs)); try done.
  - eexists. split; [done|]. by apply repr_trim.
  - apply (wf_nonempty _ Hwf).
  - rewrite Hhead, (repr_head _ _ Hrepr), fmap_last.
    by destruct (last rs).
  - pose proof (rows_length _ _ Hrows Hnd). unfold fuel_of. lia.
Qed.

(** ** The container as a sorted list of values *)

Lemma repr_empty : repr empty [mkRow 0 None []].
Proof.
  split; simpl.
  - constructor; [|done]. apply row_at_unfold. done.
  - unfold addrs. simpl. apply NoDup_singleton.
  - split.
    + done.
    + intros r ->%list_elem_of_singleton. constructor.
    + intros r [= <-]. done.
    + intros i lo up _ Hup. destruct i; done.
  - done.
Qed.

Lemma stores_empty : stores empty [].
Proof. exists [mkRow 0 None []], (mkRow 0 None []). split; [apply repr_empty|done]. Qed.

Lemma stores_sorted s l : stores s l → StronglySorted Z.le l.
Proof.
  intros (rs & r0 & Hrepr & Hr0 & <-).
  apply (wf_sorted _ (repr_order _ _ Hrepr)). by eapply list_elem_of_lookup_2.
Qed.

Lemma stores_iter s l : stores s l → iter s = Ok l.
Proof.
  intros (rs & r0 & Hrepr & Hr0 & <-).
  destruct (iter_spec _ _ Hrepr) as (r & Hr & ->). congruence.
Qed.

Lemma stores_find s l v : stores s l → find v s = Ok (bool_decide (v ∈ l)).
Proof.
  intros Hst. pose proof (stores_sorted _ _ Hst) as Hs.
  destruct Hst as (rs & r0 & Hrepr & Hr0 & <-).
  destruct (find_spec _ _ Hrepr v) as (r & Hr & ->).
  assert (r = r0) as -> by congruence. f_equal.
  pose proof (holds_spec v (r_cells r0) Hs) as Hiff.
  destruct (holds v (r_cells r0)).
  - symmetry. apply bool_decide_eq_true. by apply Hiff.
  - symmetry. apply bool_decide_eq_false. intros Hin. apply Hiff in Hin. done.
Qed.

Lemma stores_add s l level v :
  stores s l → 0 ≤ level →
  ∃ s' l', add level v s = (Ok (), s') ∧ stores s' l' ∧ l' ≡ₚ v :: l.
Proof.
  intros Hst Hlevel. pose proof (stores_sorted _ _ Hst) as Hs.
  destruct Hst as (rs & r0 & Hrepr & Hr0 & <-).
  destruct (add_spec level v s rs Hrepr Hlevel) as (s' & rs' & Hadd & Hrepr' & ->).
  set (k := Z.to_nat (level + 1 - Z.of_nat (length rs))) in *.
  exists s', (vals (ins v (length (heap s) + k) None r0)).
  split; [done|]. split.
  - eexists _, _. split; [exact Hrepr'|]. split; [|done].
    rewrite ins_rows_lookup, decide_True by lia.
    rewrite lookup_app_l by (by eapply lookup_lt_Some).
    rewrite Hr0. simpl. by rewrite Nat.add_0_r.
  - unfold vals, ins. simpl. rewrite fmap_app, fmap_cons. simpl.
    rewrite <-Permutation_middle. constructor. rewrite <-fmap_app.
    by rewrite <-lows_highs_sorted.
Qed.

Lemma trim_bottom (rs : list row) : rs ≠ [] → trim rs !! 0%nat = rs !! 0%nat.
Proof.
  intros Hne. destruct (trim_take rs Hne) as (k & Hk & ->).
  by apply lookup_take_lt.
Qed.

Lemma stores_remove s l v :
  stores s l →
  if bool_decide (v ∈ l)
  then ∃ s' l', remove v s = (Ok (), s') ∧ stores s' l' ∧ l ≡ₚ v :: l'
  else remove v s = (Throw NoSuchValue, s).
Proof.
  intros Hst. pose proof (stores_sorted _ _ Hst) as Hs.
  destruct Hst as (rs & r0 & Hrepr & Hr0 & <-).
  destruct (remove_spec v s rs Hrepr) as (r & Hr & Hrem).
  assert (r = r0) as -> by congruence.
  pose proof (holds_spec v (r_cells r0) Hs) as Hiff.
  destruct (holds v (r_cells r0)) eqn:Hholds.
  - rewrite bool_decide_eq_true_2 by by apply Hiff.
    destruct Hrem as (s' & Hrem & Hrepr').
    exists s', (vals (del v r0)). split; [done|]. split.
    + eexists _, _. split; [exact Hrepr'|]. split; [|done].
      rewrite trim_bottom, list_lookup_fmap, Hr0; [done|].
      by destruct rs.
    + unfold holds in Hholds.
      destruct (highs v (r_cells r0)) as [|c hs] eqn:Hh; [done|].
      apply Z.eqb_eq in Hholds.
      rewrite (del_holds v r0 c hs Hh); [|unfold holds; rewrite Hh; lia].
      unfold vals at 2. simpl. rewrite fmap_app.
      unfold vals. rewrite (lows_highs_sorted v _ Hs) at 1.
      rewrite Hh, fmap_app, fmap_cons, Hholds.
      by rewrite <-Permutation_middle.
  - rewrite bool_decide_eq_false_2; [done|].
    intros Hin. apply Hiff in Hin. done.
Qed.

(** ** Sequences of calls *)

Lemma exec_stores c s l :
  stores s l →
  ∃ r s' l', exec c s = (r, s') ∧ stores s' l' ∧
    match c, r with
    | Add _ v, Ok _ => (l' ≡ₚ v :: l)
    | Remove v, Ok _ => (v ∈ l) ∧ (l ≡ₚ v :: l')
    | Remove v, Throw NoSuchValue => (v ∉ l) ∧ l' = l ∧ s' = s
    | _, _ => False
    end.
Proof.
  intros Hst. destruct c as [level v|v]; simpl.
  - destruct (stores_add s l (Z.of_nat level) v Hst) as (s' & l' & Hadd & Hst' & Hp);
      [lia|].
    by exists (Ok ()), s', l'.
  - pose proof (stores_remove s l v Hst) as Hrem.
    destruct (bool_decide (v ∈ l)) eqn:Hin.
    + apply bool_decide_eq_true in Hin.
      destruct Hrem as (s' & l' & Hrem & Hst' & Hp).
      by exists (Ok ()), s', l'.
    + apply bool_decide_eq_false in Hin.
      by exists (Throw NoSuchValue), s, l.
Qed.

Lemma run_cons c cs s :
  run (c :: cs) s =
    ((exec c s).1 :: (run cs (exec c s).2).1, (run cs (exec c s).2).2).
Proof. simpl. destruct (exec c s) as [r s1]. simpl. by destruct (run cs s1). Qed.

Lemma run_app cs1 cs2 s :
  run (cs1 ++ cs2) s =
    ((run cs1 s).1 ++ (run cs2 (run cs1 s).2).1, (run cs2 (run cs1 s).2).2).
Proof.
  revert s. induction cs1 as [|c cs1 IH]; intros s.
  - simpl. by destruct (run cs2 s).
  - rewrite <-app_comm_cons, !run_cons, IH. done.
Qed.

Lemma after_snoc cs c : after (cs ++ [c]) = (exec c (after cs)).2.
Proof.
  unfold after. rewrite run_app. simpl.
  by destruct (exec c (run cs empty).2).
Qed.

Lemma run_stores cs s l :
  stores s l → ∃ l', stores (run cs s).2 l'.
Proof.
  revert s l. induction cs as [|c cs IH]; intros s l Hst.
  - by exists l.
  - rewrite run_cons. simpl.
    destruct (exec_stores c s l Hst) as (r & s' & l' & Hex & Hst' & _).
    rewrite Hex. simpl. by eapply IH.
Qed.

Lemma after_stores cs : ∃ l, stores (after cs) l.
Proof. apply (run_stores cs empty []), stores_empty. Qed.

Lemma run_multiset cs s l :
  stores s l →
  ∃ l', stores (run cs s).2 l' ∧
    list_to_set_disj (removed cs (run cs s).1)
      ⊆@{gmultiset Z} list_to_set_disj l ⊎ list_to_set_disj (added cs) ∧
    list_to_set_disj l' =@{gmultiset Z}
      (list_to_set_disj l ⊎ list_to_set_disj (added cs))
        ∖ list_to_set_disj (removed cs (run cs s).1).
Proof.
  revert s l. induction cs as [|c cs IH]; intros s l Hst.
  - exists l. simpl. split; [done|]. split; multiset_solver.
  - rewrite run_cons. cbn [fst snd].
    destruct (exec_stores c s l Hst) as (r & s1 & l1 & Hex & Hst1 & Hc).
    rewrite Hex. cbn [fst snd].
    destruct (IH s1 l1 Hst1) as (l' & Hst' & Hsub & Heq).
    exists l'. split; [done|].
    destruct c as [level v|v]; destruct r as [[]|e]; try done; simpl.
    + rewrite Hc in Hsub, Heq. simpl in Hsub, Heq. split; multiset_solver.
    + destruct Hc as [Hin Hp]. rewrite Hp. simpl.
      rewrite Heq. split; multiset_solver.
    + destruct e; try done. destruct Hc as (Hnin & -> & ->).
      split; [done|]. done.
Qed.

(** ** Iteration, membership and duplicates *)

(** C1. After any finite sequence of [add] and [remove] calls on an empty
    container, whatever levels the insertions drew, [iter] ends and yields
    the values in non-decreasing order, and as a multiset they are the
    values added minus the values of the [remove] calls that succeeded. *)
Theorem iter_sorted_multiset (cs : list call) :
  ∃ l, iter (after cs) = Ok l ∧
    StronglySorted Z.le l ∧
    list_to_set_disj l =@{gmultiset Z}
      list_to_set_disj (added cs)
        ∖ list_to_set_disj (removed cs (run cs empty).1).
Proof.
  destruct (run_multiset cs empty [] stores_empty) as (l & Hst & _ & Heq).
  exists l. split; [by apply stores_iter|]. split; [by eapply stores_sorted|].
  rewrite Heq. simpl. multiset_solver.
Qed.

(** C2. Right after a call [add(v)], [find(v)] returns true, whatever
    calls came before and whatever level the insertion drew. *)
Theorem find_after_add (cs : list call) (level : nat) (v : Z) :
  find v (after (cs ++ [Add level v])) = Ok true.
Proof.
  rewrite after_snoc. destruct (after_stores cs) as [l Hst].
  destruct (exec_stores (Add level v) _ _ Hst) as (r & s' & l' & Hex & Hst' & Hc).
  rewrite Hex. simpl. destruct r as [[]|]; [|done].
  rewrite (stores_find _ _ v Hst'). f_equal.
  apply bool_decide_eq_true. rewrite Hc. apply list_elem_of_here.
Qed.

Lemma run_adds v (levels : list nat) s l :
  stores s l →
  ∃ l', stores (run ((λ level, Add level v) <$> levels) s).2 l' ∧
    l' ≡ₚ replicate (length levels) v ++ l ∧
    (run ((λ level, Add level v) <$> levels) s).1
      = replicate (length levels) (Ok ()).
Proof.
  revert s l. induction levels as [|level levels IH]; intros s l Hst.
  - by exists l.
  - rewrite fmap_cons, run_cons. cbn [fst snd].
    destruct (exec_stores (Add level v) s l Hst)
      as (r & s1 & l1 & Hex & Hst1 & Hc).
    rewrite Hex. cbn [fst snd]. destruct r as [[]|]; [|done].
    destruct (IH s1 l1 Hst1) as (l' & Hst' & Hp & Hres).
    exists l'. split; [done|]. split.
    + rewrite Hp, Hc. simpl. by rewrite <-Permutation_middle.
    + simpl. by rewrite Hres.
Qed.

Lemma run_removes v (j m : nat) s l l0 :
  stores s l → l ≡ₚ replicate m v ++ l0 → (j ≤ m)%nat →
  ∃ l', stores (run (replicate j (Remove v)) s).2 l' ∧
    l' ≡ₚ replicate (m - j) v ++ l0 ∧
    (run (replicate j (Remove v)) s).1 = replicate j (Ok ()).
Proof.
  revert m s l. induction j as [|j IH]; intros m s l Hst Hp Hj.
  - exists l. rewrite Nat.sub_0_r. done.
  - destruct m as [|m]; [lia|].
    cbn [replicate]. rewrite run_cons. cbn [fst snd].
    destruct (exec_stores (Remove v) s l Hst)
      as (r & s1 & l1 & Hex & Hst1 & Hc).
    rewrite Hex. cbn [fst snd].
    destruct r as [[]|e].
    + destruct Hc as [_ Hc].
      destruct (IH m s1 l1 Hst1) as (l' & Hst' & Hp' & Hres); [|lia|].
      * rewrite Hc in Hp. simpl in Hp. by apply (inj (cons v)) in Hp.
      * exists l'. split; [done|]. split; [done|]. by rewrite Hres.
    + destruct e; try done. destruct Hc as (Hnin & _ & _).
      exfalso. apply Hnin. rewrite Hp. simpl. apply list_elem_of_here.
Qed.

Lemma remove_none v s l :
  stores s l → v ∉ l →
  run [Remove v] s = ([Throw NoSuchValue], s).
Proof.
  intros Hst Hnin. simpl.
  pose proof (stores_remove s l v Hst) as Hrem.
  rewrite bool_decide_eq_false_2 in Hrem by done. by rewrite Hrem.
Qed.

(** C3. On a container that does not hold [v] (the empty one, or one
    reached by any calls after which [find(v)] is false): after [k >= 1]
    calls [add(v)] and [j <= k] calls [remove(v)], all of which succeed,
    [find(v)] is true exactly when [j < k]; of the [remove(v)] calls that
    follow, the first [k - j] succeed and the [(k - j + 1)]-th fails with
    NotFound. *)
Theorem duplicates_counted (before_calls : list call) (v : Z)
    (levels : list nat) (j : nat) :
  find v (after before_calls) = Ok false →
  (1 ≤ length levels)%nat → (j ≤ length levels)%nat →
  let k := length levels in
  let calls := ((λ level, Add level v) <$> levels) ++ replicate j (Remove v) in
  let s := (run calls (after before_calls)).2 in
  (run calls (after before_calls)).1 = replicate (k + j) (Ok ()) ∧
  find v s = Ok (bool_decide (j < k)%nat) ∧
  (run (replicate (k - j + 1) (Remove v)) s).1
    = replicate (k - j) (Ok ()) ++ [Throw NoSuchValue].
Proof.
  intros Hfind Hk Hj k calls s. unfold s, calls. clear s calls.
  rewrite run_app. cbn [fst snd].
  destruct (after_stores before_calls) as [l0 Hst0].
  assert (v ∉ l0) as Hnin.
  { rewrite (stores_find _ _ v Hst0) in Hfind. injection Hfind as Hfind.
    by apply bool_decide_eq_false in Hfind. }
  destruct (run_adds v levels _ l0 Hst0) as (l1 & Hst1 & Hp1 & Hres1).
  destruct (run_removes v j k _ l1 l0 Hst1) as (l2 & Hst2 & Hp2 & Hres2);
    [done|done|].
  rewrite Hres1, Hres2. split; [by rewrite replicate_add|]. split.
  - rewrite (stores_find _ _ v Hst2). f_equal. apply bool_decide_ext.
    rewrite Hp2. split.
    + intros Hin. destruct (decide (j < k)%nat); [done|].
      replace (k - j)%nat with 0%nat in Hin by lia. done.
    + intros Hlt. destruct (k - j)%nat eqn:E; [lia|]. apply list_elem_of_here.
  - rewrite Nat.add_1_r, replicate_S_end, run_app. cbn [fst snd].
    destruct (run_removes v (k - j) (k - j) _ l2 l0 Hst2)
      as (l3 & Hst3 & Hp3 & Hres3); [done|done|].
    rewrite Nat.sub_diag in Hp3. simpl in Hp3.
    rewrite Hres3. f_equal.
    rewrite (remove_none v _ l3 Hst3); [done|]. by rewrite Hp3.
Qed.

Lemma duplicates_counted_witness :
  (find 5 (after [Add 1 3; Add 0 8]) = Ok false ∧
   (1 ≤ length [0; 2]%nat)%nat ∧ (1 ≤ length [0; 2]%nat)%nat) ∧
  (run ([Add 0 5; Add 2 5] ++ [Remove 5]) (after [Add 1 3; Add 0 8])).1
    = replicate 3 (Ok ()) ∧
  find 5 (run ([Add 0 5; Add 2 5] ++ [Remove 5]) (after [Add 1 3; Add 0 8])).2
    = Ok true ∧
  (run [Remove 5; Remove 5]
     (run ([Add 0 5; Add 2 5] ++ [Remove 5]) (after [Add 1 3; Add 0 8])).2).1
    = [Ok (); Throw NoSuchValue].
Proof.
  split; [split; [reflexivity|simpl; lia]|].
  apply (duplicates_counted [Add 1 3; Add 0 8] 5 [0; 2]%nat 1);
    [reflexivity|simpl; lia|simpl; lia].
Defined.

(** ** What a walk from [head_] sees in a well-formed container *)

Lemma chain_spec h (cs : list cell) fuel :
  seg h (cell_entry <$> cs) None → (length cs < fuel)%nat →
  chain fuel h (first cs) = Ok (c_addr <$> cs).
Proof.
  revert fuel. induction cs as [|c cs IH]; intros fuel Hseg Hfuel;
    (destruct fuel as [|fuel]; [simpl in Hfuel; lia|]); [done|].
  destruct (proj1 (seg_cells_cons _ _ _ _) Hseg) as [Hc Hseg'].
  rewrite first_cons. cbn [chain]. rewrite (deref_Some _ _ _ Hc), bind_Ok.
  cbn [right]. rewrite first_or_cells, IH by (done || simpl in Hfuel; lia).
  done.
Qed.

Lemma level_of_spec h r :
  row_at h r → NoDup (row_addrs r) →
  level_of h (r_hd r) = Ok (cell_addrs r).
Proof.
  intros Hrow Hnd. pose proof Hrow as [Hhd Hseg]%row_at_unfold.
  unfold level_of. rewrite (deref_Some _ _ _ Hhd), bind_Ok. cbn [right].
  apply chain_spec; [done|].
  pose proof (row_cells_length _ _ Hrow Hnd). unfold fuel_of. lia.
Qed.

Lemma collect_levels h (rs : list row) :
  Forall (row_at h) rs → Forall (λ r, NoDup (row_addrs r)) rs →
  collect (level_of h) (r_hd <$> rs) = Ok (cell_addrs <$> rs).
Proof.
  induction 1 as [|r rs Hr _ IH]; intros Hnd; [done|].
  apply Forall_cons in Hnd as [Hndr Hnd].
  rewrite !fmap_cons. cbn [collect].
  by rewrite (level_of_spec _ _ Hr Hndr), bind_Ok, (IH Hnd).
Qed.

Section column.
Context (h : list Node) (rs : list row).
Hypothesis Hrows : Forall (row_at h) rs.
Hypothesis Hwf : wf_order rs.

Lemma column_spec i r fuel :
  rs !! i = Some r → (S i < fuel)%nat →
  column fuel h (Some (r_hd r)) = Ok (reverse (r_hd <$> take (S i) rs)).
Proof.
  revert r fuel. induction i as [|j IH]; intros r fuel Hr Hfuel;
    (destruct fuel as [|fuel]; [lia|]); cbn [column];
    rewrite (deref_Some _ _ _ (sentinel_lookup _ _ Hrows _ _ Hr)), bind_Ok;
    cbn [down]; rewrite (sentinel_down _ Hwf _ _ Hr);
    rewrite (take_S_r _ _ _ Hr), fmap_app, reverse_app.
  - destruct fuel as [|fuel]; [lia|]. done.
  - destruct (rs !! j) as [lo|] eqn:Hlo.
    + simpl. by rewrite (IH lo) by (done || lia).
    + apply lookup_ge_None in Hlo. apply lookup_lt_Some in Hr. lia.
Qed.
End column.

Lemma levels_spec s (rs : list row) :
  repr s rs → levels s = Ok (cell_addrs <$> rs).
Proof.
  intros Hrepr. destruct (repr_top _ _ Hrepr) as (top & Htop & Hhead).
  pose proof (repr_length _ _ Hrepr) as Hlen.
  unfold levels. rewrite Hhead.
  rewrite (column_spec (heap s) rs (repr_rows _ _ Hrepr) (repr_order _ _ Hrepr)
             (pred (length rs)) top _ Htop) by (unfold fuel_of; lia).
  rewrite bind_Ok, reverse_involutive.
  replace (S (pred (length rs))) with (length rs) by lia.
  rewrite take_ge by lia.
  apply collect_levels; [apply Hrepr|].
  apply Forall_forall. intros r (i & Hr)%list_elem_of_lookup.
  eapply row_NoDup; [apply Hrepr|done].
Qed.

Lemma column_repr s (rs : list row) :
  repr s rs →
  column (fuel_of (heap s)) (heap s) (head_ s) = Ok (reverse (r_hd <$> rs)).
Proof.
  intros Hrepr. destruct (repr_top _ _ Hrepr) as (top & Htop & Hhead).
  pose proof (repr_length _ _ Hrepr) as Hlen. rewrite Hhead.
  rewrite (column_spec (heap s) rs (repr_rows _ _ Hrepr) (repr_order _ _ Hrepr)
             (pred (length rs)) top _ Htop) by (unfold fuel_of; lia).
  replace (S (pred (length rs))) with (length rs) by lia.
  by rewrite take_ge by lia.
Qed.

Lemma after_repr cs : ∃ rs, repr (after cs) rs.
Proof. destruct (after_stores cs) as (l & rs & _ & Hrepr & _). by exists rs. Qed.

(** ** A [remove] that finds nothing *)

(** C4. In a container reached by public calls, when the level-0 successor
    [traverse] records for [v] is absent or holds another value, [v] is not
    among the values of the container, [remove(v)] fails with NotFound, and
    the container it leaves is the one it was given: same store, same
    [head_], hence the same [iter]. *)
Theorem remove_absent_unchanged (cs : list call) (v : Z)
    (tracked : tracked_map) (pre cur : ptr) :
  traverse v (after cs) = Ok tracked →
  map_at 0 tracked = Ok (pre, cur) →
  no_match (heap (after cs)) v cur = Ok true →
  remove v (after cs) = (Throw NoSuchValue, after cs) ∧
  iter (remove v (after cs)).2 = iter (after cs) ∧
  ∃ l, iter (after cs) = Ok l ∧ v ∉ l.
Proof.
  intros Htr Hat Hno.
  assert (remove v (after cs) = (Throw NoSuchValue, after cs)) as Hrem.
  { unfold remove. unfold mbind at 1, action_bind at 1, reads at 1.
    rewrite Htr. unfold mbind at 1, action_bind at 1, pure at 1. rewrite Hat.
    unfold mbind at 1, action_bind at 1, reads at 1. by rewrite Hno. }
  split; [done|]. split; [by rewrite Hrem|].
  destruct (after_stores cs) as [l Hst]. exists l.
  split; [by apply stores_iter|].
  pose proof (stores_sorted _ _ Hst) as Hs.
  destruct Hst as (rs & r0 & Hrepr & Hr0 & <-).
  rewrite (traverse_spec _ _ Hrepr) in Htr. injection Htr as <-.
  pose proof (map_at_tracked_of v 0 rs 0 r0 Hr0) as Hat'.
  change (0 + Z.of_nat 0) with 0 in Hat'. rewrite Hat' in Hat.
  injection Hat as _ <-.
  rewrite (no_match_spec _ _ Hrepr v _ _ Hr0) in Hno. injection Hno as Hno.
  intros Hin%(holds_spec v _ Hs). rewrite Hin in Hno. done.
Qed.

Lemma remove_absent_unchanged_witness :
  (traverse 7 (after [Add 0 5]) = Ok [(0, (Some 1%nat, None))] ∧
   map_at 0 [(0, (Some 1%nat, None))] = Ok (Some 1%nat, None) ∧
   no_match (heap (after [Add 0 5])) 7 None = Ok true) ∧
  remove 7 (after [Add 0 5]) = (Throw NoSuchValue, after [Add 0 5]) ∧
  iter (remove 7 (after [Add 0 5])).2 = iter (after [Add 0 5]) ∧
  ∃ l, iter (after [Add 0 5]) = Ok l ∧ 7 ∉ l.
Proof.
  split; [repeat split; reflexivity|].
  apply (remove_absent_unchanged [Add 0 5] 7 [(0, (Some 1%nat, None))]
           (Some 1%nat) None); reflexivity.
Defined.

(** ** The checks of [traverse] *)

(** C7. In a container reached by public calls, the descent of [traverse]
    ends with a null pointer and the level counter at -1, with one record
    per sentinel of the head column, and [height] is the number of these
    sentinels; the same holds for the [traverse] that [add] runs after
    [ensure_height]. So [check] never throws: [find] and [add] return, and
    [remove] returns or throws NotFound. *)
Theorem traverse_checks_hold (cs : list call) (v : Z) (level : nat) :
  (∃ col tracked,
     column (fuel_of (heap (after cs))) (heap (after cs)) (head_ (after cs))
       = Ok col ∧
     height (after cs) = Ok (Z.of_nat (length col)) ∧
     traverse_loop v (after cs) = Ok (None, -1, tracked) ∧
     traverse v (after cs) = Ok tracked ∧
     length tracked = length col) ∧
  (∃ s1 tracked,
     ensure_height (Z.of_nat level + 1) (after cs) = (Ok (), s1) ∧
     traverse_loop v s1 = Ok (None, -1, tracked) ∧
     traverse v s1 = Ok tracked) ∧
  (∃ b, find v (after cs) = Ok b) ∧
  (∃ s', add (Z.of_nat level) v (after cs) = (Ok (), s')) ∧
  (∃ s', remove v (after cs) = (Ok (), s') ∨
         remove v (after cs) = (Throw NoSuchValue, s')).
Proof.
  destruct (after_stores cs) as [l Hst].
  pose proof Hst as (rs & r0 & Hrepr & Hr0 & Hl).
  split; [|split; [|split; [|split]]].
  - exists (reverse (r_hd <$> rs)), (tracked_of v 0 rs).
    split; [by apply column_repr|].
    rewrite length_reverse, length_fmap.
    split; [by apply height_spec|].
    split; [by apply traverse_loop_spec|].
    split; [by apply traverse_spec|].
    generalize 0. clear. induction rs as [|r rs IH]; intros k; simpl; auto.
  - destruct (ensure_height_spec (Z.of_nat level + 1) _ rs Hrepr)
      as (s1 & Hens & Hrepr1 & _); [lia|].
    eexists s1, _. split; [done|].
    split; [by apply traverse_loop_spec|by apply traverse_spec].
  - eexists. by apply stores_find.
  - destruct (stores_add _ _ (Z.of_nat level) v Hst) as (s' & _ & Hadd & _);
      [lia|]. by exists s'.
  - pose proof (stores_remove _ _ v Hst) as Hrem.
    destruct (bool_decide (v ∈ l)).
    + destruct Hrem as (s' & _ & Hrem & _). exists s'. by left.
    + exists (after cs). by right.
Qed.

(** ** The height *)

Lemma clean_head_loop_unfold fuel s :
  clean_head_loop (S fuel) s =
    match deref (heap s) (head_ s) with
    | Throw e => (Throw e, s)
    | Ok n =>
        match right n, down n with
        | None, Some d => clean_head_loop fuel (mkSkipList (heap s) (Some d))
        | _, _ => (Ok (), s)
        end
    end.
Proof.
  cbn [clean_head_loop]. unfold mbind at 1, action_bind at 1, reads at 1.
  destruct (deref (heap s) (head_ s)) as [n|e]; [|done].
  destruct (right n); [done|]. destruct (down n) eqn:E; [|done].
  unfold mbind, action_bind, put_head. done.
Qed.

Lemma clean_head_pops fuel s :
  heap (clean_head_loop fuel s).2 = heap s ∧
  ∃ path,
    popped (heap s) (head_ s) path (head_ (clean_head_loop fuel s).2).
Proof.
  revert s. induction fuel as [|fuel IH]; intros s.
  - split; [done|]. exists []. reflexivity.
  - rewrite clean_head_loop_unfold.
    destruct (deref (heap s) (head_ s)) as [n|e] eqn:Hn.
    2:{ split; [done|]. exists []. reflexivity. }
    destruct (right n) as [b|] eqn:Hright.
    { split; [done|]. exists []. reflexivity. }
    destruct (down n) as [d|] eqn:Hdown.
    2:{ split; [done|]. exists []. reflexivity. }
    destruct (IH (mkSkipList (heap s) (Some d))) as [Hheap [path Hpath]].
    cbn [heap head_] in *. split; [done|].
    destruct (head_ s) as [a|] eqn:Hhead; [|done].
    exists (a :: path). simpl. split; [done|].
    unfold deref in Hn. destruct (heap s !! a) as [n'|] eqn:Ha; [|done].
    injection Hn as ->. exists n. rewrite Hdown. by eauto.
Qed.

(** C8. In a container reached by public calls, [height] returns a number
    that is at least 1 and [head_] points to a sentinel.  The shrink step
    of [remove] changes only [head_], and the sentinels it pops each had no
    [right] neighbour and a level below. *)
Theorem height_at_least_one (cs : list call) (s : SkipList) :
  (∃ n a nd,
     height (after cs) = Ok n ∧ 1 ≤ n ∧
     head_ (after cs) = Some a ∧ heap (after cs) !! a = Some nd ∧
     value nd = None) ∧
  heap (clean_head s).2 = heap s ∧
  ∃ path, popped (heap s) (head_ s) path (head_ (clean_head s).2).
Proof.
  split; [|apply clean_head_pops].
  destruct (after_repr cs) as [rs Hrepr].
  destruct (repr_top _ _ Hrepr) as (top & Htop & Hhead).
  pose proof (repr_length _ _ Hrepr) as Hlen.
  eexists _, _, _. split; [by apply height_spec|]. split; [lia|].
  split; [done|]. split.
  - by apply (sentinel_lookup _ _ (repr_rows _ _ Hrepr) _ _ Htop).
  - done.
Qed.

(** ** The constructor from a range *)

Lemma construct_from items s l :
  stores s l →
  for_each items (λ '(level, item), add (Z.of_nat level) item) s =
    (Ok (), foldl (λ s '(level, item), (add (Z.of_nat level) item s).2) s items) ∧
  ∃ l', stores (foldl (λ s '(level, item), (add (Z.of_nat level) item s).2)
                  s items) l' ∧
        l' ≡ₚ reverse items.*2 ++ l.
Proof.
  revert s l. induction items as [|[level item] items IH]; intros s l Hst.
  - split; [done|]. by exists l.
  - destruct (stores_add s l (Z.of_nat level) item Hst)
      as (s' & l' & Hadd & Hst' & Hp); [lia|].
    destruct (IH s' l' Hst') as [Hrun (l2 & Hst2 & Hp2)].
    cbn [for_each foldl]. unfold mbind at 1, action_bind at 1.
    rewrite Hadd. cbn [snd]. split; [done|].
    exists l2. split; [done|].
    rewrite Hp2, Hp, fmap_cons, reverse_cons. simpl.
    rewrite <-app_assoc. simpl. done.
Qed.

(** C9. Constructing a container from a sequence of values returns
    normally and gives the very container that, starting from the empty
    one, one [add] per element in sequence order gives (the same store and
    [head_], so the same [iter], [find] and [remove]); its values are those
    of the sequence, each as often as it occurs there. *)
Theorem construct_as_adds (items : list (nat * Z)) :
  construct items = (Ok (), adds_in_order items) ∧
  ∃ l, iter (construct items).2 = Ok l ∧ l ≡ₚ items.*2.
Proof.
  destruct (construct_from items empty [] stores_empty) as [Hrun (l & Hst & Hp)].
  unfold construct, adds_in_order. split; [done|].
  rewrite Hrun. exists l. split; [by apply stores_iter|].
  by rewrite Hp, app_nil_r, reverse_Permutation.
Qed.

(** ** The nodes a walk can come to *)

Lemma first_Some (cs : list cell) b :
  first cs = Some b → ∃ c cs', cs = c :: cs' ∧ b = c_addr c.
Proof.
  destruct cs as [|c cs']; [done|]. rewrite first_cons. intros [= <-]. eauto.
Qed.

(** A linked node is a sentinel or a node of a level, and the store holds
    what the layout says. *)
Lemma node_of_addr h (rs : list row) a :
  Forall (row_at h) rs → a ∈ addrs rs →
  ∃ i r, rs !! i = Some r ∧
    ((a = r_hd r ∧
      h !! a = Some (mkNode None (r_dn r) (first (r_cells r)))) ∨
     (∃ cs1 c cs2, r_cells r = cs1 ++ c :: cs2 ∧ a = c_addr c ∧
        h !! a = Some (mkNode (Some (c_val c)) (c_down c) (first cs2)))).
Proof.
  intros Hrows (r & Ha & Hr)%list_elem_of_bind.
  apply list_elem_of_lookup in Hr as [i Hr]. exists i, r. split; [done|].
  pose proof (row_lookup _ _ Hrows _ _ Hr) as Hrow.
  rewrite row_addrs_unfold in Ha.
  apply elem_of_cons in Ha as [->|(c & -> & Hc)%list_elem_of_fmap].
  - left. split; [done|]. by apply row_at_unfold in Hrow as [? _].
  - right. apply list_elem_of_split in Hc as (cs1 & cs2 & Hsplit).
    exists cs1, c, cs2. split; [done|]. split; [done|].
    by eapply cell_lookup.
Qed.

Lemma cell_in_addrs (rs : list row) i r c :
  rs !! i = Some r → c ∈ r_cells r → c_addr c ∈ addrs rs.
Proof.
  intros Hr Hc. eapply addrs_lookup; [done|].
  rewrite row_addrs_unfold. apply list_elem_of_further.
  by apply list_elem_of_fmap_2.
Qed.

Lemma reach_addrs s (rs : list row) a :
  repr s rs → reach s a → a ∈ addrs rs.
Proof.
  intros Hrepr. induction 1 as [a Hhead|a n b _ IH Hn Hdn|a n b _ IH Hn Hr].
  - destruct (repr_top _ _ Hrepr) as (top & Htop & Hhead').
    rewrite Hhead' in Hhead. injection Hhead as <-.
    eapply addrs_lookup; [done|]. rewrite row_addrs_unfold.
    apply list_elem_of_here.
  - destruct (node_of_addr _ _ _ (repr_rows _ _ Hrepr) IH)
      as (i & r & Hr & [[-> Hnode]|(cs1 & c & cs2 & Hsplit & -> & Hnode)]);
      rewrite Hnode in Hn; injection Hn as <-; cbn [down] in Hdn.
    + rewrite (sentinel_down _ (repr_order _ _ Hrepr) _ _ Hr) in Hdn.
      destruct i as [|j]; [done|].
      destruct (rs !! j) as [lo|] eqn:Hlo; [|done]. injection Hdn as <-.
      eapply addrs_lookup; [exact Hlo|]. rewrite row_addrs_unfold.
      apply list_elem_of_here.
    + assert (c ∈ r_cells r) as Hc.
      { rewrite Hsplit. apply elem_of_app. right. apply list_elem_of_here. }
      destruct i as [|j].
      * destruct (wf_bottom _ (repr_order _ _ Hrepr) r Hr) as [_ Hall].
        eapply Forall_forall in Hall; [|done]. simpl in Hall. congruence.
      * destruct (rs !! j) as [lo|] eqn:Hlo.
        2:{ apply lookup_ge_None in Hlo. apply lookup_lt_Some in Hr. lia. }
        destruct (wf_above _ (repr_order _ _ Hrepr) j lo r Hlo Hr) as [_ Hsub].
        assert (down_image c ∈ self_image <$> r_cells lo) as Hin.
        { eapply elem_of_sublist; [|done]. by apply list_elem_of_fmap_2. }
        apply list_elem_of_fmap in Hin as (c' & Himg & Hc').
        unfold down_image, self_image in Himg. injection Himg as Hd _.
        rewrite Hd in Hdn. injection Hdn as <-.
        by apply (cell_in_addrs rs j lo).
  - destruct (node_of_addr _ _ _ (repr_rows _ _ Hrepr) IH)
      as (i & r & Hrow & [[-> Hnode]|(cs1 & c & cs2 & Hsplit & -> & Hnode)]);
      rewrite Hnode in Hn; injection Hn as <-; cbn [right] in Hr;
      apply first_Some in Hr as (c' & cs' & Hcs & ->);
      apply (cell_in_addrs rs i r); try done.
    + rewrite Hcs. apply list_elem_of_here.
    + rewrite Hsplit, Hcs. apply elem_of_app. right.
      apply list_elem_of_further, list_elem_of_here.
Qed.

Lemma right_is_cell s (rs : list row) a n b :
  repr s rs → a ∈ addrs rs → heap s !! a = Some n → right n = Some b →
  ∃ m x, heap s !! b = Some m ∧ value m = Some x.
Proof.
  intros Hrepr Ha Hn Hr.
  destruct (node_of_addr _ _ _ (repr_rows _ _ Hrepr) Ha)
    as (i & r & Hrow & [[-> Hnode]|(cs1 & c & cs2 & Hsplit & -> & Hnode)]);
    rewrite Hnode in Hn; injection Hn as <-; cbn [right] in Hr;
    apply first_Some in Hr as (c' & cs' & Hcs & ->);
    pose proof (row_lookup _ _ (repr_rows _ _ Hrepr) _ _ Hrow) as Hat.
  - eexists _, _. split.
    + apply (cell_lookup _ r [] c' cs' Hat). by rewrite Hcs.
    + done.
  - eexists _, _. split.
    + apply (cell_lookup _ r (cs1 ++ [c]) c' cs' Hat).
      by rewrite Hsplit, Hcs, <-app_assoc.
    + done.
Qed.

Lemma sentinel_in_column s (rs : list row) a n :
  repr s rs → a ∈ addrs rs → heap s !! a = Some n → value n = None →
  a ∈ reverse (r_hd <$> rs).
Proof.
  intros Hrepr Ha Hn Hv.
  destruct (node_of_addr _ _ _ (repr_rows _ _ Hrepr) Ha)
    as (i & r & Hrow & [[-> Hnode]|(cs1 & c & cs2 & Hsplit & -> & Hnode)]);
    rewrite Hnode in Hn; injection Hn as <-; [|done].
  apply elem_of_reverse, list_elem_of_fmap_2.
  by eapply list_elem_of_lookup_2.
Qed.

(** C10. In a container reached by public calls, a node that a walk from
    [head_] comes to through a [right] link carries a value, and a node
    without a value that such a walk comes to is a sentinel of the head
    column.  So [find], [traverse] and [iter] return, [remove] returns or
    throws NotFound, and none of them reads an empty optional. *)
Theorem right_nodes_carry_values (cs : list call) (v : Z) :
  (∀ a n b, reach (after cs) a → heap (after cs) !! a = Some n →
            right n = Some b →
            ∃ m x, heap (after cs) !! b = Some m ∧ value m = Some x) ∧
  (∀ a n, reach (after cs) a → heap (after cs) !! a = Some n →
          value n = None →
          ∃ col, column (fuel_of (heap (after cs))) (heap (after cs))
                   (head_ (after cs)) = Ok col ∧ a ∈ col) ∧
  (∃ b, find v (after cs) = Ok b) ∧
  (∃ tracked, traverse v (after cs) = Ok tracked) ∧
  (∃ l, iter (after cs) = Ok l) ∧
  (remove v (after cs)).1 ≠ Throw EmptyOptional.
Proof.
  destruct (after_stores cs) as [l Hst].
  pose proof Hst as (rs & r0 & Hrepr & Hr0 & Hl).
  split; [|split; [|split; [|split; [|split]]]].
  - intros a n b Hreach. apply (right_is_cell _ rs); [done|].
    by apply (reach_addrs (after cs)).
  - intros a n Hreach Hn Hv. exists (reverse (r_hd <$> rs)).
    split; [by apply column_repr|].
    eapply sentinel_in_column; try done.
    by apply (reach_addrs (after cs)).
  - eexists. by apply stores_find.
  - eexists. by apply traverse_spec.
  - exists l. by apply stores_iter.
  - pose proof (stores_remove _ _ v Hst) as Hrem.
    destruct (bool_decide (v ∈ l)).
    + destruct Hrem as (s' & _ & -> & _). done.
    + by rewrite Hrem.
Qed.

Lemma right_nodes_carry_values_witness :
  ∃ m x, heap (after [Add 0 5]) !! 1%nat = Some m ∧ value m = Some x.
Proof.
  apply (proj1 (right_nodes_carry_values [Add 0 5] 5) 0%nat
           (mkNode None None (Some 1%nat)) 1%nat).
  - apply reach_head. reflexivity.
  - reflexivity.
  - reflexivity.
Defined.

(** ** Where [add] puts a value that is there already *)


Lemma value_at_cell h r cs1 c cs2 :
  row_at h r → r_cells r = cs1 ++ c :: cs2 →
  value_at h (c_addr c) = Some (c_val c).
Proof.
  intros Hrow Hsplit. unfold value_at.
  by rewrite (cell_lookup _ _ _ _ _ Hrow Hsplit).
Qed.

(** ** The nodes of one insertion *)

(** C6, as the specification states it, fails: [add(5)] over two levels
    creates the nodes 2 (level 0) and 3 (level 1); after a second [add(5)]
    over one level, [remove(5)] unlinks the node of the second insertion at
    level 0 and node 3 at level 1, and node 2 stays linked. *)
Lemma insertion_chain_broken : ¬ chain_whole [] 1 5 [Add 0 5; Remove 5].
Proof.
  unfold chain_whole, intact.
  assert (created (after []) (after ([] ++ [Add 1 5])) = [2; 3]%nat) as ->
    by reflexivity.
  assert (linked (after ([] ++ Add 1 5 :: [Add 0 5; Remove 5])) = [2]%nat) as ->
    by reflexivity.
  intros [H|H].
  - specialize (H 3%nat). rewrite list_elem_of_singleton in H.
    assert (3 = 2)%nat; [|lia].
    apply H. apply list_elem_of_further, list_elem_of_here.
  - apply (H 2%nat); apply list_elem_of_here.
Qed.

Lemma linked_repr s (rs : list row) a :
  repr s rs →
  a ∈ linked s ↔ ∃ i r, rs !! i = Some r ∧ a ∈ cell_addrs r.
Proof.
  intros Hrepr. unfold linked. rewrite (levels_spec _ _ Hrepr).
  rewrite list_elem_of_join. split.
  - intros (l & Ha & (r & -> & Hr)%list_elem_of_fmap).
    apply list_elem_of_lookup in Hr as [i Hr]. eauto.
  - intros (i & r & Hr & Ha). exists (cell_addrs r). split; [done|].
    apply list_elem_of_fmap_2. by eapply list_elem_of_lookup_2.
Qed.

Lemma sentinels_cells a top k i r :
  sentinels a top k !! i = Some r → r_cells r = [].
Proof.
  revert a top i. induction k as [|k IH]; intros a top i Hr; [done|].
  destruct i as [|i]; simpl in Hr; [by injection Hr as <-|by eapply IH].
Qed.

Lemma linked_bound s (rs : list row) a :
  repr s rs → a ∈ linked s → (a < length (heap s))%nat.
Proof.
  intros Hrepr (i & r & Hr & (c & -> & Hc)%list_elem_of_fmap)%(linked_repr _ rs);
    [|done].
  eapply addrs_bound; [apply Hrepr|]. by eapply cell_in_addrs.
Qed.

(** ** What [remove] unlinks *)

Lemma unlink_first_skip h v (l1 l2 : list nat) :
  (∀ a, a ∈ l1 → value_at h a ≠ Some v) →
  unlink_first h v (l1 ++ l2) = l1 ++ unlink_first h v l2.
Proof.
  induction l1 as [|a l1 IH]; intros Hno; [done|]. simpl.
  rewrite decide_False by (apply Hno, list_elem_of_here).
  rewrite IH; [done|]. intros b Hb. by apply Hno, list_elem_of_further.
Qed.

Lemma unlink_first_none h v (l : list nat) :
  (∀ a, a ∈ l → value_at h a ≠ Some v) → unlink_first h v l = l.
Proof.
  intros Hno. rewrite <-(app_nil_r l) at 1.
  rewrite unlink_first_skip by done. simpl. by rewrite app_nil_r.
Qed.

Lemma value_at_in h r c :
  row_at h r → c ∈ r_cells r → value_at h (c_addr c) = Some (c_val c).
Proof.
  intros Hrow (cs1 & cs2 & Hsplit)%list_elem_of_split.
  by eapply value_at_cell.
Qed.

Lemma del_addrs h v r :
  row_at h r → StronglySorted Z.le (vals r) →
  cell_addrs (del v r) = unlink_first h v (cell_addrs r).
Proof.
  intros Hrow Hs. pose proof (lows_highs_sorted v _ Hs) as Hsplit.
  assert (∀ c, c ∈ lows v (r_cells r) ∨ c ∈ highs v (r_cells r) →
               value_at h (c_addr c) = Some (c_val c)) as Hval.
  { intros c Hc. apply (value_at_in h r); [done|].
    destruct Hc as [Hc|Hc]; by apply list_elem_of_filter in Hc as [_ ?]. }
  pose proof (lows_all v (r_cells r)) as Hlo.
  pose proof (highs_all v (r_cells r)) as Hhi.
  pose proof Hs as Hsh. unfold vals in Hsh. rewrite Hsplit, fmap_app in Hsh.
  apply StronglySorted_app_1_r in Hsh.
  unfold cell_addrs. cbn [del r_cells].
  set (L := lows v (r_cells r)) in *. set (H := highs v (r_cells r)) in *.
  rewrite Hsplit, !fmap_app. rewrite unlink_first_skip.
  2:{ intros a (c & -> & Hc)%list_elem_of_fmap. rewrite Hval by auto.
      eapply Forall_forall in Hlo; [|done]. simpl in Hlo. intros [= ?]. lia. }
  f_equal. destruct H as [|c hs]; [done|].
  rewrite fmap_cons. cbn [del_first unlink_first].
  rewrite (Hval c) by (right; apply list_elem_of_here).
  destruct (Z.eqb_spec (c_val c) v) as [->|Hne].
  - by rewrite decide_True.
  - rewrite decide_False by congruence. rewrite fmap_cons. f_equal.
    rewrite fmap_cons in Hsh.
    apply StronglySorted_inv in Hsh as [_ Hall]. rewrite Forall_fmap in Hall.
    apply Forall_cons in Hhi as [Hc _].
    symmetry. apply unlink_first_none.
    intros a (c' & -> & Hc')%list_elem_of_fmap.
    rewrite Hval by (right; by apply list_elem_of_further).
    eapply Forall_forall in Hall; [|done]. simpl in Hall. intros [= ?]. lia.
Qed.

Lemma trim_top_addrs (rs : list row) :
  cell_addrs <$> trim_top rs = strip_top (cell_addrs <$> rs).
Proof.
  induction rs as [|r [|r2 rs] IH]; [done| |].
  - simpl. by destruct (cell_addrs r).
  - change (trim_top (r :: r2 :: rs))
      with (match r_cells r with [] => trim_top (r2 :: rs) | _ => r :: r2 :: rs end).
    rewrite !fmap_cons. cbn [strip_top]. rewrite <-fmap_cons.
    unfold cell_addrs at 2. destruct (r_cells r); simpl; [|done].
    exact IH.
Qed.

Lemma trim_addrs (rs : list row) :
  cell_addrs <$> trim rs = strip (cell_addrs <$> rs).
Proof.
  unfold trim, strip. by rewrite fmap_reverse, trim_top_addrs, fmap_reverse.
Qed.

Lemma remove_levels s (rs : list row) v s' :
  repr s rs → remove v s = (Ok (), s') →
  levels s' = Ok (strip (unlink_first (heap s) v <$> (cell_addrs <$> rs))).
Proof.
  intros Hrepr Hrem.
  destruct (remove_spec v s rs Hrepr) as (r0 & Hr0 & Hspec).
  destruct (holds v (r_cells r0)).
  2:{ rewrite Hspec in Hrem. done. }
  destruct Hspec as (s2 & Hrem2 & Hrepr2). rewrite Hrem in Hrem2.
  injection Hrem2 as <-.
  rewrite (levels_spec _ _ Hrepr2), trim_addrs. do 2 f_equal.
  rewrite <-!list_fmap_compose. apply list_fmap_ext.
  intros i r Hr. simpl. apply del_addrs.
  - by eapply (row_lookup _ _ (repr_rows _ _ Hrepr)).
  - apply (wf_sorted _ (repr_order _ _ Hrepr)). by eapply list_elem_of_lookup_2.
Qed.

(** ** What [add] creates *)

Lemma add_creates s (rs : list row) (level : nat) v s' :
  repr s rs → add (Z.of_nat level) v s = (Ok (), s') →
  ∃ base rs',
    repr s' rs' ∧ (length (heap s) ≤ base)%nat ∧
    (∀ a, a ∈ linked s' → a ∈ linked s ∨ (base ≤ a ≤ base + level)%nat) ∧
    ∀ i, (i ≤ level)%nat →
      ∃ r cs1 cs2,
        rs' !! i = Some r ∧
        r_cells r =
          cs1 ++ mkCell (base + i) v
                   (match i with O => None | S j => Some (base + j)%nat end)
              :: cs2.
Proof.
  intros Hrepr Hadd.
  destruct (add_spec (Z.of_nat level) v s rs Hrepr) as (s2 & rs' & Hadd2 & Hrepr' & Hrs');
    [lia|].
  rewrite Hadd in Hadd2. injection Hadd2 as <-.
  set (g := Z.to_nat (Z.of_nat level + 1 - Z.of_nat (length rs))) in *.
  replace (Z.to_nat (Z.of_nat level + 1)) with (S level) in Hrs' by lia.
  set (rs1 := rs ++ sentinels (length (heap s)) (head_ s) g) in *.
  assert (S level ≤ length rs1)%nat as Hfit.
  { unfold rs1. rewrite length_app, sentinels_length. lia. }
  exists (length (heap s) + g)%nat, rs'. split; [done|]. split; [lia|]. split.
  - intros a (i & r' & Hr' & Ha)%(linked_repr _ rs'); [|done].
    rewrite Hrs', ins_rows_lookup in Hr'.
    assert (∀ r1, rs1 !! i = Some r1 → a ∈ cell_addrs r1 → a ∈ linked s) as Hold.
    { intros r1 Hr1 Ha1. apply (linked_repr _ rs); [done|].
      unfold rs1 in Hr1. apply lookup_app_Some in Hr1 as [Hr1|[_ Hr1]].
      - by exists i, r1.
      - apply sentinels_cells in Hr1. unfold cell_addrs in Ha1.
        rewrite Hr1 in Ha1. by apply elem_of_nil in Ha1. }
    destruct (decide (i < S level)%nat) as [Hi|Hi].
    + destruct (rs1 !! i) as [r1|] eqn:Hr1; [|done]. injection Hr' as <-.
      unfold cell_addrs in Ha. cbn [ins r_cells] in Ha.
      rewrite fmap_app, fmap_cons in Ha. cbn [c_addr] in Ha.
      assert (cell_addrs r1 =
              (c_addr <$> lows v (r_cells r1)) ++ (c_addr <$> highs v (r_cells r1)))
        as Hsplit.
      { unfold cell_addrs. rewrite <-fmap_app. f_equal.
        apply lows_highs_sorted.
        assert (ins_rows v (length (heap s) + g) None (S level) rs1 !! i
                = Some (ins v (length (heap s) + g + i) (match i with O => None | S j => Some (length (heap s) + g + j)%nat end) r1)) as Hl.
        { rewrite ins_rows_lookup, decide_True, Hr1 by done. done. }
        rewrite <-Hrs' in Hl.
        pose proof (wf_sorted _ (repr_order _ _ Hrepr') _
                      (list_elem_of_lookup_2 _ _ _ Hl)) as Hs.
        unfold vals in Hs. cbn [ins r_cells] in Hs.
        rewrite fmap_app, fmap_cons in Hs.
        pose proof (StronglySorted_app_1_l _ _ _ Hs) as Hs1.
        pose proof (StronglySorted_app_1_r _ _ _ Hs) as Hs2.
        apply StronglySorted_inv in Hs2 as [Hs2 _].
        unfold vals.
        assert (StronglySorted Z.le
                  ((c_val <$> lows v (r_cells r1)) ++ (c_val <$> highs v (r_cells r1))))
          as Hs3.
        { apply StronglySorted_app_2; [|done|done].
          intros x1 x2 (c1 & -> & Hc1)%list_elem_of_fmap
                       (c2 & -> & Hc2)%list_elem_of_fmap.
          apply list_elem_of_filter in Hc1 as [? _].
          apply list_elem_of_filter in Hc2 as [? _]. lia. }
        destruct (decide (i < length rs)%nat) as [Hin|Hout].
        - apply (wf_sorted _ (repr_order _ _ Hrepr) r1).
          unfold rs1 in Hr1. rewrite lookup_app_l in Hr1 by done.
          by eapply list_elem_of_lookup_2.
        - unfold rs1 in Hr1. rewrite lookup_app_r in Hr1 by lia.
          apply sentinels_cells in Hr1. rewrite Hr1. constructor. }
      apply elem_of_app in Ha as [Ha|[->|Ha]%elem_of_cons].
      * left. apply (Hold r1 eq_refl). rewrite Hsplit. apply elem_of_app. auto.
      * right. lia.
      * left. apply (Hold r1 eq_refl). rewrite Hsplit. apply elem_of_app. auto.
    + left. by apply (Hold r').
  - intros i Hi. rewrite Hrs', ins_rows_lookup, decide_True by lia.
    destruct (rs1 !! i) as [r1|] eqn:Hr1.
    2:{ apply lookup_ge_None in Hr1. lia. }
    eexists _, _, _. split; [done|]. done.
Qed.

(** ** The container against a sorted list *)

Lemma insert_sorted_perm v l : insert_sorted v l ≡ₚ v :: l.
Proof.
  induction l as [|x l IH]; [done|]. simpl.
  destruct (x <? v); [|done]. by rewrite IH, Permutation_swap.
Qed.

Lemma insert_sorted_sorted v l :
  StronglySorted Z.le l → StronglySorted Z.le (insert_sorted v l).
Proof.
  induction 1 as [|x l Hl IH Hx]; simpl.
  - repeat constructor.
  - destruct (Z.ltb_spec x v).
    + constructor; [done|]. rewrite insert_sorted_perm.
      constructor; [lia|done].
    + constructor; [by constructor|].
      constructor; [done|]. eapply Forall_impl; [done|]. simpl. intros; lia.
Qed.

Lemma remove_first_Some v l l1 : remove_first v l = Some l1 → l ≡ₚ v :: l1.
Proof.
  revert l1. induction l as [|x l IH]; intros l1; simpl; [done|].
  destruct (Z.eqb_spec x v) as [->|Hne].
  - by intros [= ->].
  - destruct (remove_first v l) as [l2|]; [|done]. simpl.
    intros [= <-]. by rewrite (IH l2), Permutation_swap.
Qed.

Lemma remove_first_sublist v l l1 : remove_first v l = Some l1 → sublist l1 l.
Proof.
  revert l1. induction l as [|x l IH]; intros l1; simpl; [done|].
  destruct (x =? v).
  - intros [= ->]. by apply sublist_cons.
  - destruct (remove_first v l) as [l2|]; [|done]. simpl.
    intros [= <-]. by apply sublist_skip, IH.
Qed.

Lemma remove_first_None v l : remove_first v l = None ↔ v ∉ l.
Proof.
  induction l as [|x l IH]; simpl.
  - split; [intros _; apply not_elem_of_nil|done].
  - rewrite not_elem_of_cons. destruct (Z.eqb_spec x v) as [->|Hne].
    + split; [done|]. by intros [? _].
    + destruct (remove_first v l); simpl.
      * split; [done|]. intros [_ Hnin]. by apply IH in Hnin.
      * split; [|done]. intros _. split; [congruence|]. by apply IH.
Qed.

Lemma sorted_perm_eq (l1 l2 : list Z) :
  StronglySorted Z.le l1 → StronglySorted Z.le l2 → l1 ≡ₚ l2 → l1 = l2.
Proof. apply StronglySorted_unique. apply _. Qed.

Lemma reference_run cs s l :
  stores s l →
  (run cs s).1 = (reference cs l).1 ∧ stores (run cs s).2 (reference cs l).2.
Proof.
  revert s l. induction cs as [|c cs IH]; intros s l Hst; [done|].
  rewrite run_cons. cbn [fst snd].
  pose proof (stores_sorted _ _ Hst) as Hs.
  destruct (exec_stores c s l Hst) as (r & s1 & l1 & Hex & Hst1 & Hc).
  pose proof (stores_sorted _ _ Hst1) as Hs1.
  rewrite Hex. cbn [fst snd].
  destruct c as [level v|v]; destruct r as [[]|e]; try done; cbn [reference].
  - assert (l1 = insert_sorted v l) as ->.
    { apply sorted_perm_eq; [done|by apply insert_sorted_sorted|].
      by rewrite Hc, insert_sorted_perm. }
    destruct (IH s1 _ Hst1) as [Hres Hfin].
    destruct (reference cs (insert_sorted v l)) as [rs lf]. simpl in *.
    by rewrite Hres.
  - destruct Hc as [Hin Hp].
    destruct (remove_first v l) as [l2|] eqn:Hrf.
    2:{ by apply remove_first_None in Hrf. }
    assert (l1 = l2) as ->.
    { apply sorted_perm_eq; [done| |].
      - eapply StronglySorted_sublist; [|exact Hs]. by eapply remove_first_sublist.
      - apply (inj (cons v)). by rewrite <-Hp, <-(remove_first_Some v l l2). }
    destruct (IH s1 _ Hst1) as [Hres Hfin].
    destruct (reference cs l2) as [rs lf]. simpl in *. by rewrite Hres.
  - destruct e; try done. destruct Hc as (Hnin & -> & ->).
    apply remove_first_None in Hnin. rewrite Hnin.
    destruct (IH s l Hst) as [Hres Hfin].
    destruct (reference cs l) as [rs lf]. simpl in *. by rewrite Hres.
Qed.

(** X1. The container is a sorted list: the calls return what they return
    on a sorted list where [add] puts the value before the first value not
    below it and [remove] takes the first occurrence out or fails with
    NotFound, and [iter] yields that list. *)
Theorem sorted_list_refinement (cs : list call) :
  (run cs empty).1 = (reference cs []).1 ∧
  iter (after cs) = Ok (reference cs []).2.
Proof.
  destruct (reference_run cs empty [] stores_empty) as [Hres Hst].
  split; [done|]. by apply stores_iter.
Qed.

Lemma reference_forget cs cs' l :
  forget_levels cs = forget_levels cs' → reference cs l = reference cs' l.
Proof.
  revert cs' l. induction cs as [|c cs IH]; intros [|c' cs'] l Heq;
    try done.
  unfold forget_levels in Heq. rewrite !fmap_cons in Heq.
  injection Heq as Hc Hcs. apply (IH cs') with (l := l) in Hcs as Hl.
  destruct c as [lv v|v], c' as [lv' v'|v']; try done;
    injection Hc as <-; cbn [reference].
  - by rewrite (IH cs' _ Hcs).
  - destruct (remove_first v l); by rewrite (IH cs' _ Hcs).
Qed.

(** X2. The levels the insertions draw change nothing a caller sees: two
    sequences of calls that differ only in these levels give the same
    results, the same [iter] and the same [find]. *)
Theorem levels_do_not_show (cs cs' : list call) (v : Z) :
  forget_levels cs = forget_levels cs' →
  (run cs empty).1 = (run cs' empty).1 ∧
  iter (after cs) = iter (after cs') ∧
  find v (after cs) = find v (after cs').
Proof.
  intros Heq.
  destruct (reference_run cs empty [] stores_empty) as [Hres Hst].
  destruct (reference_run cs' empty [] stores_empty) as [Hres' Hst'].
  rewrite (reference_forget cs cs' [] Heq) in Hres, Hst.
  split; [congruence|]. unfold after. split.
  - by rewrite (stores_iter _ _ Hst), (stores_iter _ _ Hst').
  - by rewrite (stores_find _ _ v Hst), (stores_find _ _ v Hst').
Qed.

Lemma levels_do_not_show_witness :
  forget_levels [Add 3 5; Add 0 2; Remove 5]
    = forget_levels [Add 0 5; Add 4 2; Remove 5] ∧
  (run [Add 3 5; Add 0 2; Remove 5] empty).1
    = (run [Add 0 5; Add 4 2; Remove 5] empty).1 ∧
  iter (after [Add 3 5; Add 0 2; Remove 5])
    = iter (after [Add 0 5; Add 4 2; Remove 5]) ∧
  find 2 (after [Add 3 5; Add 0 2; Remove 5])
    = find 2 (after [Add 0 5; Add 4 2; Remove 5]).
Proof.
  split; [reflexivity|].
  apply (levels_do_not_show [Add 3 5; Add 0 2; Remove 5]
           [Add 0 5; Add 4 2; Remove 5] 2).
  reflexivity.
Defined.

(** X3. [find] and [remove] agree with [iter]: [find(v)] is true exactly
    when [v] is among the values [iter] yields; [remove(v)] then succeeds
    and [iter] loses one [v], the other values staying in order; otherwise
    [remove(v)] fails with NotFound and leaves the container as it was. *)
Theorem find_remove_agree_with_iter (cs : list call) (v : Z) :
  ∃ l, iter (after cs) = Ok l ∧
    find v (after cs) = Ok (bool_decide (v ∈ l)) ∧
    match remove_first v l with
    | Some l' =>
        (remove v (after cs)).1 = Ok () ∧
        iter (remove v (after cs)).2 = Ok l'
    | None => remove v (after cs) = (Throw NoSuchValue, after cs)
    end.
Proof.
  destruct (after_stores cs) as [l Hst]. exists l.
  split; [by apply stores_iter|]. split; [by apply stores_find|].
  destruct (reference_run [Remove v] _ l Hst) as [Hres Hfin].
  cbn [reference] in Hres, Hfin. rewrite run_cons in Hres, Hfin.
  cbn [run fst snd] in Hres, Hfin.
  destruct (remove_first v l) as [l'|] eqn:Hrf; cbn [fst snd] in Hres, Hfin.
  - injection Hres as Hres. split; [done|]. by apply stores_iter.
  - apply remove_first_None in Hrf.
    pose proof (stores_remove _ _ v Hst) as Hrem.
    by rewrite bool_decide_eq_false_2 in Hrem.
Qed.

(** X4. A value no [add] of the sequence put in is not found, and
    [remove] of it fails with NotFound and leaves the container as it
    was. *)
Theorem never_added_not_found (cs : list call) (v : Z) :
  v ∉ added cs →
  find v (after cs) = Ok false ∧
  remove v (after cs) = (Throw NoSuchValue, after cs).
Proof.
  intros Hnin.
  destruct (run_multiset cs empty [] stores_empty) as (l & Hst & _ & Heq).
  assert (v ∉ l) as Hl.
  { intros Hin. apply Hnin.
    apply elem_of_list_to_set_disj in Hin.
    apply elem_of_list_to_set_disj.
    rewrite Heq in Hin. simpl in Hin. multiset_solver. }
  unfold after. split.
  - rewrite (stores_find _ _ v Hst). f_equal. by apply bool_decide_eq_false.
  - pose proof (stores_remove _ _ v Hst) as Hrem.
    by rewrite bool_decide_eq_false_2 in Hrem.
Qed.

Lemma never_added_not_found_witness :
  (7 ∉ added [Add 1 5; Remove 5; Add 0 3]) ∧
  find 7 (after [Add 1 5; Remove 5; Add 0 3]) = Ok false ∧
  remove 7 (after [Add 1 5; Remove 5; Add 0 3])
    = (Throw NoSuchValue, after [Add 1 5; Remove 5; Add 0 3]).
Proof.
  assert (7 ∉ added [Add 1 5; Remove 5; Add 0 3]) as H.
  { simpl. intros Hin. repeat (apply elem_of_cons in Hin as [Hin|Hin]; [lia|]).
    by apply elem_of_nil in Hin. }
  split; [exact H|].
  exact (never_added_not_found [Add 1 5; Remove 5; Add 0 3] 7 H).
Defined.

(** ** What no call does to a cell of the store *)

Lemma keeps_refl s : keeps s s.
Proof. split; [done|]. intros a n Hn. by exists n. Qed.

Lemma keeps_trans s1 s2 s3 : keeps s1 s2 → keeps s2 s3 → keeps s1 s3.
Proof.
  intros [Hl1 H1] [Hl2 H2]. split; [lia|]. intros a n Hn.
  destruct (H1 a n Hn) as (n1 & Hn1 & Hv1 & Hd1).
  destruct (H2 a n1 Hn1) as (n2 & Hn2 & Hv2 & Hd2).
  exists n2. split; [done|]. split; congruence.
Qed.

Lemma keeps_heap s h p :
  length h = length (heap s) →
  (∀ a n, heap s !! a = Some n →
     ∃ n', h !! a = Some n' ∧ value n' = value n ∧ down n' = down n) →
  keeps s (mkSkipList h p).
Proof. intros Hlen Hn. split; simpl; [lia|done]. Qed.

Lemma keeps_head s p : keeps s (mkSkipList (heap s) p).
Proof. apply keeps_heap; [done|]. intros a n Hn. by exists n. Qed.

Lemma keeps_alloc s n p : keeps s (mkSkipList (heap s ++ [n]) p).
Proof.
  split; simpl.
  - rewrite length_app. lia.
  - intros a m Hm. exists m. split; [|done].
    by apply lookup_app_l_Some.
Qed.

Lemma set_right_length h p q h' :
  set_right h p q = Ok h' → length h' = length h.
Proof.
  unfold set_right. destruct (deref h p) as [n|]; [|done].
  rewrite bind_Ok. destruct p as [a|]; [|done].
  intros [= <-]. by rewrite length_insert.
Qed.

Lemma set_right_lookup h p q h' a n :
  set_right h p q = Ok h' → h !! a = Some n →
  ∃ n', h' !! a = Some n' ∧ value n' = value n ∧ down n' = down n.
Proof.
  unfold set_right. destruct (deref h p) as [m|] eqn:Hm; [|done].
  rewrite bind_Ok. destruct p as [b|]; [|done].
  intros [= <-] Hn. simpl in Hm.
  destruct (h !! b) as [m'|] eqn:Hb; [|done]. injection Hm as ->.
  destruct (decide (a = b)) as [->|Hne].
  - exists (mkNode (value m) (down m) q).
    rewrite list_lookup_insert_eq by (by eapply lookup_lt_Some).
    split; [done|]. simpl. split; congruence.
  - exists n. by rewrite list_lookup_insert_ne.
Qed.

Lemma keeps_set_right s p q h' p' :
  set_right (heap s) p q = Ok h' → keeps s (mkSkipList h' p').
Proof.
  intros Hset. apply keeps_heap.
  - by eapply set_right_length.
  - intros a n Hn. by eapply set_right_lookup.
Qed.

Lemma bind_keeps {A B} (m : action A) (f : A → action B) s :
  keeps s (m s).2 →
  (∀ a s1, m s = (Ok a, s1) → keeps s1 (f a s1).2) →
  keeps s ((m ≫= f) s).2.
Proof.
  intros Hm Hf. unfold mbind, action_bind.
  destruct (m s) as [[a|e] s1] eqn:E; simpl in *; [|done].
  eapply keeps_trans; [done|]. by apply Hf.
Qed.

Lemma for_each_keeps {A} (xs : list A) (body : A → action unit) :
  (∀ x s, keeps s (body x s).2) → ∀ s, keeps s (for_each xs body s).2.
Proof.
  intros Hbody. induction xs as [|x xs IH]; intros s; simpl.
  - apply keeps_refl.
  - apply bind_keeps; [apply Hbody|]. intros _ s1 _. apply IH.
Qed.

Lemma push_sentinel_keeps s : keeps s (push_sentinel s).2.
Proof. unfold push_sentinel. simpl. apply keeps_alloc. Qed.

Lemma ensure_height_keeps expected s : keeps s (ensure_height expected s).2.
Proof.
  unfold ensure_height. apply bind_keeps; [apply keeps_refl|].
  intros _ s1 _. apply bind_keeps; [apply keeps_refl|].
  intros current s2 _. destruct (expected <=? current).
  - apply keeps_refl.
  - apply for_each_keeps. intros _ s3. apply push_sentinel_keeps.
Qed.

Lemma add_loop_keeps idxs T v : ∀ dn s, keeps s (add_loop idxs T v dn s).2.
Proof.
  induction idxs as [|idx rest IH]; intros dn s; simpl.
  - apply keeps_refl.
  - apply bind_keeps; [apply keeps_refl|]. intros [pre nex] s1 _.
    apply bind_keeps; [apply keeps_alloc|]. intros node s2 _.
    unfold mbind at 1, action_bind, reads.
    destruct (set_right (heap s2) pre node) as [h|] eqn:Hset; simpl;
      [|apply keeps_refl].
    eapply keeps_trans; [|apply IH].
    by eapply keeps_set_right.
Qed.

Lemma add_keeps level v s : keeps s (add level v s).2.
Proof.
  unfold add. apply bind_keeps; [apply ensure_height_keeps|].
  intros _ s1 _. apply bind_keeps; [apply keeps_refl|].
  intros tracked s2 _. apply add_loop_keeps.
Qed.

Lemma unlink_keeps v record s :
  ∃ r s', unlink v record s = (r, s') ∧ keeps s s' ∧
    length (heap s') = length (heap s).
Proof.
  destruct record as [idx [pre cur]]. unfold unlink.
  unfold mbind at 1, action_bind, reads.
  destruct (no_match (heap s) v cur) as [[]|];
    try (eexists _, _; split; [done|]; split; [apply keeps_refl|done]).
  unfold mbind at 1, action_bind.
  destruct (deref (heap s) cur) as [c|];
    try (eexists _, _; split; [done|]; split; [apply keeps_refl|done]).
  unfold mbind, action_bind.
  destruct (set_right (heap s) pre (right c)) as [h|] eqn:Hset;
    try (eexists _, _; split; [done|]; split; [apply keeps_refl|done]).
  eexists _, _. split; [done|].
  split; [by eapply keeps_set_right|by eapply set_right_length].
Qed.

Lemma for_each_unlink_keeps v (T : tracked_map) :
  ∀ s, ∃ r s', for_each T (unlink v) s = (r, s') ∧ keeps s s' ∧
    length (heap s') = length (heap s).
Proof.
  induction T as [|x T IH]; intros s; simpl.
  - eexists _, _. split; [done|]. split; [apply keeps_refl|done].
  - unfold mbind, action_bind.
    destruct (unlink_keeps v x s) as (r & s1 & -> & Hk & Hlen).
    destruct r as [[]|e].
    + destruct (IH s1) as (r2 & s2 & -> & Hk2 & Hlen2).
      eexists _, _. split; [done|]. split; [by eapply keeps_trans|lia].
    + by eexists _, _.
Qed.

Lemma clean_head_keeps s :
  keeps s (clean_head s).2 ∧ heap (clean_head s).2 = heap s.
Proof.
  unfold clean_head.
  pose proof (clean_head_pops (fuel_of (heap s)) s) as [Hheap _].
  split; [|done].
  destruct (clean_head_loop (fuel_of (heap s)) s) as [r [h p]].
  simpl in *. subst h. apply keeps_head.
Qed.

Lemma remove_keeps v s : keeps s (remove v s).2.
Proof.
  assert (∃ r s', remove v s = (r, s') ∧ keeps s s') as (r & s' & -> & Hk);
    [|done].
  unfold remove. unfold mbind at 1, action_bind, reads.
  destruct (traverse v s) as [T|];
    [|eexists _, _; split; [done|apply keeps_refl]].
  unfold mbind at 1, action_bind, pure.
  destruct (map_at 0 T) as [[pre cur]|];
    [|eexists _, _; split; [done|apply keeps_refl]].
  unfold mbind at 1, action_bind.
  destruct (no_match (heap s) v cur) as [absent|];
    [|eexists _, _; split; [done|apply keeps_refl]].
  unfold mbind at 1, action_bind.
  destruct absent; [eexists _, _; split; [done|apply keeps_refl]|].
  unfold mret, action_ret. unfold mbind, action_bind.
  destruct (for_each_unlink_keeps v T s) as (r1 & s1 & -> & Hk & _).
  destruct r1 as [[]|e]; [|by eexists _, _].
  pose proof (clean_head_keeps s1) as [Hk1 _].
  destruct (clean_head s1) as [r2 s2]. simpl in *.
  eexists _, _. split; [done|]. by eapply keeps_trans.
Qed.

Lemma exec_keeps c s : keeps s (exec c s).2.
Proof. destruct c; [apply add_keeps|apply remove_keeps]. Qed.

Lemma run_keeps cs : ∀ s, keeps s (run cs s).2.
Proof.
  induction cs as [|c cs IH]; intros s; [apply keeps_refl|].
  rewrite run_cons. simpl.
  eapply keeps_trans; [apply exec_keeps|apply IH].
Qed.

(** ** No empty level on top *)

Lemma trim_top_cons r r' (rs : list row) :
  trim_top (r :: r' :: rs) =
    match r_cells r with
    | [] => trim_top (r' :: rs)
    | _ => r :: r' :: rs
    end.
Proof. done. Qed.

Lemma trim_top_tight (rs : list row) :
  rs ≠ [] →
  length (trim_top rs) = 1%nat ∨
  ∃ r, head (trim_top rs) = Some r ∧ r_cells r ≠ [].
Proof.
  induction rs as [|r rs IH]; [done|]. intros _.
  destruct rs as [|r' rs]; [by left|].
  rewrite trim_top_cons. destruct (r_cells r) as [|c cs] eqn:E.
  - by apply IH.
  - right. exists r. split; [done|]. by rewrite E.
Qed.

Lemma tight_trim (rs : list row) : rs ≠ [] → tight (trim rs).
Proof.
  intros Hne. unfold tight, trim. rewrite length_reverse, last_reverse.
  apply trim_top_tight. intros Heq. apply Hne.
  by rewrite <-(reverse_involutive rs), Heq.
Qed.

Lemma trim_tight (rs : list row) : tight rs → trim rs = rs.
Proof.
  intros Ht. unfold trim.
  rewrite <-(reverse_involutive rs) at 2. f_equal.
  unfold tight in Ht. rewrite <-head_reverse, <-(length_reverse rs) in Ht.
  destruct (reverse rs) as [|r [|r' l]]; [done|done|].
  rewrite trim_top_cons. destruct Ht as [Hlen|(top & [= <-] & Hcs)]; [done|].
  by destruct (r_cells r).
Qed.

Lemma tight_ins v a (k : nat) (rs : list row) (top : ptr) b (n : nat) :
  rs ≠ [] → tight rs →
  (k = 0%nat ∨ (length rs + k = n)%nat) →
  tight (ins_rows v a None n (rs ++ sentinels b top k)).
Proof.
  intros Hne Ht Hk. unfold tight.
  rewrite ins_rows_length, last_lookup, ins_rows_length, ins_rows_lookup.
  set (rs1 := rs ++ sentinels b top k).
  assert (0 < length rs1)%nat as Hpos.
  { unfold rs1. rewrite length_app. destruct rs; [done|]. simpl. lia. }
  destruct (lookup_lt_is_Some_2 rs1 (pred (length rs1))) as [r Hr]; [lia|].
  rewrite Hr. destruct (decide _) as [Hlt|Hge].
  - right. eexists. split; [done|]. simpl. by destruct (lows v (r_cells r)).
  - destruct Hk as [->|Hk].
    2:{ unfold rs1 in Hge, Hpos.
        rewrite length_app, sentinels_length in Hge, Hpos. lia. }
    unfold rs1 in *. simpl in *. rewrite app_nil_r in *.
    destruct Ht as [Hlen|(t & Ht & Hcs)]; [by left|].
    right. exists t. split; [|done]. by rewrite <-Hr, <-last_lookup.
Qed.

Lemma add_loop_length idxs T v :
  ∀ dn s s', add_loop idxs T v dn s = (Ok (), s') →
    length (heap s') = (length (heap s) + length idxs)%nat.
Proof.
  induction idxs as [|idx rest IH]; intros dn s s'; simpl.
  - intros [= <-]. lia.
  - unfold mbind at 1, action_bind, pure.
    destruct (map_at idx T) as [[pre nex]|]; [|done].
    unfold mbind at 1, action_bind, alloc. simpl.
    unfold mbind at 1, action_bind, reads. simpl.
    destruct (set_right _ pre _) as [h|] eqn:Hset; [|done].
    unfold mbind at 1, action_bind, put_heap. simpl.
    intros Hrun. apply IH in Hrun. simpl in Hrun.
    apply set_right_length in Hset. rewrite Hrun, Hset, length_app. simpl. lia.
Qed.

Lemma add_tight s (rs : list row) (level : nat) v :
  repr s rs → tight rs →
  ∃ s' rs',
    add (Z.of_nat level) v s = (Ok (), s') ∧ repr s' rs' ∧ tight rs' ∧
    length rs' = (length rs `max` S level)%nat ∧
    length (heap s') =
      (length (heap s) + S level + (S level - length rs))%nat.
Proof.
  intros Hrepr Ht.
  destruct (add_spec (Z.of_nat level) v s rs Hrepr) as (s' & rs' & Hadd & Hrepr' & ->);
    [lia|].
  eexists s', _. split; [done|]. split; [done|].
  pose proof (wf_nonempty _ (repr_order _ _ Hrepr)) as Hne.
  split; [|split].
  - apply tight_ins; [done|done|]. lia.
  - rewrite ins_rows_length, length_app, sentinels_length. lia.
  - destruct (ensure_height_spec (Z.of_nat level + 1) s rs Hrepr)
      as (s1 & Hens & Hrepr1 & Hlen1); [lia|].
    unfold add in Hadd. unfold mbind at 1, action_bind at 1 in Hadd.
    rewrite Hens in Hadd.
    unfold mbind at 1, action_bind at 1, reads at 1 in Hadd.
    rewrite (traverse_spec _ _ Hrepr1) in Hadd.
    apply add_loop_length in Hadd. rewrite Hadd, Hlen1.
    unfold iota. rewrite length_seqZ. lia.
Qed.

Lemma exec_tight c s (rs : list row) :
  repr s rs → tight rs → ∃ rs', repr (exec c s).2 rs' ∧ tight rs'.
Proof.
  intros Hrepr Ht. destruct c as [level v|v]; simpl.
  - destruct (add_tight s rs level v Hrepr Ht) as (s' & rs' & -> & ? & ? & _).
    by exists rs'.
  - destruct (remove_spec v s rs Hrepr) as (r0 & Hr0 & Hrem).
    destruct (holds v (r_cells r0)).
    + destruct Hrem as (s' & -> & Hrepr'). eexists. split; [done|].
      apply tight_trim. pose proof (wf_nonempty _ (repr_order _ _ Hrepr)).
      by destruct rs.
    + rewrite Hrem. by exists rs.
Qed.

Lemma run_tight cs : ∀ s (rs : list row),
  repr s rs → tight rs → ∃ rs', repr (run cs s).2 rs' ∧ tight rs'.
Proof.
  induction cs as [|c cs IH]; intros s rs Hrepr Ht.
  - by exists rs.
  - rewrite run_cons. simpl.
    destruct (exec_tight c s rs Hrepr Ht) as (rs1 & Hrepr1 & Ht1).
    by apply (IH _ rs1).
Qed.

Lemma after_tight cs : ∃ rs, repr (after cs) rs ∧ tight rs.
Proof. apply (run_tight cs empty [mkRow 0 None []] repr_empty). by left. Qed.

(** X6. [add] with level [l] leaves max(height, l + 1) levels and puts
    into the store l + 1 nodes for the value and one sentinel for each
    level it had to create. *)
Theorem add_grows (cs : list call) (level : nat) (v : Z) :
  ∃ n : nat,
    height (after cs) = Ok (Z.of_nat n) ∧
    height (after (cs ++ [Add level v])) = Ok (Z.of_nat (n `max` S level)) ∧
    length (heap (after (cs ++ [Add level v]))) =
      (length (heap (after cs)) + S level + (S level - n))%nat.
Proof.
  destruct (after_tight cs) as (rs & Hrepr & Ht).
  destruct (add_tight _ rs level v Hrepr Ht)
    as (s' & rs' & Hadd & Hrepr' & _ & Hlen & Hheap).
  exists (length rs). rewrite after_snoc. simpl. rewrite Hadd. simpl.
  split; [by apply height_spec|]. split; [|done].
  rewrite <-Hlen. by apply height_spec.
Qed.

(** X7. Between calls no level on top is empty: the top level holds a
    node unless it is the only level, so [clean_head] has nothing to pop
    and leaves the container as it is. *)
Theorem no_empty_top_level (cs : list call) :
  clean_head (after cs) = (Ok (), after cs) ∧
  ∃ ls top, levels (after cs) = Ok ls ∧ last ls = Some top ∧
    (top ≠ [] ∨ length ls = 1%nat).
Proof.
  destruct (after_tight cs) as (rs & Hrepr & Ht).
  pose proof (wf_nonempty _ (repr_order _ _ Hrepr)) as Hne.
  split.
  - unfold clean_head.
    rewrite (clean_head_loop_spec rs); [|done|apply Hrepr|apply Hrepr|apply Hrepr|].
    + rewrite (trim_tight rs Ht), <-(repr_head _ _ Hrepr).
      by destruct (after cs).
    + pose proof (repr_length _ _ Hrepr). unfold fuel_of. lia.
  - rewrite (levels_spec _ _ Hrepr).
    destruct (last rs) as [top|] eqn:Htop.
    2:{ apply last_None in Htop. done. }
    exists (cell_addrs <$> rs), (cell_addrs top).
    split; [done|]. split; [by rewrite fmap_last, Htop|].
    rewrite length_fmap. destruct Ht as [Hlen|(t & Ht & Hcs)]; [by right|].
    left. rewrite Htop in Ht. injection Ht as <-.
    unfold cell_addrs. by destruct (r_cells top).
Qed.

(** ** The lambdas of [add] and the levels [remove] leaves *)

Lemma chose_level_replicate (n : nat) d rest k :
  d ≠ 0 → chose_level (replicate n 0 ++ d :: rest) k = Some (k + Z.of_nat n).
Proof.
  intros Hd. revert k. induction n as [|n IH]; intros k; simpl.
  - destruct (Z.eqb_spec d 0); [done|]. f_equal. lia.
  - rewrite IH. f_equal. lia.
Qed.

Lemma chose_level_inv draws : ∀ k level,
  chose_level draws k = Some level →
  ∃ (n : nat) d rest,
    level = k + Z.of_nat n ∧ draws = replicate n 0 ++ d :: rest ∧ d ≠ 0.
Proof.
  induction draws as [|d draws IH]; intros k level; simpl; [done|].
  destruct (Z.eqb_spec d 0) as [->|Hd].
  - intros (n & d' & rest & -> & -> & Hd')%IH.
    exists (S n), d', rest. split; [lia|done].
  - intros [= <-]. exists 0%nat, d, draws. split; [lia|done].
Qed.

(** X8. [chose_level] returns the number of draws equal to 0 before the
    first draw that is not 0, whatever comes after it; it returns nothing
    as long as every draw is 0. *)
Theorem chose_level_counts_zeros (draws : list Z) (level : Z) :
  chose_level draws 0 = Some level ↔
  ∃ (n : nat) d rest,
    level = Z.of_nat n ∧ draws = replicate n 0 ++ d :: rest ∧ d ≠ 0.
Proof.
  split.
  - intros (n & d & rest & -> & -> & Hd)%chose_level_inv. by exists n, d, rest.
  - intros (n & d & rest & -> & -> & Hd). by rewrite chose_level_replicate.
Qed.

Lemma sentinels_addrs a top k :
  cell_addrs <$> sentinels a top k = replicate k [].
Proof.
  revert a top. induction k as [|k IH]; intros a top; simpl; [done|].
  by rewrite IH.
Qed.

(** X9. [ensure_height(expected)] fails its check and changes nothing when
    [expected] is not positive; otherwise it leaves max(height, expected)
    levels, the new ones empty and on top, the others and the values as
    they were; it leaves the container as it is when it is high enough. *)
Theorem ensure_height_adds_empty_levels (cs : list call) (expected : Z) :
  if 0 <? expected
  then
    ∃ s' ls,
      ensure_height expected (after cs) = (Ok (), s') ∧
      levels (after cs) = Ok ls ∧
      levels s' =
        Ok (ls ++ replicate (Z.to_nat (expected - Z.of_nat (length ls))) []) ∧
      height s' = Ok (Z.of_nat (length ls) `max` expected) ∧
      iter s' = iter (after cs) ∧
      (expected ≤ Z.of_nat (length ls) → s' = after cs)
  else ensure_height expected (after cs) = (Throw AssertionFail, after cs).
Proof.
  destruct (Z.ltb_spec 0 expected) as [Hpos|Hneg].
  2:{ unfold ensure_height, mbind, action_bind, pure.
      by rewrite (proj2 (Z.ltb_ge 0 expected) Hneg). }
  destruct (after_repr cs) as [rs Hrepr].
  destruct (ensure_height_spec expected _ rs Hrepr Hpos)
    as (s' & Hens & Hrepr' & Hlen).
  exists s', (cell_addrs <$> rs). rewrite length_fmap.
  split; [done|]. split; [by apply levels_spec|]. split; [|split; [|split]].
  - rewrite (levels_spec _ _ Hrepr'), fmap_app. by rewrite sentinels_addrs.
  - rewrite (height_spec _ _ Hrepr'). f_equal.
    rewrite length_app, sentinels_length. lia.
  - destruct (iter_spec _ _ Hrepr) as (r & Hr & ->).
    destruct (iter_spec _ _ Hrepr') as (r' & Hr' & ->).
    rewrite (lookup_app_l_Some _ _ _ _ Hr) in Hr'. congruence.
  - intros Hle. unfold ensure_height in Hens.
    unfold mbind, action_bind, pure, reads in Hens.
    rewrite (proj2 (Z.ltb_lt _ _) Hpos) in Hens. simpl in Hens.
    rewrite (height_spec _ _ Hrepr) in Hens.
    rewrite (proj2 (Z.leb_le _ _) Hle) in Hens. by injection Hens.
Qed.

Lemma del_addrs_sublist v r :
  StronglySorted Z.le (vals r) →
  sublist (cell_addrs (del v r)) (cell_addrs r) ∧
  (length (cell_addrs r) ≤ length (cell_addrs (del v r)) + 1)%nat.
Proof.
  intros Hs. unfold cell_addrs. rewrite !length_fmap. split.
  - apply fmap_sublist. etrans; [apply del_cells_sublist|].
    by rewrite <-lows_highs_sorted.
  - rewrite (lows_highs_sorted v (r_cells r) Hs) at 1. simpl.
    rewrite !length_app. unfold del_first.
    destruct (highs v (r_cells r)) as [|c hs]; simpl; [lia|].
    destruct (c_val c =? v); simpl; lia.
Qed.

(** X10. [remove] links no node and creates no level: the levels it
    leaves are the lowest levels it found, at least one, each as it was or
    without one of its nodes. *)
Theorem remove_only_unlinks (cs : list call) (v : Z) :
  ∃ ls ls',
    levels (after cs) = Ok ls ∧
    levels (remove v (after cs)).2 = Ok ls' ∧
    (0 < length ls' ≤ length ls)%nat ∧
    height (remove v (after cs)).2 = Ok (Z.of_nat (length ls')) ∧
    ∀ i lv', ls' !! i = Some lv' →
      ∃ lv, ls !! i = Some lv ∧ sublist lv' lv ∧
            (length lv ≤ length lv' + 1)%nat.
Proof.
  destruct (after_repr cs) as [rs Hrepr].
  pose proof (repr_length _ _ Hrepr) as Hlen.
  exists (cell_addrs <$> rs). rewrite (levels_spec _ _ Hrepr).
  destruct (remove_spec v _ rs Hrepr) as (r0 & Hr0 & Hrem).
  destruct (holds v (r_cells r0)).
  - destruct Hrem as (s' & -> & Hrepr'). simpl.
    exists (cell_addrs <$> trim (del v <$> rs)).
    rewrite (levels_spec _ _ Hrepr'), (height_spec _ _ Hrepr'), !length_fmap.
    pose proof (repr_length _ _ Hrepr') as Hlen'.
    destruct (trim_take (del v <$> rs)) as (k & Hk & Htrim); [by destruct rs|].
    rewrite Htrim in *. rewrite length_take, length_fmap in *.
    split; [done|]. split; [done|]. split; [lia|]. split; [done|].
    intros i lv'. rewrite !list_lookup_fmap.
    destruct (decide (i < k)%nat) as [Hi|Hi].
    2:{ by rewrite lookup_take_ge by lia. }
    rewrite lookup_take_lt, list_lookup_fmap by lia.
    destruct (rs !! i) as [r|] eqn:Hr; [|done]. simpl. intros [= <-].
    exists (cell_addrs r). split; [done|].
    apply del_addrs_sublist, (wf_sorted _ (repr_order _ _ Hrepr)).
    by eapply list_elem_of_lookup_2.
  - rewrite Hrem. simpl. exists (cell_addrs <$> rs).
    rewrite (levels_spec _ _ Hrepr), (height_spec _ _ Hrepr), !length_fmap.
    split; [done|]. split; [done|]. split; [lia|]. split; [done|].
    intros i lv' Hlv. exists lv'. split; [done|]. split; [done|lia].
Qed.

(** ** The shape of the levels, read from the store *)

Lemma tracked_of_keys v k (rs : list row) :
  (tracked_of v k rs).*1 = seqZ k (Z.of_nat (length rs)).
Proof.
  revert k. induction rs as [|r rs IH]; intros k; [done|].
  cbn [tracked_of length]. rewrite fmap_cons, IH. cbn [fst].
  rewrite (seqZ_cons k) by lia. f_equal. f_equal; lia.
Qed.

Lemma cell_node h r c :
  row_at h r → c ∈ r_cells r →
  ∃ q, h !! c_addr c = Some (mkNode (Some (c_val c)) (c_down c) q).
Proof.
  intros Hrow (cs1 & cs2 & Hsplit)%list_elem_of_split.
  eexists. by eapply cell_lookup.
Qed.

Lemma row_values h r :
  row_at h r → value_at h <$> cell_addrs r = Some <$> vals r.
Proof.
  intros Hrow. unfold cell_addrs, vals. rewrite <-!list_fmap_compose.
  apply Forall_fmap_ext_1, Forall_forall. intros c Hc. simpl.
  destruct (cell_node h r c Hrow Hc) as [q Hq]. unfold value_at.
  by rewrite Hq.
Qed.

Lemma row_asks h r :
  row_at h r →
  asks h <$> cell_addrs r
    = prod_map Some Some <$> (down_image <$> r_cells r).
Proof.
  intros Hrow. unfold cell_addrs. rewrite <-!list_fmap_compose.
  apply Forall_fmap_ext_1, Forall_forall. intros c Hc. simpl.
  destruct (cell_node h r c Hrow Hc) as [q Hq].
  unfold asks, down_at, value_at. by rewrite Hq.
Qed.

Lemma row_offers h r :
  row_at h r →
  offers h <$> cell_addrs r
    = prod_map Some Some <$> (self_image <$> r_cells r).
Proof.
  intros Hrow. unfold cell_addrs. rewrite <-!list_fmap_compose.
  apply Forall_fmap_ext_1, Forall_forall. intros c Hc. simpl.
  destruct (cell_node h r c Hrow Hc) as [q Hq].
  unfold offers, value_at. by rewrite Hq.
Qed.

(** X11. What [traverse] records: one pair for each level, keyed 0 to
    height - 1; at each level the pair splits the nodes after the sentinel
    into those below the value and the others: [pre] is the last node
    below the value (the sentinel if there is none) and [cur] the first
    of the others (null if there is none). *)
Theorem traverse_splits_levels (cs : list call) (v : Z) :
  ∃ tracked ls col,
    traverse v (after cs) = Ok tracked ∧
    levels (after cs) = Ok ls ∧
    column (fuel_of (heap (after cs))) (heap (after cs)) (head_ (after cs))
      = Ok col ∧
    tracked.*1 = seqZ 0 (Z.of_nat (length ls)) ∧
    ∀ i lv hd, ls !! i = Some lv → reverse col !! i = Some hd →
      ∃ l1 l2 pre,
        lv = l1 ++ l2 ∧
        map_at (Z.of_nat i) tracked = Ok (Some pre, head l2) ∧
        last (hd :: l1) = Some pre ∧
        (∀ a, a ∈ l1 →
           ∃ x, value_at (heap (after cs)) a = Some x ∧ x < v) ∧
        (∀ a, a ∈ l2 →
           ∃ x, value_at (heap (after cs)) a = Some x ∧ v ≤ x).
Proof.
  destruct (after_repr cs) as [rs Hrepr].
  exists (tracked_of v 0 rs), (cell_addrs <$> rs), (reverse (r_hd <$> rs)).
  split; [by apply traverse_spec|]. split; [by apply levels_spec|].
  split; [by apply column_repr|].
  split; [by rewrite tracked_of_keys, length_fmap|].
  intros i lv hd. rewrite reverse_involutive, !list_lookup_fmap.
  destruct (rs !! i) as [r|] eqn:Hr; [|done]. simpl. intros [= <-] [= <-].
  pose proof (row_lookup _ _ (repr_rows _ _ Hrepr) _ _ Hr) as Hrow.
  pose proof (wf_sorted _ (repr_order _ _ Hrepr) r
                (list_elem_of_lookup_2 _ _ _ Hr)) as Hsort.
  exists (c_addr <$> lows v (r_cells r)), (c_addr <$> highs v (r_cells r)),
    (pre_addr v r).
  split; [|split; [|split; [|split]]].
  - unfold cell_addrs. rewrite <-fmap_app. f_equal.
    by apply lows_highs_sorted.
  - pose proof (map_at_tracked_of v 0 rs i r Hr) as Hat.
    rewrite Z.add_0_l in Hat. rewrite Hat. unfold first.
    by destruct (highs v (r_cells r)).
  - rewrite last_cons, fmap_last. unfold pre_addr, last_addr.
    by destruct (last (lows v (r_cells r))).
  - intros a (c & -> & Hc)%list_elem_of_fmap.
    apply list_elem_of_filter in Hc as [Hlt Hc]. exists (c_val c).
    split; [by eapply value_at_in|done].
  - intros a (c & -> & Hc)%list_elem_of_fmap.
    apply list_elem_of_filter in Hc as [Hge Hc]. exists (c_val c).
    split; [by eapply value_at_in|done].
Qed.

(** X12. Between calls every level is sorted, the nodes of level 0 have no
    [down] link, and the nodes of a level above point down, in order, to
    nodes of the level just below that hold the same value. *)
Theorem levels_sorted_and_nested (cs : list call) :
  ∃ ls,
    levels (after cs) = Ok ls ∧
    (∀ lv, lv ∈ ls →
       ∃ xs, value_at (heap (after cs)) <$> lv = Some <$> xs ∧
             StronglySorted Z.le xs) ∧
    (∀ lv a, ls !! 0%nat = Some lv → a ∈ lv →
       down_at (heap (after cs)) a = Some None) ∧
    (∀ i lo up, ls !! i = Some lo → ls !! S i = Some up →
       sublist (asks (heap (after cs)) <$> up)
               (offers (heap (after cs)) <$> lo)).
Proof.
  destruct (after_repr cs) as [rs Hrepr].
  pose proof (repr_rows _ _ Hrepr) as Hrows.
  pose proof (repr_order _ _ Hrepr) as Hwf.
  exists (cell_addrs <$> rs). split; [by apply levels_spec|].
  split; [|split].
  - intros lv (r & -> & Hr)%list_elem_of_fmap. exists (vals r).
    split; [|by apply (wf_sorted _ Hwf)].
    apply row_values. by eapply (proj1 (Forall_forall _ _) Hrows).
  - intros lv a. rewrite list_lookup_fmap.
    destruct (rs !! 0%nat) as [r|] eqn:Hr; [|done]. simpl. intros [= <-].
    intros (c & -> & Hc)%list_elem_of_fmap.
    destruct (wf_bottom _ Hwf r Hr) as [_ Hdown].
    pose proof (proj1 (Forall_forall _ _) Hdown c Hc) as Hc0.
    destruct (cell_node _ r c (row_lookup _ _ Hrows _ _ Hr) Hc) as [q Hq].
    unfold down_at. rewrite Hq. simpl. by rewrite Hc0.
  - intros i lo up. rewrite !list_lookup_fmap.
    destruct (rs !! i) as [rlo|] eqn:Hlo; [|done].
    destruct (rs !! S i) as [rup|] eqn:Hup; [|done].
    simpl. intros [= <-] [= <-].
    rewrite (row_asks _ _ (row_lookup _ _ Hrows _ _ Hup)).
    rewrite (row_offers _ _ (row_lookup _ _ Hrows _ _ Hlo)).
    apply fmap_sublist. by apply (wf_above _ Hwf i).
Qed.

Lemma addrs_split (rs : list row) :
  addrs rs ≡ₚ (r_hd <$> rs) ++ mjoin (cell_addrs <$> rs).
Proof.
  induction rs as [|r rs IH]; [done|].
  rewrite addrs_cons, row_addrs_unfold, IH, !fmap_cons. simpl.
  constructor. fold (cell_addrs r).
  rewrite !(assoc (++)). f_equiv. apply Permutation_app_comm.
Qed.

(** X13. Between calls no node is linked twice: the sentinels and the
    nodes of all the levels are pairwise distinct nodes of the store, so
    no level shares a node with another and no walk along [right] or
    [down] links comes back to a node. *)
Theorem no_node_linked_twice (cs : list call) :
  ∃ col ls,
    column (fuel_of (heap (after cs))) (heap (after cs)) (head_ (after cs))
      = Ok col ∧
    levels (after cs) = Ok ls ∧
    NoDup (col ++ mjoin ls) ∧
    ∀ a, a ∈ col ++ mjoin ls → (a < length (heap (after cs)))%nat.
Proof.
  destruct (after_repr cs) as [rs Hrepr].
  exists (reverse (r_hd <$> rs)), (cell_addrs <$> rs).
  split; [by apply column_repr|]. split; [by apply levels_spec|].
  assert (reverse (r_hd <$> rs) ++ mjoin (cell_addrs <$> rs) ≡ₚ addrs rs)
    as Hperm.
  { by rewrite addrs_split, reverse_Permutation. }
  split.
  - rewrite Hperm. apply Hrepr.
  - intros a Ha. rewrite Hperm in Ha.
    by eapply addrs_bound; [apply Hrepr|].
Qed.

(** ** [add] then [remove] of the same value *)

Lemma lows_ins v a dn (cs : list cell) :
  lows v (lows v cs ++ mkCell a v dn :: highs v cs) = lows v cs.
Proof.
  rewrite lows_app, (lows_id v (lows v cs)) by apply lows_all.
  rewrite (lows_nil v (_ :: _)); [by rewrite app_nil_r|].
  constructor; [simpl; lia|apply highs_all].
Qed.

Lemma highs_ins v a dn (cs : list cell) :
  highs v (lows v cs ++ mkCell a v dn :: highs v cs)
    = mkCell a v dn :: highs v cs.
Proof.
  rewrite highs_app, (highs_nil v (lows v cs)) by apply lows_all.
  apply highs_id. constructor; [simpl; lia|apply highs_all].
Qed.

Lemma holds_ins v a dn r : holds v (r_cells (ins v a dn r)) = true.
Proof. unfold holds, ins. simpl. rewrite highs_ins. simpl. lia. Qed.

Lemma del_ins v a dn r :
  StronglySorted Z.le (vals r) → del v (ins v a dn r) = r.
Proof.
  intros Hs. unfold del, ins. simpl. rewrite lows_ins, highs_ins. simpl.
  rewrite Z.eqb_refl, <-(lows_highs_sorted v _ Hs). by destruct r.
Qed.

Lemma trim_sentinels (rs : list row) a top k :
  rs ≠ [] → trim (rs ++ sentinels a top k) = trim rs.
Proof.
  revert rs a top. induction k as [|k IH]; intros rs a top Hne; simpl.
  - by rewrite app_nil_r.
  - rewrite (cons_middle _ rs), (assoc (++)), IH by (by destruct rs).
    rewrite trim_snoc. simpl. by destruct rs.
Qed.

Lemma sentinels_sorted a top k r :
  r ∈ sentinels a top k → StronglySorted Z.le (vals r).
Proof.
  intros (i & Hr)%list_elem_of_lookup. unfold vals.
  rewrite (sentinels_cells _ _ _ _ _ Hr). constructor.
Qed.

(** The values of a level are among those of level 0. *)
Lemma vals_below (rs : list row) r0 :
  wf_order rs → rs !! 0%nat = Some r0 →
  ∀ i r, rs !! i = Some r → sublist (vals r) (vals r0).
Proof.
  intros Hwf Hr0. induction i as [|i IH]; intros r Hr.
  - rewrite Hr0 in Hr. by injection Hr as <-.
  - destruct (lookup_lt_is_Some_2 rs i) as [lo Hlo].
    { apply lookup_lt_Some in Hr. lia. }
    etrans; [|by apply (IH lo)].
    destruct (wf_above _ Hwf i lo r Hlo Hr) as [_ Hsub].
    apply (fmap_sublist snd) in Hsub.
    rewrite <-!list_fmap_compose in Hsub. done.
Qed.

Lemma holds_below (rs : list row) r0 v :
  wf_order rs → rs !! 0%nat = Some r0 → holds v (r_cells r0) = false →
  ∀ i r, rs !! i = Some r → holds v (r_cells r) = false.
Proof.
  intros Hwf Hr0 Hno i r Hr. apply not_true_is_false. intros Hyes.
  apply holds_spec in Hyes.
  2:{ apply (wf_sorted _ Hwf). by eapply list_elem_of_lookup_2. }
  pose proof (vals_below rs r0 Hwf Hr0 i r Hr) as Hsub.
  apply (λ H, elem_of_sublist _ _ _ H Hsub) in Hyes.
  apply holds_spec in Hyes; [congruence|].
  apply (wf_sorted _ Hwf). by eapply list_elem_of_lookup_2.
Qed.

Lemma add_remove_rows s (rs : list row) (level : nat) v :
  repr s rs →
  ∃ s1 s2 (rs1 : list row) r0,
    add (Z.of_nat level) v s = (Ok (), s1) ∧
    remove v s1 = (Ok (), s2) ∧
    repr s2 (trim (del v <$> rs1)) ∧
    rs !! 0%nat = Some r0 ∧
    (del v <$> rs1) !! 0%nat = Some r0 ∧
    ((∀ i r, rs !! i = Some r → holds v (r_cells r) = false) →
     ∃ a top k, del v <$> rs1 = rs ++ sentinels a top k).
Proof.
  intros Hrepr.
  pose proof (repr_order _ _ Hrepr) as Hwf.
  destruct (repr_bottom _ _ Hrepr) as [r0 Hr0].
  destruct (add_spec (Z.of_nat level) v s rs Hrepr)
    as (s1 & rs1 & Hadd & Hrepr1 & Hrs1); [lia|].
  set (n := Z.to_nat (Z.of_nat level + 1)) in *.
  set (k := Z.to_nat (Z.of_nat level + 1 - Z.of_nat (length rs))) in *.
  set (rs0 := rs ++ sentinels (length (heap s)) (head_ s) k) in *.
  assert (∀ i r, rs0 !! i = Some r → StronglySorted Z.le (vals r)) as Hsort.
  { intros i r Hr. apply list_elem_of_lookup_2, elem_of_app in Hr as [Hr|Hr].
    - by apply (wf_sorted _ Hwf).
    - by eapply sentinels_sorted. }
  assert (rs0 !! 0%nat = Some r0) as Hr00 by (by apply lookup_app_l_Some).
  assert (rs1 !! 0%nat = Some (ins v (length (heap s) + k) None r0)) as Hr10.
  { rewrite Hrs1, ins_rows_lookup, Hr00.
    destruct (decide (0 < n)%nat); [|lia]. simpl. by rewrite Nat.add_0_r. }
  destruct (remove_spec v s1 rs1 Hrepr1) as (r1 & Hr1 & Hrem).
  rewrite Hr10 in Hr1. injection Hr1 as <-. rewrite holds_ins in Hrem.
  destruct Hrem as (s2 & Hrem & Hrepr2).
  exists s1, s2, rs1, r0. split; [done|]. split; [done|]. split; [done|].
  split; [done|]. split.
  - rewrite list_lookup_fmap, Hr10. simpl. f_equal.
    apply del_ins, (Hsort 0%nat r0 Hr00).
  - intros Hno. exists (length (heap s)), (head_ s), k. fold rs0.
    apply list_eq. intros i.
    rewrite list_lookup_fmap, Hrs1, ins_rows_lookup.
    destruct (rs0 !! i) as [r|] eqn:Hr; [|by destruct (decide _)].
    destruct (decide _) as [Hlt|Hge]; simpl; f_equal.
    + by apply del_ins, (Hsort i).
    + assert (k = 0%nat) as Hk.
      { apply lookup_lt_Some in Hr. unfold rs0 in Hr.
        rewrite length_app, sentinels_length in Hr. unfold n, k in *. lia. }
      unfold rs0 in Hr. rewrite Hk in Hr. simpl in Hr.
      rewrite app_nil_r in Hr.
      apply del_id; [|by apply (Hno i)].
      apply (wf_sorted _ Hwf). by eapply list_elem_of_lookup_2.
Qed.

(** X14. [add(v)] followed by [remove(v)]: both return, and they leave the
    values [iter] yields and the nodes of level 0 as they were, whatever
    the level drawn and whether [v] was there before or not. *)
Theorem add_then_remove_restores_values (cs : list call) (level : nat)
    (v : Z) :
  (run [Add level v; Remove v] (after cs)).1 = [Ok (); Ok ()] ∧
  iter (after (cs ++ [Add level v; Remove v])) = iter (after cs) ∧
  ∃ ls ls',
    levels (after cs) = Ok ls ∧
    levels (after (cs ++ [Add level v; Remove v])) = Ok ls' ∧
    ls' !! 0%nat = ls !! 0%nat.
Proof.
  destruct (after_repr cs) as [rs Hrepr].
  destruct (add_remove_rows _ rs level v Hrepr)
    as (s1 & s2 & rs1 & r0 & Hadd & Hrem & Hrepr2 & Hr0 & Hr1 & _).
  assert (trim (del v <$> rs1) !! 0%nat = Some r0) as Hr2.
  { rewrite trim_bottom; [done|].
    intros Heq. by rewrite Heq in Hr1. }
  assert (after (cs ++ [Add level v; Remove v]) = s2) as ->.
  { unfold after. rewrite run_app, !run_cons. simpl.
    fold (after cs). by rewrite Hadd; simpl; rewrite Hrem. }
  split; [|split].
  - rewrite !run_cons. simpl. rewrite Hadd. simpl. by rewrite Hrem.
  - destruct (iter_spec _ _ Hrepr) as (r & Hr & ->).
    destruct (iter_spec _ _ Hrepr2) as (r' & Hr' & ->). congruence.
  - eexists _, _. split; [by apply levels_spec|].
    split; [by apply levels_spec|].
    by rewrite !list_lookup_fmap, Hr0, Hr2.
Qed.

(** X15. [add(v)] followed by [remove(v)] on a container that does not
    hold [v] links everything as it was: the same sentinels, the same
    nodes at every level, the same [head_]; the levels [add] created are
    popped again. *)
Theorem add_then_remove_restores_links (cs : list call) (level : nat)
    (v : Z) :
  find v (after cs) = Ok false →
  levels (after (cs ++ [Add level v; Remove v])) = levels (after cs) ∧
  head_ (after (cs ++ [Add level v; Remove v])) = head_ (after cs) ∧
  height (after (cs ++ [Add level v; Remove v])) = height (after cs) ∧
  ∃ col,
    column (fuel_of (heap (after cs))) (heap (after cs)) (head_ (after cs))
      = Ok col ∧
    column (fuel_of (heap (after (cs ++ [Add level v; Remove v]))))
      (heap (after (cs ++ [Add level v; Remove v])))
      (head_ (after (cs ++ [Add level v; Remove v]))) = Ok col.
Proof.
  intros Hfind.
  destruct (after_tight cs) as (rs & Hrepr & Ht).
  pose proof (repr_order _ _ Hrepr) as Hwf.
  destruct (add_remove_rows _ rs level v Hrepr)
    as (s1 & s2 & rs1 & r0 & Hadd & Hrem & Hrepr2 & Hr0 & _ & Hall).
  assert (after (cs ++ [Add level v; Remove v]) = s2) as ->.
  { unfold after. rewrite run_app, !run_cons. simpl.
    fold (after cs). by rewrite Hadd; simpl; rewrite Hrem. }
  destruct (find_spec _ _ Hrepr v) as (r & Hr & Hf).
  rewrite Hr0 in Hr. injection Hr as <-.
  rewrite Hf in Hfind. injection Hfind as Hno.
  destruct Hall as (a & top & k & Hdel).
  { by apply (holds_below rs r0 v). }
  rewrite Hdel, trim_sentinels, (trim_tight rs Ht) in Hrepr2
    by apply (wf_nonempty _ Hwf).
  split; [|split; [|split]].
  - by rewrite (levels_spec _ _ Hrepr), (levels_spec _ _ Hrepr2).
  - by rewrite (repr_head _ _ Hrepr), (repr_head _ _ Hrepr2).
  - by rewrite (height_spec _ _ Hrepr), (height_spec _ _ Hrepr2).
  - exists (reverse (r_hd <$> rs)). split; by apply column_repr.
Qed.

Lemma add_then_remove_restores_links_witness :
  find 5 (after [Add 0 3]) = Ok false ∧
  levels (after ([Add 0 3] ++ [Add 2 5; Remove 5])) = levels (after [Add 0 3]) ∧
  head_ (after ([Add 0 3] ++ [Add 2 5; Remove 5])) = head_ (after [Add 0 3]).
Proof.
  assert (find 5 (after [Add 0 3]) = Ok false) as H by reflexivity.
  split; [exact H|].
  destruct (add_then_remove_restores_links [Add 0 3] 2 5 H) as (Hl & Hh & _).
  split; [exact Hl|exact Hh].
Defined.

(** ** Constructing from a range sorts it *)

(** X16. A container constructed from a range yields the range sorted:
    [iter] gives the items in non-decreasing order, each as often as the
    range has it, whatever levels the insertions drew. *)
Theorem construct_sorts (items : list (nat * Z)) :
  iter (construct items).2 = Ok (merge_sort Z.le items.*2).
Proof.
  destruct (construct_from items empty [] stores_empty)
    as [Hrun (l & Hst & Hperm)].
  unfold construct. rewrite Hrun. simpl.
  rewrite (stores_iter _ _ Hst). f_equal.
  apply sorted_perm_eq.
  - by eapply stores_sorted.
  - apply StronglySorted_merge_sort; apply _.
  - by rewrite Hperm, app_nil_r, reverse_Permutation, merge_sort_Permutation.
Qed.

(** ** Where [add] puts a value: the exact place *)

Lemma sentinels_lookup a top k i r :
  sentinels a top k !! i = Some r → r_hd r = (a + i)%nat ∧ r_cells r = [].
Proof.
  revert a top i. induction k as [|k IH]; intros a top [|i] Hr;
    simplify_eq/=.
  - split; [lia|done].
  - apply IH in Hr as [-> ->]. split; [lia|done].
Qed.



(** ** The chain of an insertion, while the container lives *)

Lemma bottom_down s (rs : list row) r a :
  repr s rs → rs !! 0%nat = Some r → a ∈ cell_addrs r →
  down_at (heap s) a = Some None.
Proof.
  intros Hrepr Hr (c & -> & Hc)%list_elem_of_fmap.
  destruct (wf_bottom _ (repr_order _ _ Hrepr) r Hr) as [_ Hdown].
  pose proof (proj1 (Forall_forall _ _) Hdown c Hc) as Hc0.
  destruct (cell_node _ r c (row_lookup _ _ (repr_rows _ _ Hrepr) _ _ Hr) Hc)
    as [q Hq].
  unfold down_at. rewrite Hq. simpl. by rewrite Hc0.
Qed.

Lemma nested_down s (rs : list row) j up a :
  repr s rs → rs !! S j = Some up → a ∈ cell_addrs up →
  ∃ lo b, rs !! j = Some lo ∧ b ∈ cell_addrs lo ∧
          down_at (heap s) a = Some (Some b).
Proof.
  intros Hrepr Hup (c & -> & Hc)%list_elem_of_fmap.
  destruct (lookup_lt_is_Some_2 rs j) as [lo Hlo].
  { apply lookup_lt_Some in Hup. lia. }
  destruct (wf_above _ (repr_order _ _ Hrepr) j lo up Hlo Hup) as [_ Hsub].
  assert (down_image c ∈ self_image <$> r_cells lo) as Hin.
  { eapply elem_of_sublist; [|done]. by apply list_elem_of_fmap_2. }
  apply list_elem_of_fmap in Hin as (c' & Himg & Hc').
  unfold down_image, self_image in Himg. injection Himg as Hdn _.
  destruct (cell_node _ up c (row_lookup _ _ (repr_rows _ _ Hrepr) _ _ Hup) Hc)
    as [q Hq].
  exists lo, (c_addr c'). split; [done|].
  split; [by apply list_elem_of_fmap_2|].
  unfold down_at. rewrite Hq. simpl. by rewrite Hdn.
Qed.

(** A linked node whose [down] links lead, one after the other, through
    the nodes [base + i - 1], ..., [base], the last with no [down] link,
    is at level [i], and these nodes are linked at the levels below. *)
Lemma chain_in_place s (rs : list row) base (n : nat) :
  repr s rs →
  (∀ i, (i ≤ n)%nat →
     down_at (heap s) (base + i)%nat =
       Some (match i with O => None | S j => Some (base + j)%nat end)) →
  ∀ i, (i ≤ n)%nat → ∀ k r,
    rs !! k = Some r → (base + i)%nat ∈ cell_addrs r →
    k = i ∧
    ∀ j, (j ≤ i)%nat → ∃ rj, rs !! j = Some rj ∧ (base + j)%nat ∈ cell_addrs rj.
Proof.
  intros Hrepr Hdown. induction i as [|i IH]; intros Hi k r Hr Ha.
  - destruct k as [|k].
    + split; [done|]. intros j Hj. assert (j = 0%nat) as -> by lia. eauto.
    + destruct (nested_down _ _ _ _ _ Hrepr Hr Ha) as (lo & b & _ & _ & Hb).
      rewrite (Hdown 0%nat) in Hb by lia. done.
  - destruct k as [|k].
    + pose proof (Hdown (S i) Hi) as Hd.
      rewrite (bottom_down _ _ _ _ Hrepr Hr Ha) in Hd. done.
    + destruct (nested_down _ _ _ _ _ Hrepr Hr Ha) as (lo & b & Hlo & Hb & Hdn).
      rewrite (Hdown (S i)) in Hdn by lia. injection Hdn as <-.
      destruct (IH ltac:(lia) k lo Hlo Hb) as [-> Hbelow].
      split; [done|]. intros j Hj.
      destruct (decide (j = S i)) as [->|Hne]; [eauto|].
      apply Hbelow. lia.
Qed.

(** C6, amended. In a container reached by public calls: one [add]
    creates, together, one node per level from 0 to its level, each holding
    the value and each linked by [down] to the one below.  Whatever calls
    follow, a node of this chain that is still linked is at the level
    [add] put it, and the nodes of the chain below it are linked too: a
    chain is only ever cut from the top.  A successful [remove(v)] unlinks,
    at each level, the first node that holds [v] if the level has one, and
    no other node; level 0 always has one; it then drops the empty levels
    on top.  The nodes it unlinks are those of one insertion only when
    that insertion's nodes are the first equal ones at every level. *)
Theorem insertion_lifecycle (cs : list call) (level : nat) (v : Z) :
  (∃ base,
     (∀ a, a ∈ created (after cs) (after (cs ++ [Add level v])) ↔
           (base ≤ a ≤ base + level)%nat) ∧
     (∀ i, (i ≤ level)%nat →
        ∃ ls new nd,
          levels (after (cs ++ [Add level v])) = Ok ls ∧
          ls !! i = Some new ∧ (base + i)%nat ∈ new ∧
          heap (after (cs ++ [Add level v])) !! (base + i)%nat = Some nd ∧
          value nd = Some v ∧
          down nd = match i with O => None | S j => Some (base + j)%nat end) ∧
     (∀ cs2 ls (i k : nat) lv,
        levels (after (cs ++ Add level v :: cs2)) = Ok ls →
        (i ≤ level)%nat → ls !! k = Some lv → (base + i)%nat ∈ lv →
        k = i ∧
        ∀ j, (j ≤ i)%nat → ∃ lj, ls !! j = Some lj ∧ (base + j)%nat ∈ lj)) ∧
  (∀ s', remove v (after cs) = (Ok (), s') →
     ∃ ls l1 a l2,
       levels (after cs) = Ok ls ∧
       levels s' = Ok (strip (unlink_first (heap (after cs)) v <$> ls)) ∧
       ls !! 0%nat = Some (l1 ++ a :: l2) ∧
       value_at (heap (after cs)) a = Some v ∧
       unlink_first (heap (after cs)) v (l1 ++ a :: l2) = l1 ++ l2).
Proof.
  destruct (after_repr cs) as [rs Hrepr]. split.
  - pose proof (after_snoc cs (Add level v)) as Hsnoc.
    destruct (stores_add (after cs) (vals (default (mkRow 0 None []) (rs !! 0%nat)))
                (Z.of_nat level) v) as (s' & l' & Hadd & _); [|lia|].
    { destruct (repr_bottom _ _ Hrepr) as [r0 Hr0].
      exists rs, r0. by rewrite Hr0. }
    cbn [exec] in Hsnoc. rewrite Hadd in Hsnoc. cbn [snd] in Hsnoc.
    rewrite Hsnoc.
    destruct (add_creates _ rs level v s' Hrepr Hadd)
      as (base & rs' & Hrepr' & Hbase & Hlinked & Hnew).
    assert (∀ i, (i ≤ level)%nat →
              ∃ r nd, rs' !! i = Some r ∧ (base + i)%nat ∈ cell_addrs r ∧
                heap s' !! (base + i)%nat = Some nd ∧ value nd = Some v ∧
                down nd = match i with O => None | S j => Some (base + j)%nat end)
      as Hchain.
    { intros i Hi. destruct (Hnew i Hi) as (r & cs1 & cs2 & Hr & Hcells).
      pose proof (cell_lookup _ r cs1 _ cs2
                    (row_lookup _ _ (repr_rows _ _ Hrepr') _ _ Hr) Hcells) as Hnd.
      cbn [c_addr c_val c_down] in Hnd.
      exists r. eexists. split; [done|]. split; [|split; [exact Hnd|done]].
      unfold cell_addrs. rewrite Hcells, fmap_app, fmap_cons.
      apply elem_of_app. right. apply list_elem_of_here. }
    exists base. split; [|split].
    + intros a. unfold created. rewrite list_elem_of_filter. split.
      * intros [Hna Ha]. by destruct (Hlinked a Ha).
      * intros Ha. split.
        -- intros Hin%(linked_bound _ rs); [lia|done].
        -- destruct (Hchain (a - base)%nat) as (r & nd & Hr & Hin & _); [lia|].
           apply (linked_repr _ rs'); [done|]. exists (a - base)%nat, r.
           split; [done|].
           by replace (base + (a - base))%nat with a in Hin by lia.
    + intros i Hi. destruct (Hchain i Hi) as (r & nd & Hr & Hin & Hnd & Hv & Hd).
      exists (cell_addrs <$> rs'), (cell_addrs r), nd.
      split; [by apply levels_spec|]. split; [by rewrite list_lookup_fmap, Hr|].
      done.
    + intros cs2 ls i k lv Hls Hi Hlv Hin.
      assert (after (cs ++ Add level v :: cs2) = (run cs2 s').2) as Hlater.
      { rewrite (cons_middle _ cs cs2), (assoc (++)). unfold after.
        rewrite run_app. cbn [snd]. fold (after (cs ++ [Add level v])).
        by rewrite Hsnoc. }
      rewrite Hlater in Hls.
      destruct (repr_bottom _ _ Hrepr') as [r0 Hr0].
      destruct (run_stores cs2 s' (vals r0)) as (l2 & rs2 & _ & Hrepr2 & _).
      { by exists rs', r0. }
      rewrite (levels_spec _ _ Hrepr2) in Hls. injection Hls as <-.
      rewrite list_lookup_fmap in Hlv.
      destruct (rs2 !! k) as [r|] eqn:Hr; [|done]. injection Hlv as <-.
      pose proof (run_keeps cs2 s') as [_ Hk].
      destruct (chain_in_place _ rs2 base level Hrepr2) with (i := i) (k := k) (r := r)
        as [-> Hbelow]; [|done|done|done|].
      { intros i' Hi'.
        destruct (Hchain i' Hi') as (_ & nd & _ & _ & Hnd & _ & Hd).
        destruct (Hk _ _ Hnd) as (n' & Hn' & _ & Hd').
        unfold down_at. rewrite Hn'. simpl. by rewrite Hd', Hd. }
      split; [done|]. intros j Hj.
      destruct (Hbelow j Hj) as (rj & Hrj & Hinj).
      exists (cell_addrs rj). by rewrite list_lookup_fmap, Hrj.
  - intros s' Hrem.
    destruct (remove_spec v _ rs Hrepr) as (r0 & Hr0 & Hspec).
    destruct (holds v (r_cells r0)) eqn:Hholds.
    2:{ rewrite Hrem in Hspec. done. }
    pose proof (row_lookup _ _ (repr_rows _ _ Hrepr) _ _ Hr0) as Hrow.
    pose proof (wf_sorted _ (repr_order _ _ Hrepr) r0
                  (list_elem_of_lookup_2 _ _ _ Hr0)) as Hsort.
    pose proof (lows_highs_sorted v _ Hsort) as Hsplit.
    unfold holds in Hholds.
    destruct (highs v (r_cells r0)) as [|c hs] eqn:Hh; [done|].
    apply Z.eqb_eq in Hholds.
    pose proof (value_at_cell _ _ _ _ _ Hrow Hsplit) as Hval.
    rewrite Hholds in Hval.
    exists (cell_addrs <$> rs), (c_addr <$> lows v (r_cells r0)), (c_addr c),
      (c_addr <$> hs).
    split; [by apply levels_spec|]. split; [by apply remove_levels|].
    split; [|split; [done|]].
    + rewrite list_lookup_fmap, Hr0. simpl. unfold cell_addrs.
      by rewrite Hsplit at 1; rewrite fmap_app, fmap_cons.
    + rewrite unlink_first_skip.
      * simpl. by rewrite decide_True.
      * intros a (c' & -> & Hc')%list_elem_of_fmap.
        apply list_elem_of_filter in Hc' as [Hlt Hc'].
        rewrite (value_at_in _ _ _ Hrow Hc'). intros [= Heq]. lia.
Qed.

Lemma insertion_lifecycle_witness :
  ∃ ls l1 a l2,
    levels (after [Add 1 5; Add 0 5]) = Ok ls ∧
    levels (remove 5 (after [Add 1 5; Add 0 5])).2 =
      Ok (strip (unlink_first (heap (after [Add 1 5; Add 0 5])) 5 <$> ls)) ∧
    ls !! 0%nat = Some (l1 ++ a :: l2) ∧
    value_at (heap (after [Add 1 5; Add 0 5])) a = Some 5 ∧
    unlink_first (heap (after [Add 1 5; Add 0 5])) 5 (l1 ++ a :: l2)
      = l1 ++ l2.
Proof.
  apply (proj2 (insertion_lifecycle [Add 1 5; Add 0 5] 0 5)
           (remove 5 (after [Add 1 5; Add 0 5])).2).
  reflexivity.
Defined.

(** ** What a call leaves of the nodes it finds *)

Lemma nodes_repr s (rs : list row) : repr s rs → nodes s ≡ₚ addrs rs.
Proof.
  intros Hrepr. unfold nodes.
  rewrite (column_repr _ _ Hrepr), (levels_spec _ _ Hrepr).
  by rewrite addrs_split, reverse_Permutation.
Qed.

Lemma addrs_elem (rs : list row) a :
  a ∈ addrs rs → ∃ i r, rs !! i = Some r ∧ a ∈ row_addrs r.
Proof.
  intros (r & Ha & (i & Hr)%list_elem_of_lookup)%list_elem_of_bind. eauto.
Qed.

Lemma add_nodes s (rs : list row) (level : nat) v :
  repr s rs →
  ∃ s' rs',
    add (Z.of_nat level) v s = (Ok (), s') ∧ repr s' rs' ∧
    ∀ a, a ∈ addrs rs' → a ∈ addrs rs ∨ (length (heap s) ≤ a)%nat.
Proof.
  intros Hrepr.
  destruct (add_spec (Z.of_nat level) v s rs Hrepr)
    as (s' & rs' & Hadd & Hrepr' & Hrs'); [lia|].
  exists s', rs'. split; [done|]. split; [done|].
  intros a (i & r' & Hr' & Ha)%addrs_elem.
  rewrite Hrs', ins_rows_lookup in Hr'.
  set (k := Z.to_nat (Z.of_nat level + 1 - Z.of_nat (length rs))) in *.
  destruct ((rs ++ sentinels (length (heap s)) (head_ s) k) !! i)
    as [r0|] eqn:Hr0; [|by destruct (decide _)].
  assert (a ∈ row_addrs r0 → a ∈ addrs rs ∨ (length (heap s) ≤ a)%nat) as Hold.
  { intros Ha0. apply lookup_app_Some in Hr0 as [Hr0|[_ Hr0]].
    - left. by eapply addrs_lookup.
    - right. apply sentinels_lookup in Hr0 as [Hhd Hcells].
      rewrite row_addrs_unfold, Hcells, Hhd in Ha0.
      apply list_elem_of_singleton in Ha0. lia. }
  destruct (decide _) as [Hlt|Hge]; simpl in Hr'; injection Hr' as <-;
    [|by apply Hold].
  rewrite ins_addrs in Ha.
  - apply elem_of_cons in Ha as [->|Ha]; [right; lia|by apply Hold].
  - apply lookup_app_Some in Hr0 as [Hr0|[_ Hr0]].
    + apply (wf_sorted _ (repr_order _ _ Hrepr)).
      by eapply list_elem_of_lookup_2.
    + apply sentinels_lookup in Hr0 as [_ Hcells].
      unfold vals. rewrite Hcells. constructor.
Qed.

Lemma remove_nodes s (rs : list row) v :
  repr s rs →
  ∃ r s' rs',
    remove v s = (r, s') ∧ repr s' rs' ∧
    ∀ a, a ∈ addrs rs' → a ∈ addrs rs.
Proof.
  intros Hrepr.
  destruct (remove_spec v s rs Hrepr) as (r0 & Hr0 & Hrem).
  destruct (holds v (r_cells r0)).
  2:{ exists (Throw NoSuchValue), s, rs. by rewrite Hrem. }
  destruct Hrem as (s' & Hrem & Hrepr').
  exists (Ok ()), s', (trim (del v <$> rs)). split; [done|]. split; [done|].
  destruct (trim_take (del v <$> rs)) as (k & Hk & ->); [by destruct rs|].
  intros a (i & r' & Hr' & Ha)%addrs_elem.
  apply lookup_take_Some in Hr' as [Hr' _].
  rewrite list_lookup_fmap in Hr'.
  destruct (rs !! i) as [r|] eqn:Hr; [|done]. injection Hr' as <-.
  eapply addrs_lookup; [done|].
  rewrite row_addrs_unfold in Ha |- *. cbn [del r_hd] in Ha.
  apply elem_of_cons in Ha as [->|Ha]; [apply list_elem_of_here|].
  apply list_elem_of_further.
  eapply elem_of_sublist; [exact Ha|].
  apply del_addrs_sublist, (wf_sorted _ (repr_order _ _ Hrepr)).
  by eapply list_elem_of_lookup_2.
Qed.

(** X5. Between calls, a node the container links after a call (a
    sentinel or a node of a level) was linked before the call, and has
    the value and the [down] link it had, or the call is an [add] and
    created it: no call changes the value or the [down] link of a node,
    or links a node again that was unlinked, and [remove] creates none. *)
Theorem calls_keep_linked_nodes (cs : list call) (c : call) (a : nat) :
  a ∈ nodes (after (cs ++ [c])) →
  (a ∈ nodes (after cs) ∧
   value_at (heap (after (cs ++ [c]))) a = value_at (heap (after cs)) a ∧
   down_at (heap (after (cs ++ [c]))) a = down_at (heap (after cs)) a) ∨
  ((length (heap (after cs)) ≤ a)%nat ∧ ∃ level v, c = Add level v).
Proof.
  rewrite after_snoc. intros Ha.
  destruct (after_repr cs) as [rs Hrepr].
  pose proof (exec_keeps c (after cs)) as [_ Hk].
  assert (∃ rs', repr (exec c (after cs)).2 rs' ∧
            ∀ a, a ∈ addrs rs' →
              a ∈ addrs rs ∨
              ((length (heap (after cs)) ≤ a)%nat ∧ ∃ level v, c = Add level v))
    as (rs' & Hrepr' & Hfrom).
  { destruct c as [level v|v]; simpl.
    - destruct (add_nodes _ rs level v Hrepr) as (s' & rs' & -> & Hrepr' & Hin).
      exists rs'. split; [done|]. intros b Hb.
      destruct (Hin b Hb); [by left|right; eauto].
    - destruct (remove_nodes _ rs v Hrepr) as (r & s' & rs' & -> & Hrepr' & Hin).
      exists rs'. split; [done|]. intros b Hb. left. by apply Hin. }
  rewrite (nodes_repr _ _ Hrepr') in Ha.
  destruct (Hfrom a Ha) as [Hold|Hnew]; [left|by right].
  split; [by rewrite (nodes_repr _ _ Hrepr)|].
  pose proof (addrs_bound _ _ _ (repr_rows _ _ Hrepr) Hold) as Hlt.
  destruct (lookup_lt_is_Some_2 _ _ Hlt) as [n Hn].
  destruct (Hk a n Hn) as (n' & Hn' & Hv & Hd).
  unfold value_at, down_at. rewrite Hn, Hn'. simpl. by rewrite Hv, Hd.
Qed.

Lemma calls_keep_linked_nodes_witness :
  (1%nat ∈ nodes (after ([Add 0 3] ++ [Add 1 5]))) ∧
  ((1%nat ∈ nodes (after [Add 0 3]) ∧
    value_at (heap (after ([Add 0 3] ++ [Add 1 5]))) 1
      = value_at (heap (after [Add 0 3])) 1 ∧
    down_at (heap (after ([Add 0 3] ++ [Add 1 5]))) 1
      = down_at (heap (after [Add 0 3])) 1) ∨
   ((length (heap (after [Add 0 3])) ≤ 1)%nat ∧
    ∃ level v, Add 1 5 = Add level v)).
Proof.
  assert (1%nat ∈ nodes (after ([Add 0 3] ++ [Add 1 5]))) as H.
  { vm_compute. apply list_elem_of_further, list_elem_of_further,
      list_elem_of_here. }
  split; [exact H|].
  exact (calls_keep_linked_nodes [Add 0 3] (Add 1 5) 1 H).
Defined.
